(** * Bulk API job orchestration (jsforce [api/bulk]): model and properties

    The development follows the TypeScript source class by class:
    [Job], [PollingTimeoutError], [Batch], [BulkApi] and [Bulk], with the
    layout functions of [SObject].  Objects are records,
    methods are computations in a state-and-exception monad over one
    [World] (a [Bulk] facade with one [Job] and one [Batch]), and every
    [async] method is cut at its [await]s: the part that runs at the call
    keeps the method's name, the parts that run later are the cases of
    [resume], one per [await].  Promises, the event emitter, timers and the
    remote service are explicit parts of the world: a promise is a cell with
    the continuations that await it, [emit] runs the listeners the source
    registers, and the remote, the clock and the streams act through the
    labels of [step].

    Left out, as nothing below reads or writes through them: the logger,
    [Job.list], [Job.batch], [Batch.stream], the CSV codec behind the upload
    and download streams, and listeners other than those the source itself
    registers.  A reaction to an already settled promise is queued like any
    other; how many turns of the microtask queue a native promise takes is
    not counted. *)

From Stdlib Require Import ZArith String Ascii List Lia Bool.
From stdpp Require Import base option list gmap strings.
Import ListNotations.
Open Scope string_scope.
Open Scope list_scope.
Open Scope Z_scope.

(** ** JavaScript strings

    A string is its sequence of code units, here the code units below 256;
    the white space beyond them (U+1680, U+2000 to U+200A, U+2028, U+2029,
    U+202F, U+205F, U+3000, U+FEFF) is not represented. *)
Module JS.

Definition code (c : ascii) : N := N_of_ascii c.

Definition between (lo hi : N) (c : ascii) : bool :=
  ((lo <=? code c) && (code c <=? hi))%N.

Definition isDigit (c : ascii) : bool := between 48 57 c.

(** [\w] *)
Definition isWord (c : ascii) : bool :=
  between 65 90 c || between 97 122 c || isDigit c || (code c =? 95)%N.

(** [\s], and the white space [parseInt] and [trim] skip *)
Definition isSpace (c : ascii) : bool :=
  between 9 13 c || (code c =? 32)%N || (code c =? 160)%N.

Definition lower (c : ascii) : ascii :=
  if between 65 90 c || (between 192 222 c && negb (code c =? 215)%N)
  then ascii_of_N (code c + 32) else c.

Fixpoint toLowerCase (s : string) : string :=
  match s with
  | EmptyString => EmptyString
  | String c r => String (lower c) (toLowerCase r)
  end.

Fixpoint trimStart (s : string) : string :=
  match s with
  | String c r => if isSpace c then trimStart r else s
  | EmptyString => EmptyString
  end.

Fixpoint rev_string (acc s : string) : string :=
  match s with
  | EmptyString => acc
  | String c r => rev_string (String c acc) r
  end.

Definition trim (s : string) : string :=
  rev_string "" (trimStart (rev_string "" (trimStart s))).

(** A value used as a condition: [null], [undefined] and [''] are falsy. *)
Definition truthy (o : option string) : bool :=
  match o with
  | Some s => negb (String.eqb s "")
  | None => false
  end.

(** ['...' + x] for [x : string | null] *)
Definition show (o : option string) : string :=
  match o with Some s => s | None => "null" end.

(** [parseInt(s, 10)]: leading white space, an optional sign, then the
    longest run of decimal digits; [None] is [NaN]. *)
Fixpoint digits (acc : option Z) (s : string) : option Z :=
  match s with
  | String c r =>
      if isDigit c
      then digits (Some (10 * default 0 acc + Z.of_N (code c - 48))) r
      else acc
  | EmptyString => acc
  end.

Definition parseInt (s : string) : option Z :=
  match trimStart s with
  | String "-" r => Z.opp <$> digits None r
  | String "+" r => digits None r
  | t => digits None t
  end.

(** [x > 0] for the number [parseInt] produced; [NaN > 0] is false. *)
Definition gt0 (n : option Z) : bool :=
  match n with Some z => 0 <? z | None => false end.

(** *** The two regular expressions of [Bulk.query] *)

(** The text after the last [")"] of [s], if [s] has one. *)
Fixpoint after_last_close (s : string) : option string :=
  match s with
  | EmptyString => None
  | String c r =>
      match after_last_close r with
      | Some t => Some t
      | None => if Ascii.eqb c ")" then Some r else None
      end
  end.

(** [s.replace(/\([\s\S]+\)/g, '')]: at the first ["("] that is followed by
    at least one character and then a [")"], the greedy [[\s\S]+] runs to
    the last [")"] of the text and the whole span is dropped.  The search
    resumes behind that span, where no [")"] is left, so the rest is kept. *)
Fixpoint strip_parens (s : string) : string :=
  match s with
  | EmptyString => EmptyString
  | String c r =>
      if Ascii.eqb c "("
      then match r with
           | String _ r' =>
               match after_last_close r' with
               | Some t => t
               | None => String c (strip_parens r)
               end
           | EmptyString => s
           end
      else String c (strip_parens r)
  end.

Fixpoint takeWord (s : string) : string :=
  match s with
  | String c r => if isWord c then String c (takeWord r) else EmptyString
  | EmptyString => EmptyString
  end.

(** [/FROM\s+(\w+)/i] anchored at the start of [s]; the result is group 1. *)
Definition from_here (s : string) : option string :=
  match s with
  | String f (String r (String o (String m (String sp rest)))) =>
      if (String.eqb (toLowerCase (String f (String r (String o (String m "")))))
                     "from")
         && isSpace sp
      then match takeWord (trimStart rest) with
           | EmptyString => None
           | w => Some w
           end
      else None
  | _ => None
  end.

(** [s.match(/FROM\s+(\w+)/i)]: the leftmost position where it matches. *)
Fixpoint match_from (s : string) : option string :=
  match from_here s with
  | Some w => Some w
  | None =>
      match s with
      | String _ r => match_from r
      | EmptyString => None
      end
  end.

(** *** The regular expression of [BulkApi.isSessionExpired] *)

(** [s.startsWith(t)] *)
Fixpoint startsWith (t s : string) : bool :=
  match t, s with
  | EmptyString, _ => true
  | String a t', String b s' => Ascii.eqb a b && startsWith t' s'
  | String _ _, EmptyString => false
  end.

(** [/t/.test(s)] for a pattern [t] of literal characters: [t] is looked for
    at every position of [s]. *)
Fixpoint includes (t s : string) : bool :=
  startsWith t s
  || match s with
     | String _ r => includes t r
     | EmptyString => false
     end.

End JS.

(** ** Data of the Bulk API

    Each TypeScript type is a record or an inductive type of the same name;
    a module per type keeps the source's field names. *)

(** A field of a [Record]: the scalars that reach the CSV encoder. *)
Inductive FieldValue :=
| FUndefined
| FNull
| FBool (b : bool)
| FNumber (n : Z)
| FString (s : string).

(** [Record]: a JavaScript object used as a map from field names to values. *)
Abbreviation Rec := (gmap string FieldValue).

Module JobState.
Inductive t := Open | Closed | Aborted | Failed | Unknown.
Definition show (s : t) : string :=
  match s with
  | Open => "Open" | Closed => "Closed" | Aborted => "Aborted"
  | Failed => "Failed" | Unknown => "Unknown"
  end.
End JobState.

Module BatchState.
Inductive t := Queued | InProgress | Completed | Failed | NotProcessed.
End BatchState.

Module Error.
(** [Error], with the two fields [PollingTimeoutError] adds. *)
Record t := make {
  name : string;
  message : string;
  jobId : option string;
  batchId : option string
}.
End Error.

(** [new Error(message)] *)
Definition new_Error (message : string) : Error.t :=
  Error.make "Error" message None None.

(** What JavaScript throws when a value has not the shape the code reads. *)
Definition TypeError (message : string) : Error.t :=
  Error.make "TypeError" message None None.

(** [new PollingTimeoutError(message, jobId, batchId)] *)
Definition PollingTimeoutError (message jobId batchId : string) : Error.t :=
  Error.make "PollingTimeout" message (Some jobId) (Some batchId).

Module BulkOptions.
Record t := make {
  extIdField : option string;
  concurrencyMode : option string;
  assignmentRuleId : option string
}.
Definition empty : t := make None None None.
End BulkOptions.

Module JobInfo.
Record t := make {
  id : string;
  object : string;
  operation : string;
  state : JobState.t
}.
End JobInfo.

Module BatchInfo.
Record t := make {
  id : string;
  jobId : string;
  state : BatchState.t;
  stateMessage : string;
  numberRecordsProcessed : string;
  numberRecordsFailed : string;
  totalProcessingTime : string
}.
End BatchInfo.

Module Row.
(** One element of [BulkLoadResultResponse]; a column the remote left out
    (or sent as null) is [None]. *)
Record t := make {
  Id : option string;
  Success : option string;
  Error : option string
}.
End Row.

Module LoadEntry.
(** One element of [BulkLoadBatchResult]. *)
Record t := make {
  id : option string;
  success : bool;
  errors : list string
}.
End LoadEntry.

Module QueryEntry.
(** One element of [BulkQueryBatchResult]. *)
Record t := make {
  id : string;
  batchId : string;
  jobId : string
}.
End QueryEntry.

Inductive BatchResult :=
| LoadResult (entries : list LoadEntry.t)
| QueryResult (entries : list QueryEntry.t).

Module BulkRequest.
Record t := make {
  method : string;
  path : string;
  body : option string;
  headers : list (string * string);
  responseType : option string
}.
End BulkRequest.

(** Values that travel through promises, events and responses. *)
Inductive Val :=
| VUndefined
| VString (s : string)
| VJobInfo (i : JobInfo.t)                     (* [JobInfoResponse] *)
| VBatchInfo (b : BatchInfo.t)                 (* [BatchInfoResponse] *)
| VLoadResponse (rows : list Row.t)            (* [BulkLoadResultResponse] *)
| VQueryResponse (result : string + list string) (* [BulkQueryResultResponse] *)
| VResult (r : BatchResult)
| VError (e : Error.t).

Inductive Settled :=
| Fulfilled (v : Val)
| Rejected (e : Error.t).

(** The closure of one [poll] loop: what [Batch.poll] captures. *)
Module PollLoop.
Record t := make {
  startTime : Z;
  timeout : Z;
  interval : Z;
  jobId : string;
  batchId : string
}.
End PollLoop.

(** A callback handed to [then]: in the program these are the resolving
    functions of the promise an [await] makes for a thenable. *)
Inductive Callback :=
| CResolve (p : nat)   (* [resolve] of the promise [p] *)
| CReject (p : nat).   (* [reject] of the promise [p] *)

(** The rest of an [async] function after one of its [await]s, or the
    reaction a [then] puts on a promise. *)
Inductive Kont :=
| KOpen (p : nat)                (* [Job.open]: [await bulk._request] *)
| KThenId (p : nat)              (* [open().then(({ id }) => id)] *)
| KCheckId (p : nat)             (* [Job.check]: [await this._waitIdAssignment()] *)
| KCheck (p : nat)               (* [Job.check]: [await bulk._request] *)
| KChangeStateId (st : JobState.t) (p : nat)
| KChangeState (p : nat)         (* [Job._changeState]: [await bulk._request] *)
| KClose (p : nat)               (* [Job.close]: [await this._changeState('Closed')] *)
| KAbort (p : nat)               (* [Job.abort]: [await this._changeState('Aborted')] *)
| KReadable                      (* ['readable'] handler: [await this.job.open()] *)
| KQueue                         (* [Batch._createRequestStream]: [await req] *)
| KBatchCheck (p : nat)          (* [Batch.check]: [await bulk._request] *)
| KPoll (l : PollLoop.t)         (* poll tick: [await this.check()] *)
| KRetrieve (p : nat) (jobId batchId : string)
| KThen (q : nat) (onResolved onReject : option Callback)
                                 (* [this._result.then(onResolved, onReject)],
                                    whose value is the promise [q] *)
| KQuery                         (* [Bulk.query]: [await this.load(...)] *)
| KPipe.                         (* [req.stream().pipe(...)]: nothing resumes *)

(** The listeners the source registers. *)
Inductive Handler :=
| HRegisterBatch    (* [Job.createBatch], 'queue' *)
| HForwardToBatch   (* [Bulk.load], job 'error' *)
| HCleanup          (* [Bulk.load], 'response' *)
| HCleanupOnError   (* [Bulk.load], 'error' *)
| HPollOnQueue      (* [Bulk.load], 'queue' *)
| HResolve (p : nat)  (* [Batch.execute], 'response' *)
| HReject (p : nat).  (* [Batch.execute], 'error' *)

Module Listener.
Record t := make { event : string; handler : Handler; once : bool }.
End Listener.

Inductive Emitter := OnJob | OnBatch | OnRecordStream.

Inductive Method := JobClose | JobAbort | BatchRetrieve.

(** What the program does to the outside, newest first in [trace]. *)
Inductive Effect :=
| ERequest (id : nat) (r : BulkRequest.t)       (* [bulk._request(r)] *)
| EEmit (src : Emitter) (event : string) (arg : Val)
| ECall (m : Method)                            (* the method was entered *)
| EOpenResult (jobId batchId resultId : string) (* [Batch.result] piped on *)
| EUncaught (e : Error.t).                      (* nobody awaits the rejection *)

(** What is written to the upload side of a [Batch]. *)
Inductive Chunk :=
| CRecord (r : Rec)        (* [_uploadStream.write(record)] *)
| CText (data : string).   (* [_dataStream.write(data, 'utf8')] *)

Module JobFields.
(** The fields of [class Job]. *)
Record t := make {
  type : option string;
  operation : option string;
  options : BulkOptions.t;
  id : option string;
  state : JobState.t;
  _batches : gset string;       (* the keys of [_batches] *)
  _jobInfo : option nat         (* a promise, or [undefined] *)
}.

Definition set_type v (j : t) :=
  make v (operation j) (options j) (id j) (state j) (_batches j) (_jobInfo j).
Definition set_operation v (j : t) :=
  make (type j) v (options j) (id j) (state j) (_batches j) (_jobInfo j).
Definition set_id v (j : t) :=
  make (type j) (operation j) (options j) v (state j) (_batches j) (_jobInfo j).
Definition set_state v (j : t) :=
  make (type j) (operation j) (options j) (id j) v (_batches j) (_jobInfo j).
Definition set_batches v (j : t) :=
  make (type j) (operation j) (options j) (id j) (state j) v (_jobInfo j).
Definition set_jobInfo v (j : t) :=
  make (type j) (operation j) (options j) (id j) (state j) (_batches j) v.
End JobFields.

Module BatchFields.
(** The fields of [class Batch]; its streams are what was written to the
    upload side and how far the upload has got. *)
Record t := make {
  id : option string;
  _uploadStream : list Chunk;   (* written so far, oldest first *)
  ended : bool;                 (* the upload side was ended *)
  armed : bool;                 (* the [once('readable')] handler is still on *)
  piped : bool;                 (* [input.pipe(this._dataStream)] *)
  _result : option nat          (* a promise, or [undefined] *)
}.

Definition set_id v (b : t) :=
  make v (_uploadStream b) (ended b) (armed b) (piped b) (_result b).
Definition set_uploadStream v (b : t) :=
  make (id b) v (ended b) (armed b) (piped b) (_result b).
Definition set_ended v (b : t) :=
  make (id b) (_uploadStream b) v (armed b) (piped b) (_result b).
Definition set_armed v (b : t) :=
  make (id b) (_uploadStream b) (ended b) v (piped b) (_result b).
Definition set_piped v (b : t) :=
  make (id b) (_uploadStream b) (ended b) (armed b) v (_result b).
Definition set_result v (b : t) :=
  make (id b) (_uploadStream b) (ended b) (armed b) (piped b) v.

(** [new Batch(job, id)]: nothing written, the 'readable' handler on. *)
Definition create (id : option string) : t :=
  make id [] false true false None.
End BatchFields.

(** A promise: its settlement, if any, and the continuations awaiting it. *)
Module Cell.
Record t := make { settled : option Settled; waiters : list Kont }.
Definition pending : t := make None [].
End Cell.

(** ** The world *)
Record World := mkWorld {
  clock : Z;                          (* [new Date().getTime()] *)
  pollInterval : Z;                   (* [Bulk.pollInterval] *)
  pollTimeout : Z;                    (* [Bulk.pollTimeout] *)
  job : JobFields.t;
  batch : BatchFields.t;
  loadBatch : bool;                   (* [load]'s variable [batch] is not null *)
  jobListeners : list Listener.t;
  batchListeners : list Listener.t;
  promises : list Cell.t;             (* a promise is its index *)
  microtasks : list (Kont * Settled); (* reactions ready to run, oldest first *)
  awaiting : gmap nat Kont;           (* requests in flight *)
  nextRequest : nat;
  timers : list PollLoop.t;           (* pending [setTimeout(poll, interval)] *)
  trace : list Effect
}.

Definition upd_clock v w :=
  mkWorld v (pollInterval w) (pollTimeout w) (job w) (batch w) (loadBatch w)
    (jobListeners w) (batchListeners w) (promises w) (microtasks w)
    (awaiting w) (nextRequest w) (timers w) (trace w).
Definition upd_job f w :=
  mkWorld (clock w) (pollInterval w) (pollTimeout w) (f (job w)) (batch w)
    (loadBatch w) (jobListeners w) (batchListeners w) (promises w)
    (microtasks w) (awaiting w) (nextRequest w) (timers w) (trace w).
Definition upd_batch f w :=
  mkWorld (clock w) (pollInterval w) (pollTimeout w) (job w) (f (batch w))
    (loadBatch w) (jobListeners w) (batchListeners w) (promises w)
    (microtasks w) (awaiting w) (nextRequest w) (timers w) (trace w).
Definition upd_loadBatch v w :=
  mkWorld (clock w) (pollInterval w) (pollTimeout w) (job w) (batch w) v
    (jobListeners w) (batchListeners w) (promises w) (microtasks w)
    (awaiting w) (nextRequest w) (timers w) (trace w).
Definition upd_jobListeners f w :=
  mkWorld (clock w) (pollInterval w) (pollTimeout w) (job w) (batch w)
    (loadBatch w) (f (jobListeners w)) (batchListeners w) (promises w)
    (microtasks w) (awaiting w) (nextRequest w) (timers w) (trace w).
Definition upd_batchListeners f w :=
  mkWorld (clock w) (pollInterval w) (pollTimeout w) (job w) (batch w)
    (loadBatch w) (jobListeners w) (f (batchListeners w)) (promises w)
    (microtasks w) (awaiting w) (nextRequest w) (timers w) (trace w).
Definition upd_promises f w :=
  mkWorld (clock w) (pollInterval w) (pollTimeout w) (job w) (batch w)
    (loadBatch w) (jobListeners w) (batchListeners w) (f (promises w))
    (microtasks w) (awaiting w) (nextRequest w) (timers w) (trace w).
Definition upd_microtasks f w :=
  mkWorld (clock w) (pollInterval w) (pollTimeout w) (job w) (batch w)
    (loadBatch w) (jobListeners w) (batchListeners w) (promises w)
    (f (microtasks w)) (awaiting w) (nextRequest w) (timers w) (trace w).
Definition upd_awaiting f w :=
  mkWorld (clock w) (pollInterval w) (pollTimeout w) (job w) (batch w)
    (loadBatch w) (jobListeners w) (batchListeners w) (promises w)
    (microtasks w) (f (awaiting w)) (nextRequest w) (timers w) (trace w).
Definition upd_nextRequest f w :=
  mkWorld (clock w) (pollInterval w) (pollTimeout w) (job w) (batch w)
    (loadBatch w) (jobListeners w) (batchListeners w) (promises w)
    (microtasks w) (awaiting w) (f (nextRequest w)) (timers w) (trace w).
Definition upd_timers f w :=
  mkWorld (clock w) (pollInterval w) (pollTimeout w) (job w) (batch w)
    (loadBatch w) (jobListeners w) (batchListeners w) (promises w)
    (microtasks w) (awaiting w) (nextRequest w) (f (timers w)) (trace w).
Definition upd_trace f w :=
  mkWorld (clock w) (pollInterval w) (pollTimeout w) (job w) (batch w)
    (loadBatch w) (jobListeners w) (batchListeners w) (promises w)
    (microtasks w) (awaiting w) (nextRequest w) (timers w) (f (trace w)).

(** ** The monad: state, and exceptions for [throw] *)
Inductive Completion (A : Type) :=
| Normal (a : A)
| Throw (e : Error.t).
Arguments Normal {A} a.
Arguments Throw {A} e.

Definition M (A : Type) : Type := World -> Completion A * World.

Definition ret {A} (a : A) : M A := fun w => (Normal a, w).

Definition bind {A B} (m : M A) (k : A -> M B) : M B :=
  fun w =>
    match m w with
    | (Normal a, w') => k a w'
    | (Throw e, w') => (Throw e, w')
    end.

Declare Scope m_scope.
Delimit Scope m_scope with M.
Notation "x <- m ;; k" := (bind m (fun x => k))
  (at level 100, m at next level, right associativity) : m_scope.
Notation "m ;; k" := (bind m (fun _ => k))
  (at level 100, right associativity) : m_scope.
Open Scope m_scope.

Definition throw {A} (e : Error.t) : M A := fun w => (Throw e, w).

(** [try { m } catch (e) { ... }]: the completion of [m] as a value. *)
Definition try {A} (m : M A) : M (Completion A) :=
  fun w => let (c, w') := m w in (Normal c, w').

Definition gets {A} (f : World -> A) : M A := fun w => (Normal (f w), w).

Definition modify (f : World -> World) : M unit := fun w => (Normal tt, f w).

Definition log (e : Effect) : M unit := modify (upd_trace (cons e)).

(** The world a computation leaves, and its completion. *)
Definition exec {A} (m : M A) (w : World) : World := snd (m w).
Definition eval {A} (m : M A) (w : World) : Completion A := fst (m w).

(** *** Promises *)

(** [new Promise(...)], still pending *)
Definition newPromise : M nat :=
  p <- gets (fun w => length (promises w)) ;;
  modify (upd_promises (fun ps => ps ++ [Cell.pending])) ;;
  ret p.

(** Settling a pending promise queues a reaction for each continuation that
    awaits it; a settled promise stays as it is. *)
Definition settle (p : nat) (s : Settled) : M unit :=
  c <- gets (fun w => promises w !! p) ;;
  match c with
  | Some (Cell.make None ks) =>
      modify (upd_promises (fun ps => <[p := Cell.make (Some s) []]> ps)) ;;
      modify (upd_microtasks (fun q => q ++ map (fun k => (k, s)) ks))
  | _ => ret tt
  end.

(** [await p] with the rest of the function as [k] (also [p.then(k)]) *)
Definition await (p : nat) (k : Kont) : M unit :=
  c <- gets (fun w => promises w !! p) ;;
  match c with
  | Some (Cell.make (Some s) _) =>
      modify (upd_microtasks (fun q => q ++ [(k, s)]))
  | Some (Cell.make None ks) =>
      modify (upd_promises (fun ps => <[p := Cell.make None (ks ++ [k])]> ps))
  | None => ret tt
  end.

(** [Promise.resolve(v)] *)
Definition resolved (v : Val) : M nat :=
  p <- newPromise ;;
  settle p (Fulfilled v) ;;
  ret p.

(** [bulk._request(r)], awaited with the rest of the function as [k]; the
    remote answers later through [respond]. *)
Definition request (r : BulkRequest.t) (k : Kont) : M unit :=
  n <- gets nextRequest ;;
  log (ERequest n r) ;;
  modify (upd_awaiting (fun a => <[n := k]> a)) ;;
  modify (upd_nextRequest S).

(** [setTimeout(poll, interval)] *)
Definition setTimeout (l : PollLoop.t) : M unit :=
  modify (upd_timers (fun ts => ts ++ [l])).

(** [new Date().getTime()] *)
Definition getTime : M Z := gets clock.

(** ** Listeners

    [on] and [once] of the two event emitters. *)

Definition onBatch (event : string) (h : Handler) : M unit :=
  modify (upd_batchListeners (fun ls => ls ++ [Listener.make event h false])).

Definition onceBatch (event : string) (h : Handler) : M unit :=
  modify (upd_batchListeners (fun ls => ls ++ [Listener.make event h true])).

Definition onceJob (event : string) (h : Handler) : M unit :=
  modify (upd_jobListeners (fun ls => ls ++ [Listener.make event h true])).

(** ** class Job *)

Definition dq : string := String "034"%char "".
Definition nl : string := String "010"%char "".

Definition xml_header : string :=
  "<?xml version=" +:+ dq +:+ "1.0" +:+ dq +:+ " encoding=" +:+ dq +:+ "UTF-8"
  +:+ dq +:+ "?>".

Definition xmlns : string :=
  "xmlns=" +:+ dq +:+ "http://www.force.com/2009/06/asyncapi/dataload" +:+ dq.

Definition xml_headers : list (string * string) :=
  [("Content-Type", "application/xml; charset=utf-8")].

Module Job.
Import JobFields.

(** [new Job(bulk, type, operation, options, jobId)] *)
Definition constructor (type operation : option string)
    (options : option BulkOptions.t) (jobId : option string) : JobFields.t :=
  let id := jobId in                                     (* [jobId ?? null] *)
  make type operation (default BulkOptions.empty options) id
       (if JS.truthy id then JobState.Open else JobState.Unknown)
       ∅ None.

Definition element (tag : string) (v : option string) : string :=
  if JS.truthy v
  then "<" +:+ tag +:+ ">" +:+ JS.show v +:+ "</" +:+ tag +:+ ">"
  else "".

(** The request body [open] builds. *)
Definition openBody (this : JobFields.t) : string :=
  let operation := JS.toLowerCase (JS.show (operation this)) in
  let operation :=
    if String.eqb operation "harddelete" then "hardDelete" else operation in
  let operation :=
    if String.eqb operation "queryall" then "queryAll" else operation in
  JS.trim
    (nl +:+ xml_header +:+ nl
     +:+ "<jobInfo  " +:+ xmlns +:+ ">" +:+ nl
     +:+ "  <operation>" +:+ operation +:+ "</operation>" +:+ nl
     +:+ "  <object>" +:+ JS.show (type this) +:+ "</object>" +:+ nl
     +:+ "  " +:+ element "externalIdFieldName"
                    (BulkOptions.extIdField (options this)) +:+ nl
     +:+ "  " +:+ element "concurrencyMode"
                    (BulkOptions.concurrencyMode (options this)) +:+ nl
     +:+ "  " +:+ element "assignmentRuleId"
                    (BulkOptions.assignmentRuleId (options this)) +:+ nl
     +:+ "  <contentType>CSV</contentType>" +:+ nl
     +:+ "</jobInfo>" +:+ nl +:+ "      ").

Definition openRequest (this : JobFields.t) : BulkRequest.t :=
  BulkRequest.make "POST" "/job" (Some (openBody this)) xml_headers
    (Some "application/xml").

(** [open()]: up to the [await] of the request; [KOpen] is the rest. *)
Definition open : M nat :=
  this <- gets job ;;
  if negb (JS.truthy (type this)) || negb (JS.truthy (operation this))
  then throw (new_Error "type / operation is required to open a new job")
  else
    match _jobInfo this with
    | None =>
        p <- newPromise ;;
        request (openRequest this) (KOpen p) ;;
        modify (upd_job (set_jobInfo (Some p))) ;;
        ret p
    | Some p => ret p
    end.

(** [_waitIdAssignment()] *)
Definition _waitIdAssignment : M nat :=
  this <- gets job ;;
  if JS.truthy (id this)
  then resolved (VString (JS.show (id this)))
  else
    q <- open ;;
    q' <- newPromise ;;
    await q (KThenId q') ;;
    ret q'.

(** The start of the two [async] blocks that first wait for the job id: a
    throw inside the block rejects the block's promise [p]. *)
Definition awaitId (p : nat) (k : Kont) : M unit :=
  c <- try _waitIdAssignment ;;
  match c with
  | Normal q => await q k
  | Throw e => settle p (Rejected e)
  end.

(** [check()] *)
Definition check : M nat :=
  p <- newPromise ;;
  awaitId p (KCheckId p) ;;
  modify (upd_job (set_jobInfo (Some p))) ;;
  ret p.

(** [info()] *)
Definition info : M nat :=
  this <- gets job ;;
  match _jobInfo this with
  | None =>
      p <- check ;;
      modify (upd_job (set_jobInfo (Some p))) ;;
      ret p
  | Some p => ret p
  end.

Definition changeStateBody (state : JobState.t) : string :=
  JS.trim
    (" " +:+ nl +:+ xml_header +:+ nl
     +:+ "  <jobInfo " +:+ xmlns +:+ ">" +:+ nl
     +:+ "  <state>" +:+ JobState.show state +:+ "</state>" +:+ nl
     +:+ "</jobInfo>" +:+ nl +:+ "      ").

Definition changeStateRequest (jobId : string) (state : JobState.t)
    : BulkRequest.t :=
  BulkRequest.make "POST" ("/job/" +:+ jobId) (Some (changeStateBody state))
    xml_headers (Some "application/xml").

(** [_changeState(state)]; the promise it returns settles as
    [this._jobInfo] does. *)
Definition _changeState (state : JobState.t) : M nat :=
  p <- newPromise ;;
  awaitId p (KChangeStateId state p) ;;
  modify (upd_job (set_jobInfo (Some p))) ;;
  ret p.

(** [close()]: up to [await this._changeState('Closed')] *)
Definition close : M nat :=
  log (ECall JobClose) ;;
  pc <- newPromise ;;
  p <- _changeState JobState.Closed ;;
  await p (KClose pc) ;;
  ret pc.

(** [abort()]: up to [await this._changeState('Aborted')] *)
Definition abort : M nat :=
  log (ECall JobAbort) ;;
  pc <- newPromise ;;
  p <- _changeState JobState.Aborted ;;
  await p (KAbort pc) ;;
  ret pc.

(** [createBatch()]: the world's batch becomes the new one. *)
Definition createBatch : M unit :=
  modify (upd_batch (fun _ => BatchFields.create None)) ;;
  modify (upd_batchListeners (fun _ => [])) ;;
  onBatch "queue" HRegisterBatch.
End Job.

(** ** class Batch *)

(** What [execute] is given. *)
Inductive Input :=
| InNone                       (* [undefined] *)
| InString (data : string)
| InRecords (records : list Rec)
| InReadable.                  (* a stream; its data comes later *)

Module Batch.
Import BatchFields.

Definition uploadWrite (c : Chunk) : M unit :=
  modify (upd_batch (fun b => set_uploadStream (_uploadStream b ++ [c]) b)).

(** [_createRequestStream()]: up to [await req]; [KQueue] is the rest. *)
Definition _createRequestStream : M unit :=
  jobId <- gets (fun w => JobFields.id (job w)) ;;
  request
    (BulkRequest.make "POST" ("/job/" +:+ JS.show jobId +:+ "/batch") None
       [("Content-Type", "text/csv")] (Some "application/xml"))
    KQueue.

Definition operationIs (op : option string) (s : string) : bool :=
  match op with Some o => String.eqb o s | None => false end.

(** The record [_write] hands to the upload stream. *)
Definition shape (operation : option string) (record_ : Rec) : Rec :=
  let Id := default FUndefined (record_ !! "Id") in
  let rrec := delete "Id" (delete "type" (delete "attributes" record_)) in
  if operationIs operation "insert" then rrec
  else if operationIs operation "delete" || operationIs operation "hardDelete"
    then {[ "Id" := Id ]}
  else <[ "Id" := Id ]> rrec.

(** [_write(record_, enc, cb)] *)
Definition _write (record_ : Rec) : M unit :=
  operation <- gets (fun w => JobFields.operation (job w)) ;;
  uploadWrite (CRecord (shape operation record_)).

(** [write(record)] of [Writable]: the chunk goes to [_write]. *)
Definition write (record : Rec) : M unit := _write record.

(** The upload side is ended: by [this._dataStream.end()], or by
    [this.end()], on whose 'finish' the constructor's listener calls
    [uploadStream.end()]. *)
Definition end_ : M unit := modify (upd_batch (set_ended true)).

Definition on := onBatch.

Definition once := onceBatch.

(** [String(v)] for the boolean fields of a record of the input array *)
Definition coerce (v : FieldValue) : FieldValue :=
  match v with
  | FBool true => FString "true"
  | FBool false => FString "false"
  | _ => v
  end.

Fixpoint writeAll (records : list Rec) : M unit :=
  match records with
  | [] => ret tt
  | record :: rest => write (coerce <$> record) ;; writeAll rest
  end.

(** [execute(input)] *)
Definition execute (input : Input) : M unit :=
  this <- gets batch ;;
  match _result this with
  | Some _ => throw (new_Error "Batch already executed.")
  | None =>
      p <- newPromise ;;
      once "response" (HResolve p) ;;
      once "error" (HReject p) ;;
      modify (upd_batch (set_result (Some p))) ;;
      match input with
      | InReadable => modify (upd_batch (set_piped true))
      | InRecords records => writeAll records ;; end_
      | InString data => uploadWrite (CText data) ;; end_
      | InNone => ret tt
      end
  end.

Definition run := execute.

Definition exec := execute.

(** [then(onResolved, onReject)]: [this._result.then(...)] makes a new
    promise [q] and puts the two callbacks on [this._result]; [KThen] is
    the reaction. *)
Definition then_ (onResolved onReject : option Callback) : M nat :=
  this <- gets batch ;;
  match _result this with
  | None => execute InNone
  | Some _ => ret tt
  end ;;
  result <- gets (fun w => _result (batch w)) ;;
  match result with
  | Some p =>
      q <- newPromise ;;
      await p (KThen q onResolved onReject) ;;
      ret q
  | None =>
      throw (TypeError "Cannot read properties of undefined (reading 'then')")
  end.

Definition started (w : World) : option (string * string) :=
  match JobFields.id (job w), id (batch w) with
  | Some jobId, Some batchId =>
      if JS.truthy (Some jobId) && JS.truthy (Some batchId)
      then Some (jobId, batchId) else None
  | _, _ => None
  end.

Definition notStarted : Error.t := new_Error "Batch not started.".

(** [check()]: up to the [await] of the request *)
Definition check : M nat :=
  p <- newPromise ;;
  ids <- gets started ;;
  match ids with
  | None => settle p (Rejected notStarted)
  | Some (jobId, batchId) =>
      request
        (BulkRequest.make "GET" ("/job/" +:+ jobId +:+ "/batch/" +:+ batchId)
           None [] (Some "application/xml"))
        (KBatchCheck p)
  end ;;
  ret p.

(** [poll(interval, timeout)]: the first tick is scheduled. *)
Definition poll (interval timeout : Z) : M unit :=
  ids <- gets started ;;
  match ids with
  | None => throw notStarted
  | Some (jobId, batchId) =>
      startTime <- getTime ;;
      setTimeout (PollLoop.make startTime timeout interval jobId batchId)
  end.

(** [retrieve()]: up to the [await] of the request *)
Definition retrieve : M nat :=
  log (ECall BatchRetrieve) ;;
  p <- newPromise ;;
  ids <- gets started ;;
  match ids with
  | None => settle p (Rejected notStarted)
  | Some (jobId, batchId) =>
      request
        (BulkRequest.make "GET"
           ("/job/" +:+ jobId +:+ "/batch/" +:+ batchId +:+ "/result")
           None [] None)
        (KRetrieve p jobId batchId)
  end ;;
  ret p.

(** [results] of [retrieve] for a query operation *)
Definition queryResults (result : string + list string)
    (jobId batchId : string) : list QueryEntry.t :=
  let resultId := match result with inl r => [r] | inr rs => rs end in
  map (fun id => QueryEntry.make id batchId jobId) resultId.

(** One row of a load result: [ret => ({ id, success, errors })] *)
Definition loadEntry (ret : Row.t) : LoadEntry.t :=
  LoadEntry.make
    (if JS.truthy (Row.Id ret) then Row.Id ret else None)
    (match Row.Success ret with Some s => String.eqb s "true" | None => false end)
    (if JS.truthy (Row.Error ret) then [JS.show (Row.Error ret)] else []).

(** [results] of [retrieve] for any other operation *)
Definition loadResults (res : list Row.t) : list LoadEntry.t :=
  map loadEntry res.

(** The decoding in [retrieve], by the job's operation. *)
Definition decode (operation : option string) (resp : Val)
    (jobId batchId : string) : Completion BatchResult :=
  if operationIs operation "query" || operationIs operation "queryAll"
  then match resp with
       | VQueryResponse result =>
           Normal (QueryResult (queryResults result jobId batchId))
       | _ => Throw (TypeError "Cannot read properties of undefined (reading 'result')")
       end
  else match resp with
       | VLoadResponse res => Normal (LoadResult (loadResults res))
       | _ => Throw (TypeError "res.map is not a function")
       end.

(** [result(resultId)] of a batch with these ids *)
Definition resultOf (jobId batchId : option string) (resultId : string)
    : M unit :=
  if negb (JS.truthy jobId) || negb (JS.truthy batchId)
  then throw notStarted
  else
    request
      (BulkRequest.make "GET"
         ("/job/" +:+ JS.show jobId +:+ "/batch/" +:+ JS.show batchId
          +:+ "/result/" +:+ resultId)
         None [] (Some "application/octet-stream"))
      KPipe ;;
    log (EOpenResult (JS.show jobId) (JS.show batchId) resultId).

Definition result (resultId : string) : M unit :=
  jobId <- gets (fun w => JobFields.id (job w)) ;;
  batchId <- gets (fun w => id (batch w)) ;;
  resultOf jobId batchId resultId.
End Batch.

(** ** Events

    [emit] calls the listeners of the event in the order they were put on; a
    [once] listener is taken off before it runs; an 'error' nobody listens
    to is thrown. *)

Definition handler_eqb (a b : Handler) : bool :=
  match a, b with
  | HRegisterBatch, HRegisterBatch
  | HForwardToBatch, HForwardToBatch
  | HCleanup, HCleanup
  | HCleanupOnError, HCleanupOnError
  | HPollOnQueue, HPollOnQueue => true
  | HResolve p, HResolve q => Nat.eqb p q
  | HReject p, HReject q => Nat.eqb p q
  | _, _ => false
  end.

Definition listener_eqb (a b : Listener.t) : bool :=
  String.eqb (Listener.event a) (Listener.event b)
  && handler_eqb (Listener.handler a) (Listener.handler b)
  && Bool.eqb (Listener.once a) (Listener.once b).

Fixpoint removeListener (l : Listener.t) (ls : list Listener.t)
    : list Listener.t :=
  match ls with
  | [] => []
  | x :: r => if listener_eqb x l then r else x :: removeListener l r
  end.

Definition listenersOf (event : string) (ls : list Listener.t)
    : list Listener.t :=
  List.filter (fun l => String.eqb (Listener.event l) event) ls.

(** The argument of an 'error' event as an error; another value has no
    [name]. *)
Definition errorOf (arg : Val) : Error.t :=
  match arg with
  | VError e => e
  | _ => Error.make "" "" None None
  end.

(** The closures of [Bulk.load]. *)
Definition cleanup : M unit :=
  modify (upd_loadBatch false) ;;
  _ <- Job.close ;;
  ret tt.

Definition cleanupOnError (err : Error.t) : M unit :=
  if negb (String.eqb (Error.name err) "PollingTimeout")
  then cleanup
  else ret tt.

Definition batchHandler (h : Handler) (arg : Val) : M unit :=
  match h with
  | HRegisterBatch =>
      batchId <- gets (fun w => BatchFields.id (batch w)) ;;
      modify (upd_job (fun j =>
        JobFields.set_batches
          ({[ default "undefined" batchId ]} ∪ JobFields._batches j) j))
  | HCleanup => cleanup
  | HCleanupOnError => cleanupOnError (errorOf arg)
  | HPollOnQueue =>
      live <- gets loadBatch ;;
      if live
      then interval <- gets pollInterval ;;
           timeout <- gets pollTimeout ;;
           Batch.poll interval timeout
      else ret tt
  | HResolve p => settle p (Fulfilled arg)
  | HReject p => settle p (Rejected (errorOf arg))
  | HForwardToBatch => ret tt
  end.

Section Emit.
Variable off : Listener.t -> M unit.
Variable handle : Handler -> Val -> M unit.

Fixpoint callListeners (ls : list Listener.t) (arg : Val) : M unit :=
  match ls with
  | [] => ret tt
  | l :: rest =>
      (if Listener.once l then off l else ret tt) ;;
      handle (Listener.handler l) arg ;;
      callListeners rest arg
  end.

Definition dispatch (registered : World -> list Listener.t)
    (event : string) (arg : Val) : M unit :=
  ls <- gets (fun w => listenersOf event (registered w)) ;;
  match ls with
  | [] => if String.eqb event "error" then throw (errorOf arg) else ret tt
  | _ => callListeners ls arg
  end.

(** [emit(event, arg)]; the trace notes the event before its listeners
    run. *)
Definition emitOn (src : Emitter) (registered : World -> list Listener.t)
    (event : string) (arg : Val) : M unit :=
  log (EEmit src event arg) ;;
  dispatch registered event arg.
End Emit.

(** [batch.emit(event, arg)] *)
Definition emitBatch : string -> Val -> M unit :=
  emitOn (fun l => modify (upd_batchListeners (removeListener l)))
         batchHandler OnBatch batchListeners.

Definition jobHandler (h : Handler) (arg : Val) : M unit :=
  match h with
  | HForwardToBatch =>
      live <- gets loadBatch ;;
      if live then emitBatch "error" arg else ret tt
  | _ => ret tt
  end.

(** [job.emit(event, arg)] *)
Definition emitJob : string -> Val -> M unit :=
  emitOn (fun l => modify (upd_jobListeners (removeListener l)))
         jobHandler OnJob jobListeners.

(** [recordStream.emit('error', err)] in [Bulk.query]; the listeners are the
    caller's. *)
Definition emitRecordStream (err : Error.t) : M unit :=
  log (EEmit OnRecordStream "error" (VError err)).

(** ** The rest of the [async] functions *)

(** [catch (err) { emit('error', err); throw err; }] of an [async] function
    whose promise is [p]. *)
Definition catchEmit (emit : string -> Val -> M unit) (p : nat)
    (err : Error.t) : M unit :=
  c <- try (emit "error" (VError err)) ;;
  settle p (Rejected (match c with Throw e => e | Normal _ => err end)).

Definition setJob (f : JobFields.t -> JobFields.t) : M unit :=
  modify (upd_job f).

(** Calling a callback of [then] with the value or the reason. *)
Definition callback (f : Callback) (arg : Val) : M unit :=
  match f with
  | CResolve p => settle p (Fulfilled arg)
  | CReject p => settle p (Rejected (errorOf arg))
  end.

Definition undefinedField (field : string) : Error.t :=
  TypeError ("Cannot read properties of undefined (reading '" +:+ field +:+ "')").

Fixpoint openResults (results : list QueryEntry.t) : M unit :=
  match results with
  | [] => ret tt
  | r :: rest =>
      Batch.resultOf (Some (QueryEntry.jobId r)) (Some (QueryEntry.batchId r))
        (QueryEntry.id r) ;;
      openResults rest
  end.

Definition resume (k : Kont) (s : Settled) : M unit :=
  match k, s with
  (* Job.open *)
  | KOpen p, Fulfilled (VJobInfo jobInfo) =>
      c <- try (emitJob "open" (VJobInfo jobInfo) ;;
                setJob (JobFields.set_id (Some (JobInfo.id jobInfo))) ;;
                setJob (JobFields.set_state (JobInfo.state jobInfo))) ;;
      match c with
      | Normal _ => settle p (Fulfilled (VJobInfo jobInfo))
      | Throw err => catchEmit emitJob p err
      end
  | KOpen p, Fulfilled _ =>
      c <- try (emitJob "open" VUndefined) ;;
      catchEmit emitJob p
        (match c with Throw err => err | Normal _ => undefinedField "id" end)
  | KOpen p, Rejected err => catchEmit emitJob p err
  (* Job._waitIdAssignment *)
  | KThenId p, Fulfilled (VJobInfo jobInfo) =>
      settle p (Fulfilled (VString (JobInfo.id jobInfo)))
  | KThenId p, Fulfilled _ => settle p (Rejected (undefinedField "id"))
  | KThenId p, Rejected err => settle p (Rejected err)
  (* Job.check *)
  | KCheckId p, Fulfilled (VString jobId) =>
      request
        (BulkRequest.make "GET" ("/job/" +:+ jobId) None []
           (Some "application/xml"))
        (KCheck p)
  | KCheckId p, Fulfilled _ => settle p (Rejected (undefinedField "id"))
  | KCheckId p, Rejected err => settle p (Rejected err)
  | KCheck p, Fulfilled (VJobInfo jobInfo) =>
      setJob (JobFields.set_id (Some (JobInfo.id jobInfo))) ;;
      setJob (JobFields.set_type (Some (JobInfo.object jobInfo))) ;;
      setJob (JobFields.set_operation (Some (JobInfo.operation jobInfo))) ;;
      setJob (JobFields.set_state (JobInfo.state jobInfo)) ;;
      settle p (Fulfilled (VJobInfo jobInfo))
  | KCheck p, Fulfilled _ => settle p (Rejected (undefinedField "id"))
  | KCheck p, Rejected err => settle p (Rejected err)
  (* Job._changeState *)
  | KChangeStateId state p, Fulfilled (VString jobId) =>
      request (Job.changeStateRequest jobId state) (KChangeState p)
  | KChangeStateId _ p, Fulfilled _ => settle p (Rejected (undefinedField "id"))
  | KChangeStateId _ p, Rejected err => settle p (Rejected err)
  | KChangeState p, Fulfilled (VJobInfo jobInfo) =>
      setJob (JobFields.set_state (JobInfo.state jobInfo)) ;;
      settle p (Fulfilled (VJobInfo jobInfo))
  | KChangeState p, Fulfilled _ => settle p (Rejected (undefinedField "state"))
  | KChangeState p, Rejected err => settle p (Rejected err)
  (* Job.close *)
  | KClose p, Fulfilled jobInfo =>
      c <- try (setJob (JobFields.set_id None) ;; emitJob "close" jobInfo) ;;
      match c with
      | Normal _ => settle p (Fulfilled jobInfo)
      | Throw err => catchEmit emitJob p err
      end
  | KClose p, Rejected err => catchEmit emitJob p err
  (* Job.abort *)
  | KAbort p, Fulfilled jobInfo =>
      c <- try (setJob (JobFields.set_id None) ;; emitJob "abort" jobInfo) ;;
      match c with
      | Normal _ => settle p (Fulfilled jobInfo)
      | Throw err => catchEmit emitJob p err
      end
  | KAbort p, Rejected err => catchEmit emitJob p err
  (* Batch constructor, 'readable' *)
  | KReadable, Fulfilled _ => Batch._createRequestStream
  | KReadable, Rejected err => log (EUncaught err)
  (* Batch._createRequestStream *)
  | KQueue, Fulfilled (VBatchInfo batchInfo) =>
      c <- try (modify (upd_batch
                  (BatchFields.set_id (Some (BatchInfo.id batchInfo)))) ;;
                emitBatch "queue" (VBatchInfo batchInfo)) ;;
      match c with
      | Normal _ => ret tt
      | Throw err => emitBatch "error" (VError err)
      end
  | KQueue, Fulfilled _ => emitBatch "error" (VError (undefinedField "id"))
  | KQueue, Rejected err => emitBatch "error" (VError err)
  (* Batch.check *)
  | KBatchCheck p, Fulfilled (VBatchInfo batchInfo) =>
      settle p (Fulfilled (VBatchInfo batchInfo))
  | KBatchCheck p, Fulfilled _ => settle p (Fulfilled VUndefined)
  | KBatchCheck p, Rejected err => settle p (Rejected err)
  (* Batch.poll, after [res = await this.check()] *)
  | KPoll l, Rejected err => emitBatch "error" (VError err)
  | KPoll l, Fulfilled (VBatchInfo res) =>
      match BatchInfo.state res with
      | BatchState.Failed =>
          if JS.gt0 (JS.parseInt (BatchInfo.numberRecordsProcessed res))
          then _ <- Batch.retrieve ;; ret tt
          else emitBatch "error"
                 (VError (new_Error (BatchInfo.stateMessage res)))
      | BatchState.Completed => _ <- Batch.retrieve ;; ret tt
      | _ =>
          emitBatch "progress" (VBatchInfo res) ;;
          setTimeout l
      end
  | KPoll l, Fulfilled _ => throw (undefinedField "state")
  (* Batch.retrieve *)
  | KRetrieve p jobId batchId, Fulfilled resp =>
      operation <- gets (fun w => JobFields.operation (job w)) ;;
      c <- try (match Batch.decode operation resp jobId batchId with
                | Normal results =>
                    emitBatch "response" (VResult results) ;;
                    ret results
                | Throw err => throw err
                end) ;;
      match c with
      | Normal results => settle p (Fulfilled (VResult results))
      | Throw err => catchEmit emitBatch p err
      end
  | KRetrieve p _ _, Rejected err => catchEmit emitBatch p err
  (* Batch.then: the callback for the outcome runs and what it returns,
     [undefined], fulfils [q]; without a callback [q] settles as the
     promise did *)
  | KThen q (Some onResolved) _, Fulfilled v =>
      callback onResolved v ;;
      settle q (Fulfilled VUndefined)
  | KThen q None _, Fulfilled v => settle q (Fulfilled v)
  | KThen q _ (Some onReject), Rejected err =>
      callback onReject (VError err) ;;
      settle q (Fulfilled VUndefined)
  | KThen q _ None, Rejected err => settle q (Rejected err)
  (* Bulk.query *)
  | KQuery, Fulfilled (VResult (QueryResult results)) =>
      c <- try (openResults results) ;;
      match c with
      | Normal _ => ret tt
      | Throw err => emitRecordStream err
      end
  | KQuery, Fulfilled (VResult (LoadResult [])) => ret tt
  | KQuery, Fulfilled (VResult (LoadResult (_ :: _))) =>
      emitRecordStream Batch.notStarted
  | KQuery, Fulfilled _ => emitRecordStream (TypeError "results.map is not a function")
  | KQuery, Rejected err => emitRecordStream err
  | KPipe, _ => ret tt
  end.

(** The error of a loop that has run out of time. *)
Definition timeoutError (l : PollLoop.t) : Error.t :=
  PollingTimeoutError
    ("Polling time out. Job Id = " +:+ PollLoop.jobId l
     +:+ " , batch Id = " +:+ PollLoop.batchId l)
    (PollLoop.jobId l) (PollLoop.batchId l).

(** One tick of the loop [l]: the function [poll] inside [Batch.poll], up to
    [await this.check()]; [KPoll l] is the rest. *)
Definition pollTick (l : PollLoop.t) : M unit :=
  now <- getTime ;;
  if PollLoop.startTime l + PollLoop.timeout l <? now
  then emitBatch "error" (VError (timeoutError l))
  else
    p <- Batch.check ;;
    await p (KPoll l).

(** The [once('readable')] handler of the [Batch] constructor, up to
    [await this.job.open()]. *)
Definition onReadable : M unit :=
  modify (upd_batch (BatchFields.set_armed false)) ;;
  c <- try Job.open ;;
  match c with
  | Normal q => await q KReadable
  | Throw err => log (EUncaught err)
  end.

(** ** class BulkApi *)

(** What the code reads of a [Connection]. *)
Module Connection.
Record t := make {
  instanceUrl : string;
  version : string;
  accessToken : option string   (* [null] or [undefined] without a session *)
}.
End Connection.

(** [HttpRequest]; [headers] left out is the empty object. *)
Module HttpRequest.
Record t := make {
  method : string;
  url : string;
  body : option string;
  headers : gmap string string
}.
End HttpRequest.

Module HttpResponse.
Record t := make { statusCode : Z; body : string }.
End HttpResponse.

Module BulkApi.

Definition sessionHeader : string := "X-SFDC-SESSION".

(** [beforeSend(request)]: the request as the method leaves it. *)
Definition beforeSend (conn : Connection.t) (request : HttpRequest.t)
    : HttpRequest.t :=
  HttpRequest.make (HttpRequest.method request) (HttpRequest.url request)
    (HttpRequest.body request)
    (<[sessionHeader := default "" (Connection.accessToken conn)]>
       (HttpRequest.headers request)).

Definition invalidSession : string :=
  "<exceptionCode>InvalidSessionId</exceptionCode>".

(** [isSessionExpired(response)] *)
Definition isSessionExpired (response : HttpResponse.t) : bool :=
  (HttpResponse.statusCode response =? 400)
  && JS.includes invalidSession (HttpResponse.body response).

End BulkApi.

(** ** class Bulk *)

Inductive OptionsOrInput :=
| Options (options : option BulkOptions.t)
| NotOptions (input : Input).

Module Bulk.

(** [createJob(type, operation, options)]: the world's job becomes the
    new one. *)
Definition createJob (type operation : string)
    (options : option BulkOptions.t) : M unit :=
  modify (upd_job (fun _ =>
    Job.constructor (Some type) (Some operation) options None)) ;;
  modify (upd_jobListeners (fun _ => [])).

(** [load(type, operation, optionsOrInput, input)] *)
Definition load (type operation : string) (optionsOrInput : OptionsOrInput)
    (input : Input) : M unit :=
  let '(options, input) :=
    match optionsOrInput with
    | NotOptions i => (Some BulkOptions.empty, i)
    | Options o => (o, input)
    end in
  createJob type operation options ;;
  onceJob "error" HForwardToBatch ;;
  Job.createBatch ;;
  modify (upd_loadBatch true) ;;
  Batch.on "response" HCleanup ;;
  Batch.on "error" HCleanupOnError ;;
  Batch.on "queue" HPollOnQueue ;;
  Batch.execute input.

Definition noType : Error.t :=
  new_Error "No sobject type found in query, maybe caused by invalid SOQL.".

(** [query(soql)]: up to [await this.load(...)]; it returns the record
    stream, or throws.  What [load] returns is the batch, a thenable: the
    [await] makes a promise [a] of its own, calls [then] of the batch with
    the resolving functions of [a], and the rest of the block, [KQuery],
    waits for [a]. *)
Definition query (soql : string) : M unit :=
  match JS.match_from (JS.strip_parens soql) with
  | None => throw noType
  | Some type =>
      c <- try (load type "query" (NotOptions (InString soql)) InNone ;;
                a <- newPromise ;;
                _ <- Batch.then_ (Some (CResolve a)) (Some (CReject a)) ;;
                ret a) ;;
      match c with
      | Normal a => await a KQuery
      | Throw err => emitRecordStream err
      end
  end.

(** [new Bulk(conn)]: [pollInterval] 1000, [pollTimeout] 10000, and no job
    or batch yet (their places hold blanks). *)
Definition constructor : World :=
  mkWorld 0 1000 10000
    (Job.constructor None None None None)
    (BatchFields.make None [] false false false None)
    false [] [] [] [] ∅ 0%nat [] [].

(** [[conn.instanceUrl, 'services/async', conn.version].join('/')] *)
Definition baseUrl (conn : Connection.t) : string :=
  Connection.instanceUrl conn +:+ "/" +:+ "services/async" +:+ "/"
  +:+ Connection.version conn.

(** [_request(request_)]: the response type the [BulkApi] is made with, and
    the request handed to it. *)
Definition _request (conn : Connection.t) (request_ : BulkRequest.t)
    : option string * HttpRequest.t :=
  (BulkRequest.responseType request_,
   HttpRequest.make (BulkRequest.method request_)
     (baseUrl conn +:+ BulkRequest.path request_)
     (BulkRequest.body request_)
     (list_to_map (BulkRequest.headers request_))).

(** [job(jobId)]: the world's job becomes the new one. *)
Definition job (jobId : string) : M unit :=
  modify (upd_job (fun _ => Job.constructor None None None (Some jobId))) ;;
  modify (upd_jobListeners (fun _ => [])).
End Bulk.

(** ** class SObject: the layouts *)
Module SObject.

(** [layoutCacheKey(layoutName)] of the constructor *)
Definition layoutCacheKey (type : string) (layoutName : option string)
    : string :=
  if JS.truthy layoutName
  then "layouts.namedLayouts." +:+ JS.show layoutName
  else "layouts." +:+ type.

(** The [url] that [layouts(layoutName)] requests. *)
Definition layoutsUrl (type : string) (layoutName : option string) : string :=
  "/sobjects/" +:+ type +:+ "/describe/"
  +:+ (if JS.truthy layoutName
       then "namedLayouts/" +:+ JS.show layoutName
       else "layouts").

End SObject.

(** ** What happens next

    The program runs when the remote answers a request, when a queued
    promise reaction gets its turn, when a timer fires (at any time [now]:
    a timer may be late), or when the upload stream has data; a throw that
    reaches the event loop is noted. *)
Inductive Label :=
| Respond (r : nat) (s : Settled)
| Microtask
| Timer (i : nat) (now : Z)
| Readable.

Definition toplevel (m : M unit) : M unit :=
  c <- try m ;;
  match c with
  | Normal _ => ret tt
  | Throw err => log (EUncaught err)
  end.

Definition respond (r : nat) (s : Settled) : M unit :=
  k <- gets (fun w => awaiting w !! r) ;;
  match k with
  | Some k =>
      modify (upd_awaiting (delete r)) ;;
      resume k s
  | None => ret tt
  end.

Definition microtask : M unit :=
  q <- gets microtasks ;;
  match q with
  | (k, s) :: rest =>
      modify (upd_microtasks (fun _ => rest)) ;;
      resume k s
  | [] => ret tt
  end.

Definition timer (i : nat) (now : Z) : M unit :=
  l <- gets (fun w => timers w !! i) ;;
  match l with
  | Some l =>
      modify (upd_clock now) ;;
      modify (upd_timers (delete i)) ;;
      pollTick l
  | None => ret tt
  end.

Definition readable : M unit :=
  on <- gets (fun w => BatchFields.armed (batch w)) ;;
  if on then onReadable else ret tt.

Definition step (l : Label) (w : World) : World :=
  exec (toplevel
    match l with
    | Respond r s => respond r s
    | Microtask => microtask
    | Timer i now => timer i now
    | Readable => readable
    end) w.

Definition run (ls : list Label) (w : World) : World :=
  fold_left (fun w l => step l w) ls w.

(** ** Notions the properties are stated with *)

(** [m] leaves every world related by [R] to the one it started from. *)
Definition respects {A} (R : World -> World -> Prop) (m : M A) : Prop :=
  forall w, R w (exec m w).

(** The effects of the code that runs inside [emit]: everything but
    entering [Batch.retrieve] or [Job.abort]. *)
Definition quiet (e : Effect) : Prop :=
  match e with
  | ECall BatchRetrieve | ECall JobAbort => False
  | _ => True
  end.

(** A relation kept by what the listeners and the synchronous part of the
    job's methods do to the world, as long as the effects are in [Q]. *)
Class SyncFrame (Q : Effect -> Prop) (R : World -> World -> Prop) : Prop := {
  fr_refl : forall w, R w w;
  fr_trans : forall a b c, R a b -> R b c -> R a c;
  fr_log : forall e w, Q e -> R w (upd_trace (cons e) w);
  fr_promises : forall f w, R w (upd_promises f w);
  fr_microtasks : forall f w, R w (upd_microtasks f w);
  fr_awaiting : forall n k w, R w (upd_awaiting (fun a => <[n := k]> a) w);
  fr_nextRequest : forall w, R w (upd_nextRequest S w);
  fr_timers : forall l w, R w (upd_timers (fun ts => ts ++ [l]) w);
  fr_jobInfo : forall p w, R w (upd_job (JobFields.set_jobInfo (Some p)) w);
  fr_batches : forall f w,
    R w (upd_job (fun j => JobFields.set_batches (f j) j) w);
  fr_loadBatch : forall w, R w (upd_loadBatch false w);
  fr_offBatch : forall l w, Listener.once l = true ->
    R w (upd_batchListeners (removeListener l) w);
  fr_offJob : forall l w, Listener.once l = true ->
    R w (upd_jobListeners (removeListener l) w)
}.

Definition anyEffect (e : Effect) : Prop := True.

(** A relation kept by everything that runs in a [step], up to clearing the
    job's identity. *)
Class Frame (R : World -> World -> Prop) : Prop := {
  fr_sync :: SyncFrame anyEffect R;
  fr_setId : forall x w, R w (upd_job (JobFields.set_id (Some x)) w);
  fr_setState : forall x w, R w (upd_job (JobFields.set_state x) w);
  fr_setType : forall x w, R w (upd_job (JobFields.set_type x) w);
  fr_setOperation : forall x w, R w (upd_job (JobFields.set_operation x) w);
  fr_batch : forall f w, R w (upd_batch f w);
  fr_answered : forall r w, R w (upd_awaiting (delete r) w);
  fr_timersAny : forall f w, R w (upd_timers f w);
  fr_clock : forall v w, R w (upd_clock v w)
}.

(** [R] is also kept when the job's identity is cleared. *)
Definition Clears (R : World -> World -> Prop) : Prop :=
  forall w, R w (upd_job (JobFields.set_id None) w).

(** The continuations that clear the job's identity: [close] and [abort]
    after their state-change request has succeeded. *)
Definition closes (k : Kont) (s : Settled) : Prop :=
  match k, s with
  | (KClose _ | KAbort _), Fulfilled _ => True
  | _, _ => False
  end.

(** The job's identity is what it was, or it is set. *)
Definition identityKeptOrSet (w w' : World) : Prop :=
  JobFields.id (job w') = JobFields.id (job w)
  \/ is_Some (JobFields.id (job w')).

(** The job's identity and lifecycle state are the same in both worlds. *)
Definition sameIdentity (w w' : World) : Prop :=
  JobFields.id (job w') = JobFields.id (job w)
  /\ JobFields.state (job w') = JobFields.state (job w).

(** [w'] has the trace of [w] and, before it, new effects that all satisfy
    [P]. *)
Definition grows (P : Effect -> Prop) (w w' : World) : Prop :=
  exists new, trace w' = new ++ trace w /\ Forall P new.

(** Nothing outside the promises and the listener tables has changed. *)
Definition silent (w w' : World) : Prop :=
  trace w' = trace w /\ timers w' = timers w /\ awaiting w' = awaiting w
  /\ job w' = job w /\ batch w' = batch w /\ loadBatch w' = loadBatch w.

(** The listeners [Job.createBatch] and [Bulk.load] put on a batch. *)
Definition loadListeners : list Listener.t :=
  [ Listener.make "queue" HRegisterBatch false;
    Listener.make "response" HCleanup false;
    Listener.make "error" HCleanupOnError false;
    Listener.make "queue" HPollOnQueue false ].

(** The two [once] listeners of [Batch.execute]. *)
Definition resultListener (l : Listener.t) : Prop :=
  Listener.once l = true
  /\ ((Listener.event l = "response" /\ exists p, Listener.handler l = HResolve p)
      \/ (Listener.event l = "error" /\ exists p, Listener.handler l = HReject p)).

(** The batch of [w] carries the listeners of [Bulk.load], and besides them
    only what is left of the listeners of [Batch.execute]. *)
Definition LoadWired (w : World) : Prop :=
  exists onces,
    batchListeners w = loadListeners ++ onces /\ Forall resultListener onces.

(** The job's listeners are on 'error' only, as the source puts them. *)
Definition ErrorListenersOnly (w : World) : Prop :=
  Forall (fun l => Listener.event l = "error") (jobListeners w).

(** Being wired by [load] is not lost. *)
Definition staysWired (w w' : World) : Prop := LoadWired w -> LoadWired w'.

(** A promise in [_jobInfo] is never taken out again. *)
Definition staysCached (w w' : World) : Prop :=
  is_Some (JobFields._jobInfo (job w)) -> is_Some (JobFields._jobInfo (job w')).

(** Having listeners on 'error' only is not lost. *)
Definition staysErrorOnly (w w' : World) : Prop :=
  ErrorListenersOnly w -> ErrorListenersOnly w'.

(** The claim's words, "a FROM <entity> clause can be found in the SOQL
    text": what [/FROM\s+(\w+)/i] finds in the text as it is. *)
Definition fromClause (soql : string) : option string := JS.match_from soql.

(** [m] never throws. *)
Definition total {A} (m : M A) : Prop :=
  forall w, exists a w', m w = (Normal a, w').

(** [batch.removeListener(l)], what a [once] listener does before it runs *)
Abbreviation offBatch :=
  (fun l : Listener.t => modify (upd_batchListeners (removeListener l))).

(** The two errors the source throws at a wrong call. *)
Definition openError : Error.t :=
  new_Error "type / operation is required to open a new job".

Definition executedError : Error.t := new_Error "Batch already executed.".

(** The world after the [open()] that issues the request. *)
Definition opened (w : World) : World :=
  upd_job (JobFields.set_jobInfo (Some (List.length (promises w))))
    (upd_nextRequest S
       (upd_awaiting
          (fun a => <[nextRequest w := KOpen (List.length (promises w))]> a)
          (upd_trace
             (cons (ERequest (nextRequest w) (Job.openRequest (job w))))
             (upd_promises (fun ps => ps ++ [Cell.pending]) w)))).

(** What [row.Id || null] and [row.Error ? [row.Error] : []] come to. *)
Definition entryId (row : Row.t) : option string :=
  match Row.Id row with
  | Some "" | None => None
  | Some id => Some id
  end.

Definition entryErrors (row : Row.t) : list string :=
  match Row.Error row with
  | Some "" | None => []
  | Some message => [message]
  end.

(** *** How promises stand *)

(** The promise [p] in [w]: [None] when there is no such promise,
    [Some None] while it is pending. *)
Definition settledAt (p : nat) (w : World) : option (option Settled) :=
  Cell.settled <$> promises w !! p.

(** The promises below [n] stand in [w'] as they stood in [w]. *)
Definition spares (n : nat) (w w' : World) : Prop :=
  (n <= length (promises w'))%nat
  /\ forall i, (i < n)%nat -> settledAt i w' = settledAt i w.

(** [m] settles none of the first [n] promises, and what it returns
    satisfies [Post]. *)
Definition sparing {A} (n : nat) (Post : A -> Prop) (m : M A) : Prop :=
  forall w, (n <= length (promises w))%nat ->
    spares n w (exec m w)
    /\ match eval m w with Normal a => Post a | Throw _ => True end.

Definition anyValue {A} (a : A) : Prop := True.

(** The two listeners [Batch.execute] puts on the batch for its promise. *)
Definition onResponse (p : nat) : Listener.t :=
  Listener.make "response" (HResolve p) true.

Definition onError (p : nat) : Listener.t :=
  Listener.make "error" (HReject p) true.

(** The batch of [load] has been executed and its promise [p] is pending:
    the listeners of [load] and both listeners of [execute] are on. *)
Definition Awaited (p : nat) (w : World) : Prop :=
  exists onces,
    batchListeners w = loadListeners ++ onces
    /\ Forall resultListener onces
    /\ In (onResponse p) onces
    /\ In (onError p) onces
    /\ settledAt p w = Some None.

(** *** Worlds and requests the properties name *)

(** The chunks [execute] writes for its input. *)
Definition chunksOf (operation : option string) (input : Input) : list Chunk :=
  match input with
  | InRecords records =>
      map (fun r => CRecord (Batch.shape operation (Batch.coerce <$> r))) records
  | InString data => [CText data]
  | InReadable | InNone => []
  end.

(** The world after [execute(input)] on a batch not executed before. *)
Definition executed (input : Input) (w : World) : World :=
  upd_batch (fun b =>
    BatchFields.make (BatchFields.id b)
      (BatchFields._uploadStream b ++ chunksOf (JobFields.operation (job w)) input)
      (match input with
       | InRecords _ | InString _ => true
       | _ => BatchFields.ended b
       end)
      (BatchFields.armed b)
      (match input with InReadable => true | _ => BatchFields.piped b end)
      (Some (length (promises w))))
    (upd_batchListeners
       (fun ls => ls ++ [onResponse (length (promises w));
                         onError (length (promises w))])
       (upd_promises (fun ps => ps ++ [Cell.pending]) w)).

(** [load]'s reading of its arguments. *)
Definition optionsOf (optionsOrInput : OptionsOrInput) : option BulkOptions.t :=
  match optionsOrInput with
  | NotOptions _ => Some BulkOptions.empty
  | Options options => options
  end.

Definition inputOf (optionsOrInput : OptionsOrInput) (input : Input) : Input :=
  match optionsOrInput with
  | NotOptions input' => input'
  | Options _ => input
  end.

(** The world [load] hands to [execute]: a new job, a new batch, and the
    listeners of [createBatch] and [load]. *)
Definition wired (type operation : string) (options : option BulkOptions.t)
    (w : World) : World :=
  upd_batchListeners (fun _ => loadListeners)
    (upd_loadBatch true
       (upd_batch (fun _ => BatchFields.create None)
          (upd_jobListeners (fun _ => [Listener.make "error" HForwardToBatch true])
             (upd_job (fun _ =>
                Job.constructor (Some type) (Some operation) options None) w)))).

(** The batch of [load] is live: awaited through [p], still in [load]'s
    variable, and the job forwards its first 'error' to it. *)
Definition Loading (p : nat) (w : World) : Prop :=
  Awaited p w
  /\ loadBatch w = true
  /\ jobListeners w = [Listener.make "error" HForwardToBatch true].

(** The request of [Batch.check]. *)
Definition checkRequest (jobId batchId : string) : BulkRequest.t :=
  BulkRequest.make "GET" ("/job/" +:+ jobId +:+ "/batch/" +:+ batchId)
    None [] (Some "application/xml").

(** The world after the two listeners of 'queue' have run. *)
Definition queued (batchInfo : BatchInfo.t) (jobId : string) (w : World)
    : World :=
  upd_timers
    (fun ts => ts ++ [PollLoop.make (clock w) (pollTimeout w) (pollInterval w)
                        jobId (BatchInfo.id batchInfo)])
    (upd_job (fun j => JobFields.set_batches
                ({[ BatchInfo.id batchInfo ]} ∪ JobFields._batches j) j)
       (upd_trace (cons (EEmit OnBatch "queue" (VBatchInfo batchInfo)))
          (upd_batch (BatchFields.set_id (Some (BatchInfo.id batchInfo))) w))).

(** [Promise.resolve(v)]: a new promise, fulfilled. *)
Definition withResolved (v : Val) (w : World) : World :=
  upd_promises (fun ps => ps ++ [Cell.make (Some (Fulfilled v)) []]) w.

(** The world after the synchronous part of an [async] block that starts
    with [await this._waitIdAssignment()], on a job that has its id: the
    block's promise [length (promises w)], the resolved promise of the id,
    and the rest of the block queued. *)
Definition waitingId (k : nat -> Kont) (jobId : string) (w : World) : World :=
  upd_job (JobFields.set_jobInfo (Some (length (promises w))))
    (upd_microtasks
       (fun m => m ++ [(k (length (promises w)), Fulfilled (VString jobId))])
       (withResolved (VString jobId)
          (upd_promises (fun ps => ps ++ [Cell.pending]) w))).

(** The request of [Job.check]. *)
Definition jobRequest (jobId : string) : BulkRequest.t :=
  BulkRequest.make "GET" ("/job/" +:+ jobId) None [] (Some "application/xml").

(** The world after [request r k]. *)
Definition requested (r : BulkRequest.t) (k : Kont) (w : World) : World :=
  upd_nextRequest S
    (upd_awaiting (fun a => <[nextRequest w := k]> a)
       (upd_trace (cons (ERequest (nextRequest w) r)) w)).

(** The world after an [async] block that fails at
    [await this._waitIdAssignment()]. *)
Definition failedId (w : World) : World :=
  upd_job (JobFields.set_jobInfo (Some (length (promises w))))
    (upd_promises
       (fun ps => ps ++ [Cell.make (Some (Rejected openError)) []]) w).

(** White space only. *)
Fixpoint blank (s : string) : bool :=
  match s with
  | EmptyString => true
  | String c r => JS.isSpace c && blank r
  end.

(** The first character is not white space. *)
Definition solidStart (s : string) : bool :=
  match s with
  | EmptyString => false
  | String c _ => negb (JS.isSpace c)
  end.

(** The [jobInfo] document for an operation, an object and options. *)
Definition jobInfoXml (operation object : string) (options : BulkOptions.t)
    : string :=
  xml_header +:+ nl
  +:+ "<jobInfo  " +:+ xmlns +:+ ">" +:+ nl
  +:+ "  <operation>" +:+ operation +:+ "</operation>" +:+ nl
  +:+ "  <object>" +:+ object +:+ "</object>" +:+ nl
  +:+ "  " +:+ Job.element "externalIdFieldName"
                 (BulkOptions.extIdField options) +:+ nl
  +:+ "  " +:+ Job.element "concurrencyMode"
                 (BulkOptions.concurrencyMode options) +:+ nl
  +:+ "  " +:+ Job.element "assignmentRuleId"
                 (BulkOptions.assignmentRuleId options) +:+ nl
  +:+ "  <contentType>CSV</contentType>" +:+ nl
  +:+ "</jobInfo>".

(** The values of [BulkOperation]. *)
Definition BulkOperation : list string :=
  ["insert"; "update"; "upsert"; "delete"; "hardDelete"; "query"; "queryAll"].

(** The operation as [open] writes it. *)
Definition sentOperation (operation : string) : string :=
  let operation := JS.toLowerCase operation in
  let operation :=
    if String.eqb operation "harddelete" then "hardDelete" else operation in
  if String.eqb operation "queryall" then "queryAll" else operation.

(** The request of [_createRequestStream]; its body is the upload stream. *)
Definition batchRequest (jobId : option string) : BulkRequest.t :=
  BulkRequest.make "POST" ("/job/" +:+ JS.show jobId +:+ "/batch") None
    [("Content-Type", "text/csv")] (Some "application/xml").

(** The request of [Batch.retrieve]. *)
Definition resultRequest (jobId batchId : string) : BulkRequest.t :=
  BulkRequest.make "GET"
    ("/job/" +:+ jobId +:+ "/batch/" +:+ batchId +:+ "/result") None [] None.

(** The world after the synchronous part of [close()] or [abort()]. *)
Definition changing (k : nat -> Kont) (m : Method) (state : JobState.t)
    (jobId : string) (w : World) : World :=
  upd_promises
    (fun ps => <[S (length (promises w)) := Cell.make None [k (length (promises w))]]> ps)
    (waitingId (KChangeStateId state) jobId
       (upd_promises (fun ps => ps ++ [Cell.pending])
          (upd_trace (cons (ECall m)) w))).

(** The world after 'response' or 'error' on the batch of [load]: the
    listener of [load] has called [close()], and the listener [l] of
    [execute] has been taken off and has settled the promise [p]. *)
Definition closing (event : string) (arg : Val) (l : Listener.t) (p : nat)
    (s : Settled) (jobId : string) (w : World) : World :=
  upd_promises (fun ps => <[p := Cell.make (Some s) []]> ps)
    (upd_batchListeners (removeListener l)
       (changing KClose JobClose JobState.Closed jobId
          (upd_loadBatch false
             (upd_trace (cons (EEmit OnBatch event arg)) w)))).

(** The batch of [load] waits for its results: both listeners of
    [execute] are on, its promise [p] and the promise [q] of [retrieve] are
    pending with nobody waiting for them, the job has its id, and no
    reaction is queued. *)
Definition Retrieving (p q : nat) (jobId : string) (w : World) : Prop :=
  batchListeners w = loadListeners ++ [onResponse p; onError p]
  /\ promises w !! p = Some Cell.pending
  /\ promises w !! q = Some Cell.pending
  /\ p <> q
  /\ JobFields.id (job w) = Some jobId /\ jobId <> ""
  /\ microtasks w = []
  /\ ErrorListenersOnly w.

(** The job is closed from [w1] on: in the next turn the state change to
    [Closed] is requested, as request [r]; when the remote answers with
    [closed], the job takes the state of the answer and keeps its id; and
    when [close] is resumed, the id is [null] and the job emits 'close'
    with the answer. *)
Definition Closes (r : nat) (jobId : string) (closed : JobInfo.t)
    (w1 : World) : Prop :=
  let w2 := step Microtask w1 in
  let w3 := step (Respond r (Fulfilled (VJobInfo closed))) w2 in
  let w4 := step Microtask w3 in
  trace w2 = ERequest r (Job.changeStateRequest jobId JobState.Closed)
               :: trace w1
  /\ (JobFields.id (job w3) = Some jobId
      /\ JobFields.state (job w3) = JobInfo.state closed
      /\ trace w3 = trace w2)
  /\ (JobFields.id (job w4) = None
      /\ JobFields.state (job w4) = JobInfo.state closed
      /\ trace w4 = EEmit OnJob "close" (VJobInfo closed) :: trace w2).

(* ===================================================================== *)
(** * Properties *)

(** ** The monad *)

Lemma exec_bind {A B} (m : M A) (k : A -> M B) w a w' :
  m w = (Normal a, w') -> bind m k w = k a w'.
Proof. intros H. unfold bind. rewrite H. reflexivity. Qed.

Lemma bind_throw {A B} (m : M A) (k : A -> M B) w e w' :
  m w = (Throw e, w') -> bind m k w = (Throw e, w').
Proof. intros H. unfold bind. rewrite H. reflexivity. Qed.

Lemma bind_try {A B} (m : M A) (k : Completion A -> M B) w c w' :
  m w = (c, w') -> bind (try m) k w = k c w'.
Proof. intros H. unfold bind, try. rewrite H. reflexivity. Qed.

Lemma bind_modify {B} f (k : unit -> M B) w :
  bind (modify f) k w = k tt (f w).
Proof. reflexivity. Qed.

(** ** JavaScript strings *)

Example parseInt_examples :
  JS.parseInt "12" = Some 12 /\ JS.parseInt "  -7x" = Some (-7) /\
  JS.parseInt "0" = Some 0 /\ JS.parseInt "" = None /\ JS.parseInt "abc" = None.
Proof. repeat split; reflexivity. Qed.

Example match_from_examples :
  JS.match_from (JS.strip_parens "SELECT Id, (SELECT Id FROM Contacts) from  Account")
    = Some "Account"
  /\ JS.match_from (JS.strip_parens "SELECT Id FROMAGE x") = None
  /\ JS.strip_parens "a()b" = "a()b"
  /\ JS.strip_parens "a(x)b(y)c" = "ac".
Proof. repeat split; reflexivity. Qed.

(** Behind the last [")"] there is no [")"]. *)
Lemma after_last_close_none s t :
  JS.after_last_close s = Some t -> JS.after_last_close t = None.
Proof.
  revert t. induction s as [|c r IH]; simpl; intros t H; [discriminate|].
  destruct (JS.after_last_close r) as [t'|] eqn:E.
  - injection H as <-. apply IH. reflexivity.
  - destruct (Ascii.eqb c ")"); [|discriminate].
    injection H as <-. exact E.
Qed.

(** A text without [")"] is left as it is, so the replacement in
    [strip_parens] may stop after its first match. *)
Lemma strip_parens_no_close s :
  JS.after_last_close s = None -> JS.strip_parens s = s.
Proof.
  induction s as [|c r IH]; simpl; intros H; [reflexivity|].
  destruct (JS.after_last_close r) as [t|] eqn:E; [discriminate|].
  destruct (Ascii.eqb c "(") eqn:Ec.
  - destruct r as [|d r']; [reflexivity|].
    simpl in E. destruct (JS.after_last_close r') eqn:E'; [discriminate|].
    rewrite IH by reflexivity. reflexivity.
  - rewrite IH by reflexivity. reflexivity.
Qed.

(** ** Batch._write: the record handed to the encoder *)

Lemma operationIs_true op s : Batch.operationIs op s = true <-> op = Some s.
Proof.
  destruct op as [o|]; simpl; [|split; discriminate].
  rewrite String.eqb_eq. split; [intros ->; reflexivity | intros [= ->]; reflexivity].
Qed.

Lemma operationIs_false op s : Batch.operationIs op s = false <-> op <> Some s.
Proof.
  rewrite <- operationIs_true.
  destruct (Batch.operationIs op s); split; congruence.
Qed.

Lemma shape_insert record_ : Batch.shape (Some "insert") record_ !! "Id" = None.
Proof. unfold Batch.shape. simpl. apply lookup_delete_eq. Qed.

Lemma shape_delete op record_ :
  op = Some "delete" \/ op = Some "hardDelete" ->
  Batch.shape op record_ = {[ "Id" := default FUndefined (record_ !! "Id") ]}.
Proof. intros [-> | ->]; reflexivity. Qed.

Lemma shape_other op record_ :
  op <> Some "insert" -> op <> Some "delete" -> op <> Some "hardDelete" ->
  Batch.shape op record_
  = <["Id" := default FUndefined (record_ !! "Id")]>
      (delete "Id" (delete "type" (delete "attributes" record_))).
Proof.
  intros H1 H2 H3. unfold Batch.shape.
  apply operationIs_false in H1, H2, H3. rewrite H1, H2, H3. reflexivity.
Qed.

Lemma write_appends record_ w :
  Batch._write record_ w
  = (Normal tt,
     upd_batch (fun b => BatchFields.set_uploadStream
        (BatchFields._uploadStream b
         ++ [CRecord (Batch.shape (JobFields.operation (job w)) record_)]) b) w).
Proof. reflexivity. Qed.

(** C2, as stated, fails: an update of a record with a [type] field hands
    the encoder a record without it, although [type] is one of the
    remaining fields of the input. *)
Lemma write_drops_type :
  let record_ : Rec :=
    <["Id" := FString "001"]> (<["type" := FString "Account"]>
      (<["Name" := FString "Acme"]> ∅)) in
  let w := exec (Bulk.createJob "Account" "update" None ;; Job.createBatch ;;
                 Batch._write record_) Bulk.constructor in
  exists record,
    BatchFields._uploadStream (batch w) = [CRecord record]
    /\ record_ !! "type" = Some (FString "Account")
    /\ record !! "type" = None
    /\ record !! "Name" = Some (FString "Acme").
Proof.
  eexists. split; [reflexivity|]. repeat split; vm_compute; reflexivity.
Qed.

Lemma shape_insert_eq record_ :
  Batch.shape (Some "insert") record_
  = delete "Id" (delete "type" (delete "attributes" record_)).
Proof. reflexivity. Qed.

(** Whatever the operation, [type] and [attributes] are not handed on. *)
Lemma shape_drops op record_ :
  Batch.shape op record_ !! "type" = None
  /\ Batch.shape op record_ !! "attributes" = None.
Proof.
  unfold Batch.shape.
  destruct (Batch.operationIs op "insert");
    [|destruct (Batch.operationIs op "delete" || Batch.operationIs op "hardDelete")].
  - split.
    + rewrite lookup_delete_ne by discriminate. apply lookup_delete_eq.
    + rewrite !lookup_delete_ne by discriminate. apply lookup_delete_eq.
  - split; apply lookup_singleton_ne; discriminate.
  - split.
    + rewrite lookup_insert_ne by discriminate.
      rewrite lookup_delete_ne by discriminate. apply lookup_delete_eq.
    + rewrite lookup_insert_ne by discriminate.
      rewrite !lookup_delete_ne by discriminate. apply lookup_delete_eq.
Qed.

(** C2 (amended): [_write] hands exactly one record to the upload stream,
    and whatever the operation that record has neither a [type] nor an
    [attributes] field.  For [insert] it has no [Id] field and every other
    field of the input; for [delete] and [hardDelete] its only field is
    [Id], with the [Id] of the input; for every other operation it has the
    [Id] of the input and every other field of the input.  (Every other
    field: every field but [Id], [type] and [attributes].) *)
Theorem write_shapes_record (w : World) (record_ : Rec) :
  let operation := JobFields.operation (job w) in
  exists record,
    BatchFields._uploadStream (batch (exec (Batch._write record_) w))
      = BatchFields._uploadStream (batch w) ++ [CRecord record]
    /\ (record !! "type" = None /\ record !! "attributes" = None)
    /\ (operation = Some "insert" ->
        record !! "Id" = None
        /\ forall k, k <> "Id" -> k <> "type" -> k <> "attributes" ->
                     record !! k = record_ !! k)
    /\ (operation = Some "delete" \/ operation = Some "hardDelete" ->
        dom record = {[ "Id" ]}
        /\ record !! "Id" = Some (default FUndefined (record_ !! "Id")))
    /\ (operation <> Some "insert" -> operation <> Some "delete" ->
        operation <> Some "hardDelete" ->
        record !! "Id" = Some (default FUndefined (record_ !! "Id"))
        /\ forall k, k <> "Id" -> k <> "type" -> k <> "attributes" ->
                     record !! k = record_ !! k).
Proof.
  intros operation. exists (Batch.shape operation record_).
  split; [reflexivity|]. split; [apply shape_drops|]. split; [|split].
  - intros ->. rewrite shape_insert_eq. split; [apply lookup_delete_eq|].
    intros k Hi Ht Ha. rewrite !lookup_delete_ne by congruence. reflexivity.
  - intros H. rewrite (shape_delete _ _ H).
    split; [apply dom_singleton_L|apply lookup_singleton_eq].
  - intros H1 H2 H3. rewrite shape_other by assumption.
    split; [apply lookup_insert_eq|].
    intros k Hi Ht Ha. rewrite lookup_insert_ne by congruence.
    rewrite !lookup_delete_ne by congruence. reflexivity.
Qed.

(** ** Frames *)

Section Respects.
Context (Q : Effect -> Prop) (R : World -> World -> Prop) `{!SyncFrame Q R}.

Lemma respects_ret {A} (a : A) : respects R (ret a).
Proof. intros w. apply fr_refl. Qed.

Lemma respects_throw {A} e : respects R (@throw A e).
Proof. intros w. apply fr_refl. Qed.

Lemma respects_gets {A} (f : World -> A) : respects R (gets f).
Proof. intros w. apply fr_refl. Qed.

Lemma respects_bind {A B} (m : M A) (k : A -> M B) :
  respects R m -> (forall a, respects R (k a)) -> respects R (bind m k).
Proof.
  intros Hm Hk w. unfold exec, bind. specialize (Hm w). unfold exec in Hm.
  destruct (m w) as [[a|e] w']; simpl in *; [|assumption].
  eapply fr_trans; [eassumption|]. apply Hk.
Qed.

Lemma respects_try {A} (m : M A) : respects R m -> respects R (try m).
Proof.
  intros Hm w. specialize (Hm w). unfold exec, try in *.
  destruct (m w); assumption.
Qed.

Lemma respects_modify f : (forall w, R w (f w)) -> respects R (modify f).
Proof. intros H w. apply H. Qed.

Lemma respects_log e : Q e -> respects R (log e).
Proof. intros H. apply respects_modify. intros w. apply fr_log, H. Qed.
End Respects.

(** One step through a computation: a primitive, a known method, or the
    parts of a sequence or of a case distinction. *)
Ltac frame_step :=
  match goal with
  | |- respects _ _ => assumption
  | |- respects ?R (ret _) => apply (respects_ret _ R)
  | |- respects ?R (throw _) => apply (respects_throw _ R)
  | |- respects ?R (gets _) => apply (respects_gets _ R)
  | |- respects ?R (log _) =>
      apply (respects_log _ R);
      first [ exact I
            | match goal with
              | H : forall e, quiet e -> _ |- _ => apply H; exact I
              end ]
  | |- respects ?R (modify _) =>
      apply respects_modify; intros;
      first [ apply fr_promises | apply fr_microtasks | apply fr_awaiting
            | apply fr_nextRequest | apply fr_timers | apply fr_jobInfo
            | apply fr_batches | apply fr_loadBatch
            | apply fr_offBatch; assumption | apply fr_offJob; assumption ]
  | |- respects _ _ => solve [eauto with frame typeclass_instances]
  | |- respects ?R (try _) => apply respects_try
  | |- respects ?R (bind _ _) => apply (respects_bind _ R); [|intros]
  | |- respects _ (match ?x with _ => _ end) => destruct x eqn:?
  end.

Ltac frame := repeat frame_step.

Create HintDb frame.

Section Synchronous.
Context (Q : Effect -> Prop) (R : World -> World -> Prop) `{!SyncFrame Q R}.
Hypothesis quiet_allowed : forall e, quiet e -> Q e.

Lemma respects_newPromise : respects R newPromise.
Proof. unfold newPromise. frame. Qed.
Hint Resolve respects_newPromise : frame.

Lemma respects_settle p s : respects R (settle p s).
Proof. unfold settle. frame. Qed.
Hint Resolve respects_settle : frame.

Lemma respects_await p k : respects R (await p k).
Proof. unfold await. frame. Qed.
Hint Resolve respects_await : frame.

Lemma respects_resolved v : respects R (resolved v).
Proof. unfold resolved. frame. Qed.
Hint Resolve respects_resolved : frame.

Lemma respects_request r k : respects R (request r k).
Proof. unfold request. frame. Qed.
Hint Resolve respects_request : frame.

Lemma respects_setTimeout l : respects R (setTimeout l).
Proof. unfold setTimeout. frame. Qed.
Hint Resolve respects_setTimeout : frame.

Lemma respects_open : respects R Job.open.
Proof. unfold Job.open. frame. Qed.
Hint Resolve respects_open : frame.

Lemma respects_waitIdAssignment : respects R Job._waitIdAssignment.
Proof. unfold Job._waitIdAssignment. frame. Qed.
Hint Resolve respects_waitIdAssignment : frame.

Lemma respects_awaitId p k : respects R (Job.awaitId p k).
Proof. unfold Job.awaitId. frame. Qed.
Hint Resolve respects_awaitId : frame.

Lemma respects_check : respects R Job.check.
Proof. unfold Job.check. frame. Qed.

Lemma respects_changeState st : respects R (Job._changeState st).
Proof. unfold Job._changeState. frame. Qed.
Hint Resolve respects_changeState : frame.

Lemma respects_close : respects R Job.close.
Proof. unfold Job.close. frame. Qed.
Hint Resolve respects_close : frame.

Lemma respects_poll i t : respects R (Batch.poll i t).
Proof. unfold Batch.poll, getTime. frame. Qed.
Hint Resolve respects_poll : frame.

Lemma respects_cleanup : respects R cleanup.
Proof. unfold cleanup. frame. Qed.
Hint Resolve respects_cleanup : frame.

Lemma respects_cleanupOnError err : respects R (cleanupOnError err).
Proof. unfold cleanupOnError. frame. Qed.
Hint Resolve respects_cleanupOnError : frame.

Lemma respects_batchHandler h arg : respects R (batchHandler h arg).
Proof. unfold batchHandler. frame. Qed.
Hint Resolve respects_batchHandler : frame.

Lemma respects_callListeners off handle ls arg :
  (forall l, Listener.once l = true -> respects R (off l)) ->
  (forall h, respects R (handle h arg)) ->
  respects R (callListeners off handle ls arg).
Proof.
  intros Hoff Hh. induction ls as [|l rest IH]; simpl; [frame|].
  apply (respects_bind _ R);
    [|intros; apply (respects_bind _ R); [apply Hh|intros; apply IH]].
  destruct (Listener.once l) eqn:E; [apply Hoff, E|frame].
Qed.

Lemma respects_dispatch off handle registered event arg :
  (forall l, Listener.once l = true -> respects R (off l)) ->
  (forall h, respects R (handle h arg)) ->
  respects R (dispatch off handle registered event arg).
Proof.
  intros Hoff Hh. unfold dispatch.
  pose proof (fun ls => respects_callListeners off handle ls arg Hoff Hh).
  frame.
Qed.

Lemma respects_emitOn off handle src registered event arg :
  (forall l, Listener.once l = true -> respects R (off l)) ->
  (forall h, respects R (handle h arg)) ->
  respects R (emitOn off handle src registered event arg).
Proof.
  intros Hoff Hh. unfold emitOn.
  pose proof (respects_dispatch off handle registered event arg Hoff Hh).
  frame.
Qed.

Lemma respects_emitBatch event arg : respects R (emitBatch event arg).
Proof.
  apply respects_emitOn; intros; frame.
Qed.
Hint Resolve respects_emitBatch : frame.

Lemma respects_jobHandler h arg : respects R (jobHandler h arg).
Proof. unfold jobHandler. frame. Qed.
Hint Resolve respects_jobHandler : frame.

Lemma respects_emitJob event arg : respects R (emitJob event arg).
Proof.
  apply respects_emitOn; intros; frame.
Qed.
Hint Resolve respects_emitJob : frame.

Lemma respects_emitRecordStream err : respects R (emitRecordStream err).
Proof. unfold emitRecordStream. frame. Qed.
Hint Resolve respects_emitRecordStream : frame.

Lemma respects_catchEmit emit p err :
  (forall ev arg, respects R (emit ev arg)) ->
  respects R (catchEmit emit p err).
Proof. intros H. unfold catchEmit. frame. Qed.

Lemma respects_catchEmitJob p err : respects R (catchEmit emitJob p err).
Proof. apply respects_catchEmit. intros. frame. Qed.
Hint Resolve respects_catchEmitJob : frame.

Lemma respects_catchEmitBatch p err :
  respects R (catchEmit emitBatch p err).
Proof. apply respects_catchEmit. intros. frame. Qed.
Hint Resolve respects_catchEmitBatch : frame.

Lemma respects_callback f arg : respects R (callback f arg).
Proof. destruct f; simpl; frame. Qed.
Hint Resolve respects_callback : frame.

(** Every continuation that resumes with a failure. *)
Lemma respects_resume_rejected k err : respects R (resume k (Rejected err)).
Proof. destruct k; simpl; frame. Qed.
End Synchronous.

#[global] Hint Resolve respects_newPromise respects_settle respects_await
  respects_resolved respects_request respects_setTimeout respects_open
  respects_waitIdAssignment respects_awaitId respects_check
  respects_changeState respects_close respects_poll respects_cleanup
  respects_cleanupOnError respects_batchHandler respects_emitBatch
  respects_jobHandler respects_emitJob respects_emitRecordStream
  respects_catchEmitJob respects_catchEmitBatch respects_callback
  respects_resume_rejected : frame.


(** What the rest of a [step] does. *)
Ltac frame_more :=
  match goal with
  | |- respects ?R (setJob _) =>
      apply respects_modify; intros;
      first [ apply fr_setId | apply fr_setState | apply fr_setType
            | apply fr_setOperation | apply fr_jobInfo
            | match goal with H : Clears _ |- _ => apply H end ]
  | |- respects ?R (modify _) =>
      apply respects_modify; intros;
      first [ apply fr_batch | apply fr_answered | apply fr_timersAny
            | apply fr_clock ]
  end.

Ltac frame_all := repeat first [ frame_step | frame_more ].

Lemma any_quiet e : quiet e -> anyEffect e.
Proof. intros _. exact I. Qed.
#[global] Hint Resolve any_quiet : frame.

Section Stepping.
Context (R : World -> World -> Prop) `{!Frame R}.

Lemma respects_abort : respects R Job.abort.
Proof. unfold Job.abort. frame_all. Qed.

Lemma respects_retrieve : respects R Batch.retrieve.
Proof. unfold Batch.retrieve. frame_all. Qed.
Hint Resolve respects_retrieve : frame.

Lemma respects_batch_check : respects R Batch.check.
Proof. unfold Batch.check. frame_all. Qed.
Hint Resolve respects_batch_check : frame.

Lemma respects_createRequestStream : respects R Batch._createRequestStream.
Proof. unfold Batch._createRequestStream. frame_all. Qed.
Hint Resolve respects_createRequestStream : frame.

Lemma respects_resultOf j b r : respects R (Batch.resultOf j b r).
Proof. unfold Batch.resultOf. frame_all. Qed.
Hint Resolve respects_resultOf : frame.

Lemma respects_openResults rs : respects R (openResults rs).
Proof. induction rs; simpl; frame_all. Qed.
Hint Resolve respects_openResults : frame.

(** Every continuation but the two that clear the identity. *)
Lemma respects_resume_keeping k s : ~ closes k s -> respects R (resume k s).
Proof.
  intros H. destruct k, s; simpl in H; try (exfalso; apply H; exact I);
    unfold resume; frame_all.
Qed.

Hypothesis clears : Clears R.

Lemma respects_resume k s : respects R (resume k s).
Proof.
  destruct k, s; try (apply respects_resume_keeping; simpl; tauto);
    unfold resume; frame_all.
Qed.
Hint Resolve respects_resume : frame.

Lemma respects_pollTick l : respects R (pollTick l).
Proof. unfold pollTick, getTime. frame_all. Qed.
Hint Resolve respects_pollTick : frame.

Lemma respects_onReadable : respects R onReadable.
Proof. unfold onReadable. frame_all. Qed.
Hint Resolve respects_onReadable : frame.

Lemma respects_toplevel m : respects R m -> respects R (toplevel m).
Proof. intros H. unfold toplevel. frame_all. Qed.

Lemma step_respects l w : R w (step l w).
Proof.
  unfold step. apply respects_toplevel.
  destruct l; unfold respond, microtask, timer, readable; frame_all.
Qed.

Lemma run_respects ls w : R w (run ls w).
Proof.
  revert w. induction ls as [|l ls IH]; intros w; simpl.
  - apply fr_refl.
  - eapply fr_trans; [apply step_respects | apply IH].
Qed.
End Stepping.


(** ** The relations are frames *)

#[global] Instance sameIdentity_frame : SyncFrame anyEffect sameIdentity.
Proof.
  split; unfold sameIdentity; simpl; intros; try (split; reflexivity).
  destruct H, H0. split; congruence.
Qed.

#[global] Instance identityKeptOrSet_sync :
  SyncFrame anyEffect identityKeptOrSet.
Proof.
  split; unfold identityKeptOrSet; simpl; intros; try (left; reflexivity).
  destruct H0 as [H0|H0]; [|right; exact H0].
  destruct H as [H|H]; [left; congruence|right; rewrite H0; exact H].
Qed.

#[global] Instance identityKeptOrSet_frame : Frame identityKeptOrSet.
Proof.
  split; [exact _|..]; unfold identityKeptOrSet; simpl; intros;
    try (left; reflexivity).
  right. eexists. reflexivity.
Qed.

#[global] Instance grows_frame P : SyncFrame P (grows P).
Proof.
  split; unfold grows; simpl; intros;
    try (exists []; split; [reflexivity | constructor]).
  - destruct H as (n1 & E1 & F1), H0 as (n2 & E2 & F2).
    exists (n2 ++ n1). split; [rewrite E2, E1, app_assoc; reflexivity|].
    apply Forall_app. split; assumption.
  - exists [e]. split; [reflexivity|]. constructor; [assumption|constructor].
Qed.

(** ** Steps *)

Lemma respond_due r k s w :
  awaiting w !! r = Some k ->
  respond r s w = resume k s (upd_awaiting (delete r) w).
Proof.
  intros H. unfold respond. erewrite exec_bind by reflexivity.
  cbv beta. rewrite H, bind_modify. reflexivity.
Qed.

Lemma respond_runs r k s w :
  awaiting w !! r = Some k ->
  step (Respond r s) w
  = exec (toplevel (resume k s)) (upd_awaiting (delete r) w).
Proof.
  intros H. unfold step, exec, toplevel, bind, try.
  rewrite (respond_due r k s w H). reflexivity.
Qed.

Lemma microtask_due k s rest w :
  microtasks w = (k, s) :: rest ->
  microtask w = resume k s (upd_microtasks (fun _ => rest) w).
Proof.
  intros H. unfold microtask. erewrite exec_bind by reflexivity.
  cbv beta. rewrite H, bind_modify. reflexivity.
Qed.

Lemma microtask_runs k s rest w :
  microtasks w = (k, s) :: rest ->
  step Microtask w
  = exec (toplevel (resume k s)) (upd_microtasks (fun _ => rest) w).
Proof.
  intros H. unfold step, exec, toplevel, bind, try.
  rewrite (microtask_due k s rest w H). reflexivity.
Qed.

(** A throw that reaches the event loop is noted, and nothing else. *)
Lemma toplevel_job m w : job (exec (toplevel m) w) = job (exec m w).
Proof.
  unfold exec, toplevel, bind, try.
  destruct (m w) as [[a|e] w']; reflexivity.
Qed.

Lemma removeListener_Forall (P : Listener.t -> Prop) l ls :
  Forall P ls -> Forall P (removeListener l ls).
Proof.
  induction 1 as [|x r Hx Hr IH]; simpl; [constructor|].
  destruct (listener_eqb x l); [exact Hr|constructor; assumption].
Qed.

Lemma writeAll_listeners records w :
  batchListeners (exec (Batch.writeAll records) w) = batchListeners w.
Proof.
  revert w. induction records as [|r rs IH]; intros w; [reflexivity|].
  unfold exec in *. simpl. unfold bind at 1. simpl. rewrite IH. reflexivity.
Qed.

Lemma writeAll_jobListeners records w :
  jobListeners (exec (Batch.writeAll records) w) = jobListeners w.
Proof.
  revert w. induction records as [|r rs IH]; intros w; [reflexivity|].
  unfold exec in *. simpl. unfold bind at 1. simpl. rewrite IH. reflexivity.
Qed.

(** What [execute] and [load] leave in the listener tables. *)
Lemma execute_listeners input w :
  BatchFields._result (batch w) = None ->
  batchListeners (exec (Batch.execute input) w)
  = batchListeners w
    ++ [Listener.make "response" (HResolve (List.length (promises w))) true;
        Listener.make "error" (HReject (List.length (promises w))) true]
  /\ jobListeners (exec (Batch.execute input) w) = jobListeners w.
Proof.
  intros H. unfold exec, Batch.execute, Batch.once, onceBatch, newPromise, bind,
    gets, modify.
  simpl. rewrite H. simpl.
  destruct input as [|data|records|]; simpl;
    try (split; [rewrite <- app_assoc; reflexivity|reflexivity]).
  match goal with
  | |- context [Batch.writeAll ?r ?w1] =>
      pose proof (writeAll_listeners r w1) as Hb;
      pose proof (writeAll_jobListeners r w1) as Hj;
      unfold exec in Hb, Hj;
      destruct (Batch.writeAll r w1) as [[[]|e] w2]; simpl in *;
      rewrite Hb, Hj, <- app_assoc; split; reflexivity
  end.
Qed.

Lemma load_runs type operation optionsOrInput input w :
  exists input' w1,
    Bulk.load type operation optionsOrInput input w = Batch.execute input' w1
    /\ batchListeners w1 = loadListeners
    /\ jobListeners w1 = [Listener.make "error" HForwardToBatch true]
    /\ promises w1 = promises w
    /\ BatchFields._result (batch w1) = None.
Proof.
  unfold Bulk.load.
  destruct optionsOrInput as [options|input']; cbv beta iota zeta;
    unfold Bulk.createJob, Job.createBatch, onceJob, Batch.on, onBatch, bind,
      modify;
    cbv beta iota; eexists _, _; (split; [reflexivity|]); repeat split.
Qed.

Lemma load_listeners type operation optionsOrInput input w :
  batchListeners (exec (Bulk.load type operation optionsOrInput input) w)
  = loadListeners
    ++ [Listener.make "response" (HResolve (List.length (promises w))) true;
        Listener.make "error" (HReject (List.length (promises w))) true]
  /\ jobListeners (exec (Bulk.load type operation optionsOrInput input) w)
     = [Listener.make "error" HForwardToBatch true].
Proof.
  destruct (load_runs type operation optionsOrInput input w)
    as (input' & w1 & E & Hb & Hj & Hp & Hr).
  unfold exec. rewrite E.
  destruct (execute_listeners input' w1 Hr) as [Hb' Hj'].
  unfold exec in Hb', Hj'. rewrite Hb', Hj', Hb, Hj, Hp. split; reflexivity.
Qed.

(** ** Job.close and Job.abort: a failure keeps identity and state *)

Lemma closes_dec k s : closes k s \/ ~ closes k s.
Proof. destruct k, s; simpl; tauto. Qed.

Lemma respond_rejected_sameIdentity r err w :
  sameIdentity w (step (Respond r (Rejected err)) w).
Proof.
  unfold step.
  enough (respects sameIdentity (toplevel (respond r (Rejected err)))) as H
    by apply H.
  unfold toplevel, respond.
  frame; apply respects_modify; intros; split; reflexivity.
Qed.

Lemma microtask_rejected_sameIdentity k err rest w :
  microtasks w = (k, Rejected err) :: rest ->
  sameIdentity w (step Microtask w).
Proof.
  intros H. rewrite (microtask_runs k _ rest w H).
  unfold sameIdentity. rewrite toplevel_job.
  apply (respects_resume_rejected anyEffect sameIdentity any_quiet k err
           (upd_microtasks (fun _ => rest) w)).
Qed.

(** A failure leaves the job's [id] and [state] as they are: in every
    continuation that resumes with one (the rejected request, and the
    [catch] of [close] and of [abort] with the listeners their 'error' event
    runs), in every step in which the remote rejects a request or a queued
    reaction receives a rejection, and in the call of [close()] or
    [abort()] itself.  The [id] goes from set to [null] only in the
    continuation of [close] or [abort] that runs after [_changeState] has
    succeeded. *)
Lemma rejection_keeps_identity (w : World) :
  (forall k err, sameIdentity w (exec (resume k (Rejected err)) w))
  /\ (forall r err, sameIdentity w (step (Respond r (Rejected err)) w))
  /\ (forall k err rest,
        microtasks w = (k, Rejected err) :: rest ->
        sameIdentity w (step Microtask w))
  /\ sameIdentity w (exec Job.close w)
  /\ sameIdentity w (exec Job.abort w)
  /\ (forall k s,
        JobFields.id (job w) <> None ->
        JobFields.id (job (exec (resume k s) w)) = None ->
        closes k s).
Proof.
  split; [|split; [|split; [|split; [|split]]]].
  - intros k err.
    exact (respects_resume_rejected anyEffect sameIdentity any_quiet k err w).
  - intros r err. apply respond_rejected_sameIdentity.
  - intros k err rest. apply microtask_rejected_sameIdentity.
  - exact (respects_close anyEffect sameIdentity any_quiet w).
  - enough (respects sameIdentity Job.abort) as H by apply H.
    unfold Job.abort. frame.
  - intros k s Hset Hnone.
    destruct (closes_dec k s) as [H|H]; [exact H|exfalso].
    destruct (respects_resume_keeping identityKeptOrSet k s H w) as [E|E].
    + rewrite E in Hnone. contradiction.
    + rewrite Hnone in E. destruct E. discriminate.
Qed.

(** ** Events nobody in the program listens to *)

Lemma listenersOf_other event ls :
  Forall (fun l => Listener.event l = "error") ls ->
  event <> "error" ->
  listenersOf event ls = [].
Proof.
  intros H Hne. induction H as [|l ls Hl _ IH]; [reflexivity|].
  simpl. rewrite Hl.
  destruct (String.eqb_spec "error" event) as [E|_]; [congruence|exact IH].
Qed.

Lemma emitJob_unheard event arg w :
  ErrorListenersOnly w -> event <> "error" ->
  emitJob event arg w = (Normal tt, upd_trace (cons (EEmit OnJob event arg)) w).
Proof.
  intros H Hne. unfold emitJob, emitOn, dispatch, bind, log, modify, gets.
  simpl. rewrite (listenersOf_other event _ H Hne).
  destruct (String.eqb_spec event "error") as [E|_]; [congruence|reflexivity].
Qed.

(** ** Job: the lifecycle *)

#[global] Instance staysErrorOnly_sync : SyncFrame anyEffect staysErrorOnly.
Proof.
  split; unfold staysErrorOnly; simpl; intros; try assumption; auto.
  unfold ErrorListenersOnly in *. simpl. apply removeListener_Forall.
  assumption.
Qed.

#[global] Instance staysErrorOnly_frame : Frame staysErrorOnly.
Proof.
  split; [exact _|..]; unfold staysErrorOnly; simpl; intros; assumption.
Qed.

Lemma staysErrorOnly_clears : Clears staysErrorOnly.
Proof. intros w H. exact H. Qed.

(** The jobs of [createJob] and of [load] listen to 'error' only, whatever
    happens later. *)
Lemma created_errorOnly type operation options labels w :
  ErrorListenersOnly
    (run labels (exec (Bulk.createJob type operation options) w)).
Proof.
  apply (run_respects staysErrorOnly staysErrorOnly_clears). constructor.
Qed.

Lemma loaded_errorOnly type operation optionsOrInput input labels w :
  ErrorListenersOnly
    (run labels (exec (Bulk.load type operation optionsOrInput input) w)).
Proof.
  apply (run_respects staysErrorOnly staysErrorOnly_clears).
  unfold ErrorListenersOnly.
  rewrite (proj2 (load_listeners type operation optionsOrInput input w)).
  repeat constructor.
Qed.

Lemma open_succeeds p jobInfo w :
  ErrorListenersOnly w ->
  let w' := exec (resume (KOpen p) (Fulfilled (VJobInfo jobInfo))) w in
  JobFields.id (job w') = Some (JobInfo.id jobInfo)
  /\ JobFields.state (job w') = JobInfo.state jobInfo.
Proof.
  intros H. unfold exec, resume.
  erewrite bind_try.
  2: { erewrite exec_bind by (apply emitJob_unheard; [exact H|discriminate]).
       reflexivity. }
  unfold settle, bind, gets, modify. simpl.
  destruct (promises w !! p) as [[[s|] ks]|]; simpl; split; reflexivity.
Qed.

Lemma changeState_succeeds p jobInfo w :
  let w' := exec (resume (KChangeState p) (Fulfilled (VJobInfo jobInfo))) w in
  JobFields.id (job w') = JobFields.id (job w)
  /\ JobFields.state (job w') = JobInfo.state jobInfo.
Proof.
  unfold exec, resume, settle, setJob, bind, gets, modify. simpl.
  destruct (promises w !! p) as [[[s|] ks]|]; simpl; repeat split; reflexivity.
Qed.

Lemma close_succeeds p v w :
  ErrorListenersOnly w ->
  let w' := exec (resume (KClose p) (Fulfilled v)) w in
  JobFields.id (job w') = None
  /\ JobFields.state (job w') = JobFields.state (job w).
Proof.
  intros H. unfold exec, resume.
  erewrite bind_try.
  2: { unfold setJob. erewrite exec_bind by reflexivity.
       apply emitJob_unheard; [exact H|discriminate]. }
  unfold settle, bind, gets, modify. simpl.
  destruct (promises w !! p) as [[[s|] ks]|]; simpl; split; reflexivity.
Qed.

(** C7: a job constructed without an identity is [Unknown] and has none; a
    job constructed from an identity is [Open].  When the remote answers the
    open request with success, the job has the identity the remote assigned
    and the state the remote reports: [Open], for a job the remote has
    opened.  When the remote answers the state-change request of [close]
    with success, the job has the state the remote reports: [Closed], for a
    job it has closed; and when [close] resumes, the identity is [null]
    again and the state stays.  The jobs are those of [createJob] and
    [load], whose listeners are on 'error' only. *)
Theorem job_lifecycle :
  (forall type operation options,
     let this := Job.constructor type operation options None in
     JobFields.id this = None /\ JobFields.state this = JobState.Unknown)
  /\ (forall type operation options jobId,
        jobId <> "" ->
        let this := Job.constructor type operation options (Some jobId) in
        JobFields.id this = Some jobId /\ JobFields.state this = JobState.Open)
  /\ (forall w r p jobInfo,
        ErrorListenersOnly w ->
        awaiting w !! r = Some (KOpen p) ->
        let w' := step (Respond r (Fulfilled (VJobInfo jobInfo))) w in
        JobFields.id (job w') = Some (JobInfo.id jobInfo)
        /\ JobFields.state (job w') = JobInfo.state jobInfo
        /\ (JobInfo.state jobInfo = JobState.Open ->
            JobFields.state (job w') = JobState.Open))
  /\ (forall w r p jobInfo,
        awaiting w !! r = Some (KChangeState p) ->
        let w' := step (Respond r (Fulfilled (VJobInfo jobInfo))) w in
        JobFields.id (job w') = JobFields.id (job w)
        /\ JobFields.state (job w') = JobInfo.state jobInfo
        /\ (JobInfo.state jobInfo = JobState.Closed ->
            JobFields.state (job w') = JobState.Closed))
  /\ (forall w p v rest,
        ErrorListenersOnly w ->
        microtasks w = (KClose p, Fulfilled v) :: rest ->
        let w' := step Microtask w in
        JobFields.id (job w') = None
        /\ JobFields.state (job w') = JobFields.state (job w))
  /\ (forall type operation options labels w,
        ErrorListenersOnly
          (run labels (exec (Bulk.createJob type operation options) w)))
  /\ (forall type operation optionsOrInput input labels w,
        ErrorListenersOnly
          (run labels
             (exec (Bulk.load type operation optionsOrInput input) w))).
Proof.
  split; [|split; [|split; [|split; [|split; [|split]]]]].
  - intros. split; reflexivity.
  - intros type operation options jobId Hne. cbv zeta. split; [reflexivity|].
    unfold Job.constructor. simpl.
    destruct (String.eqb_spec jobId "") as [E|_]; [contradiction|reflexivity].
  - intros w r p jobInfo H Hr. cbv zeta.
    rewrite (respond_runs r _ _ w Hr), toplevel_job.
    destruct (open_succeeds p jobInfo (upd_awaiting (delete r) w) H)
      as [Hid Hst].
    split; [exact Hid|]. split; [exact Hst|]. intros <-. exact Hst.
  - intros w r p jobInfo Hr. cbv zeta.
    rewrite (respond_runs r _ _ w Hr), toplevel_job.
    destruct (changeState_succeeds p jobInfo (upd_awaiting (delete r) w))
      as [Hid Hst].
    split; [exact Hid|]. split; [exact Hst|]. intros <-. exact Hst.
  - intros w p v rest H Hq. cbv zeta.
    rewrite (microtask_runs _ _ rest w Hq), toplevel_job.
    apply (close_succeeds p v (upd_microtasks (fun _ => rest) w) H).
  - apply created_errorOnly.
  - apply loaded_errorOnly.
Qed.

(** ** Job.open: the cached promise *)


Lemma open_throws w :
  JS.truthy (JobFields.type (job w)) && JS.truthy (JobFields.operation (job w))
  = false ->
  Job.open w = (Throw openError, w).
Proof.
  intros H. unfold Job.open, bind, gets. apply andb_false_iff in H.
  destruct H as [-> | ->]; simpl; [reflexivity|].
  rewrite orb_true_r. reflexivity.
Qed.

Lemma open_cached w p :
  JS.truthy (JobFields.type (job w)) && JS.truthy (JobFields.operation (job w))
  = true ->
  JobFields._jobInfo (job w) = Some p ->
  Job.open w = (Normal p, w).
Proof.
  intros H Hp. unfold Job.open, bind, gets. apply andb_true_iff in H.
  destruct H as [-> ->]. simpl. rewrite Hp. reflexivity.
Qed.

Lemma open_first w :
  JS.truthy (JobFields.type (job w)) && JS.truthy (JobFields.operation (job w))
  = true ->
  JobFields._jobInfo (job w) = None ->
  Job.open w = (Normal (List.length (promises w)), opened w).
Proof.
  intros H Hp. unfold Job.open, bind, gets. apply andb_true_iff in H.
  destruct H as [-> ->]. simpl. rewrite Hp. reflexivity.
Qed.

#[global] Instance staysCached_sync : SyncFrame anyEffect staysCached.
Proof.
  split; unfold staysCached; simpl; intros; try assumption; eauto.
Qed.

#[global] Instance staysCached_frame : Frame staysCached.
Proof.
  split; [exact _|..]; unfold staysCached; simpl; intros; assumption.
Qed.

Lemma staysCached_clears : Clears staysCached.
Proof. intros w H. exact H. Qed.



(** ** Batch.execute: only once *)

Lemma execute_sets_result input w :
  BatchFields._result (batch w) = None ->
  BatchFields._result (batch (exec (Batch.execute input) w))
  = Some (List.length (promises w)).
Proof.
  intros H. unfold exec, Batch.execute, bind, gets. simpl. rewrite H. simpl.
  destruct input as [|data|records|]; simpl; try reflexivity.
  remember (upd_batch _ _) as w1 eqn:E1.
  assert (H1 : BatchFields._result (batch w1) = Some (List.length (promises w)))
    by (subst w1; reflexivity).
  clear E1. revert w1 H1.
  induction records as [|r rs IH]; intros w1 H1; simpl; [exact H1|].
  apply IH. exact H1.
Qed.

Lemma execute_again input w p :
  BatchFields._result (batch w) = Some p ->
  Batch.execute input w = (Throw executedError, w).
Proof. intros H. unfold Batch.execute, bind, gets. simpl. rewrite H. reflexivity. Qed.

(** C4: once [execute] has been called on a batch, whatever it was given and
    whatever has happened since that left [_result] in place, a call of
    [execute], [run] or [exec] throws at once and leaves the world as it is:
    nothing is written, no listener is added and no request is issued. *)
Theorem execute_twice_fails (w : World) (first again : Input) :
  let w1 := exec (Batch.execute first) w in
  is_Some (BatchFields._result (batch w1))
  /\ (forall w2,
        is_Some (BatchFields._result (batch w2)) ->
        Batch.execute again w2 = (Throw executedError, w2)
        /\ Batch.run again w2 = (Throw executedError, w2)
        /\ Batch.exec again w2 = (Throw executedError, w2)
        /\ trace (exec (Batch.execute again) w2) = trace w2
        /\ awaiting (exec (Batch.execute again) w2) = awaiting w2)
  /\ Batch.execute again w1 = (Throw executedError, w1).
Proof.
  assert (H : is_Some (BatchFields._result (batch (exec (Batch.execute first) w)))).
  { destruct (BatchFields._result (batch w)) as [p|] eqn:E.
    - unfold exec. rewrite (execute_again first w p E). simpl. rewrite E. eauto.
    - rewrite (execute_sets_result first w E). eauto. }
  assert (G : forall w2, is_Some (BatchFields._result (batch w2)) ->
                         Batch.execute again w2 = (Throw executedError, w2)).
  { intros w2 [p Hp]. apply (execute_again again w2 p Hp). }
  cbv zeta. split; [exact H|]. split; [|apply G, H].
  intros w2 H2. unfold Batch.run, Batch.exec, exec. rewrite (G w2 H2).
  repeat split; reflexivity.
Qed.


(** ** What an event adds to the trace *)

(** [emit] notes the event; what its listeners add comes before it, and is
    in [P] when the quiet effects are. *)
Lemma emitBatch_grows P event arg w :
  (forall e, quiet e -> P e) ->
  exists new,
    trace (exec (emitBatch event arg) w)
    = new ++ EEmit OnBatch event arg :: trace w
    /\ Forall P new.
Proof.
  intros HP.
  assert (Hoff : forall l, Listener.once l = true ->
            respects (grows P)
              (modify (upd_batchListeners (removeListener l))))
    by (intros; frame).
  assert (Hh : forall h, respects (grows P) (batchHandler h arg))
    by (intros; frame).
  destruct (respects_dispatch P (grows P) _ batchHandler batchListeners
              event arg Hoff Hh
              (upd_trace (cons (EEmit OnBatch event arg)) w))
    as (new & E & F).
  exists new. split; [exact E|exact F].
Qed.

(** ** Batch.retrieve: the envelope of a load *)

Lemma loadResults_lookup rows i row :
  rows !! i = Some row ->
  Batch.loadResults rows !! i = Some (Batch.loadEntry row).
Proof.
  intros H. unfold Batch.loadResults.
  change (map Batch.loadEntry rows) with (Batch.loadEntry <$> rows).
  rewrite list_lookup_fmap, H. reflexivity.
Qed.

Lemma loadEntry_spec row :
  LoadEntry.id (Batch.loadEntry row) = entryId row
  /\ (LoadEntry.success (Batch.loadEntry row) = true
      <-> Row.Success row = Some "true")
  /\ LoadEntry.errors (Batch.loadEntry row) = entryErrors row.
Proof.
  destruct row as [[id|] [success|] [error|]]; unfold entryId, entryErrors;
    simpl; repeat split; try discriminate;
    try (destruct id; reflexivity); try (destruct error; reflexivity);
    try (intros H; apply String.eqb_eq in H; congruence);
    try (intros [= ->]; reflexivity).
Qed.

(** C3: for a job whose operation is not a query, [retrieve] decodes the
    rows of the response into one entry per row, in the order of the rows:
    the entry's [id] is the row's [Id], or [null] when the row has none (or
    an empty one); [success] is true exactly when the row's [Success] is the
    text ["true"]; [errors] holds the row's [Error] alone when there is one,
    and is empty otherwise.  This envelope is what [retrieve] emits as
    'response' and, when the listeners return, what it resolves its promise
    with. *)
Theorem retrieve_load_envelope (w : World) (p : nat) (jobId batchId : string)
    (rows : list Row.t) :
  JobFields.operation (job w) <> Some "query" ->
  JobFields.operation (job w) <> Some "queryAll" ->
  let results := Batch.loadResults rows in
  let rest := resume (KRetrieve p jobId batchId) (Fulfilled (VLoadResponse rows)) in
  Batch.decode (JobFields.operation (job w)) (VLoadResponse rows) jobId batchId
  = Normal (LoadResult results)
  /\ (exists new,
        trace (exec rest w)
        = new ++ EEmit OnBatch "response" (VResult (LoadResult results))
              :: trace w)
  /\ (forall w1,
        emitBatch "response" (VResult (LoadResult results)) w = (Normal tt, w1) ->
        rest w = settle p (Fulfilled (VResult (LoadResult results))) w1)
  /\ List.length results = List.length rows
  /\ forall i row,
       rows !! i = Some row ->
       exists entry,
         results !! i = Some entry
         /\ LoadEntry.id entry = entryId row
         /\ (LoadEntry.success entry = true <-> Row.Success row = Some "true")
         /\ LoadEntry.errors entry = entryErrors row.
Proof.
  intros Hq Hqa. cbv zeta.
  assert (D : Batch.decode (JobFields.operation (job w)) (VLoadResponse rows)
                jobId batchId = Normal (LoadResult (Batch.loadResults rows))).
  { unfold Batch.decode. apply operationIs_false in Hq, Hqa.
    rewrite Hq, Hqa. reflexivity. }
  split; [exact D|]. split; [|split; [|split]].
  - unfold exec, resume. unfold bind at 1, gets at 1. rewrite D.
    destruct (emitBatch_grows anyEffect "response"
                (VResult (LoadResult (Batch.loadResults rows))) w any_quiet)
      as (new & E & _).
    unfold exec in E.
    destruct (emitBatch "response" _ w) as [[[]|err] w1] eqn:Em; simpl in E.
    + erewrite bind_try by (erewrite exec_bind by exact Em; reflexivity).
      destruct (respects_settle anyEffect (grows anyEffect) p
                  (Fulfilled (VResult (LoadResult (Batch.loadResults rows)))) w1)
        as (n2 & E2 & _).
      exists (n2 ++ new). unfold exec in E2. rewrite E2, E, app_assoc. reflexivity.
    + erewrite bind_try by (erewrite bind_throw by exact Em; reflexivity).
      destruct (respects_catchEmitBatch anyEffect (grows anyEffect) any_quiet
                  p err w1) as (n2 & E2 & _).
      exists (n2 ++ new). unfold exec in E2. rewrite E2, E, app_assoc. reflexivity.
  - intros w1 Em. unfold resume. unfold bind at 1, gets at 1. rewrite D.
    erewrite bind_try by (erewrite exec_bind by exact Em; reflexivity).
    reflexivity.
  - unfold Batch.loadResults. apply length_map.
  - intros i row H. exists (Batch.loadEntry row).
    split; [apply loadResults_lookup, H|apply loadEntry_spec].
Qed.

(** C9: a row whose [Id] is the empty string is decoded as a row without
    [Id]: the entry's [id] is [null]. *)
Theorem empty_id_is_null (success error : option string) :
  LoadEntry.id (Batch.loadEntry (Row.make (Some "") success error)) = None
  /\ Batch.loadEntry (Row.make (Some "") success error)
     = Batch.loadEntry (Row.make None success error)
  /\ forall operation before after jobId batchId,
       Batch.decode operation
         (VLoadResponse (before ++ Row.make (Some "") success error :: after))
         jobId batchId
       = Batch.decode operation
           (VLoadResponse (before ++ Row.make None success error :: after))
           jobId batchId.
Proof.
  split; [reflexivity|]. split; [reflexivity|].
  intros operation before after jobId batchId. unfold Batch.decode.
  destruct (_ || _); [reflexivity|].
  unfold Batch.loadResults. rewrite !map_app. reflexivity.
Qed.


(** ** The poll tick of a failed batch *)

Lemma retrieve_trace w :
  exists new,
    trace (exec Batch.retrieve w) = new ++ ECall BatchRetrieve :: trace w
    /\ (new = [] \/ exists r, new = [ERequest (nextRequest w) r])
    /\ timers (exec Batch.retrieve w) = timers w.
Proof.
  unfold exec, Batch.retrieve, newPromise, settle, request, bind, log, gets,
    modify.
  simpl.
  change (Batch.started (upd_promises _ (upd_trace _ w)))
    with (Batch.started w).
  destruct (Batch.started w) as [[jobId batchId]|]; simpl.
  - eexists [_]. split; [|split; [right; eexists|]]; reflexivity.
  - destruct (_ !! _) as [[[s|] ks]|]; simpl;
      (exists []; split; [|split; [left|]]; reflexivity).
Qed.

(** C5: a poll tick that finds the batch [Failed] goes on to [retrieve] when
    [numberRecordsProcessed] parses to a number above zero: it does nothing
    but call [retrieve], so it emits nothing and schedules no tick.  When it
    parses to zero, the tick does nothing but emit an 'error' whose message
    is the remote's [stateMessage], and nothing its listeners do enters
    [retrieve]. *)
Theorem failed_batch_outcome (w : World) (l : PollLoop.t) (res : BatchInfo.t) :
  BatchInfo.state res = BatchState.Failed ->
  let tick := resume (KPoll l) (Fulfilled (VBatchInfo res)) in
  let processed := JS.parseInt (BatchInfo.numberRecordsProcessed res) in
  (forall n, processed = Some n -> 0 < n ->
     tick w = (_ <- Batch.retrieve ;; ret tt) w
     /\ eval tick w = Normal tt
     /\ (exists new,
           trace (exec tick w) = new ++ ECall BatchRetrieve :: trace w
           /\ (new = [] \/ exists r, new = [ERequest (nextRequest w) r]))
     /\ timers (exec tick w) = timers w)
  /\ (processed = Some 0 ->
      let err := new_Error (BatchInfo.stateMessage res) in
      tick w = emitBatch "error" (VError err) w
      /\ Error.message err = BatchInfo.stateMessage res
      /\ exists new,
           trace (exec tick w) = new ++ EEmit OnBatch "error" (VError err) :: trace w
           /\ Forall (fun e => e <> ECall BatchRetrieve) new).
Proof.
  intros Hst. cbv zeta. split.
  - intros n Hn Hpos.
    assert (E : resume (KPoll l) (Fulfilled (VBatchInfo res)) w
                = (_ <- Batch.retrieve ;; ret tt) w).
    { unfold resume. rewrite Hst, Hn. simpl.
      destruct (Z.ltb_spec 0 n) as [_|?]; [reflexivity|lia]. }
    split; [exact E|]. unfold eval, exec. rewrite E.
    destruct (retrieve_trace w) as (new & Ht & Hnew & Htm).
    unfold exec in Ht, Htm. unfold bind.
    destruct (Batch.retrieve w) as [[p|e] w1] eqn:Er; simpl in *.
    + split; [reflexivity|]. split; [exists new; split; assumption|assumption].
    + exfalso. revert Er. unfold Batch.retrieve, newPromise, settle, request,
        bind, log, gets, modify. simpl.
      change (Batch.started (upd_promises _ (upd_trace _ w)))
        with (Batch.started w).
      destruct (Batch.started w) as [[jobId batchId]|]; simpl; [discriminate|].
      destruct (_ !! _) as [[[s|] ks]|]; discriminate.
  - intros Hn.
    assert (E : resume (KPoll l) (Fulfilled (VBatchInfo res)) w
                = emitBatch "error"
                    (VError (new_Error (BatchInfo.stateMessage res))) w).
    { unfold resume. rewrite Hst, Hn. reflexivity. }
    split; [exact E|]. split; [reflexivity|].
    unfold exec. rewrite E. apply emitBatch_grows.
    intros [] H; try discriminate. destruct m; [discriminate|contradiction..].
Qed.


(** ** The batch of [Bulk.load] *)

Lemma removeListener_base l onces :
  Listener.once l = true ->
  removeListener l (loadListeners ++ onces)
  = loadListeners ++ removeListener l onces.
Proof.
  intros H. unfold loadListeners. simpl. unfold listener_eqb. simpl.
  rewrite H. simpl. rewrite !andb_false_r. reflexivity.
Qed.

#[global] Instance staysWired_sync : SyncFrame anyEffect staysWired.
Proof.
  split; unfold staysWired; simpl; intros; try assumption; auto.
  - destruct H0 as (onces & E & F). unfold LoadWired. simpl.
    exists (removeListener l onces). rewrite E.
    split; [apply removeListener_base, H|apply removeListener_Forall, F].
Qed.

#[global] Instance staysWired_frame : Frame staysWired.
Proof. split; [exact _|..]; unfold staysWired; simpl; intros; assumption. Qed.

Lemma staysWired_clears : Clears staysWired.
Proof. intros w H. exact H. Qed.

Lemma load_wires type operation optionsOrInput input w :
  LoadWired (exec (Bulk.load type operation optionsOrInput input) w).
Proof.
  eexists. split; [apply (proj1 (load_listeners _ _ _ _ _))|].
  constructor; [|constructor; [|constructor]].
  - split; [reflexivity|left]. split; [reflexivity|eexists; reflexivity].
  - split; [reflexivity|right]. split; [reflexivity|eexists; reflexivity].
Qed.

(** Whatever happens after [load], its batch stays wired. *)
Lemma loaded_wired type operation optionsOrInput input w labels :
  LoadWired (run labels (exec (Bulk.load type operation optionsOrInput input) w)).
Proof.
  apply (run_respects staysWired staysWired_clears), load_wires.
Qed.

Lemma silent_refl w : silent w w.
Proof. repeat split. Qed.

Lemma silent_trans a b c : silent a b -> silent b c -> silent a c.
Proof.
  unfold silent. intros (?&?&?&?&?&?) (?&?&?&?&?&?).
  repeat split; congruence.
Qed.

Lemma settle_silent p s w :
  exists w', settle p s w = (Normal tt, w') /\ silent w w'.
Proof.
  unfold settle, bind, gets, modify. simpl.
  destruct (promises w !! p) as [[[x|] ks]|]; simpl;
    eexists; (split; [reflexivity|repeat split]).
Qed.

(** The listeners of [execute] settle its promise and do nothing else. *)
Lemma call_results ls arg w :
  Forall resultListener ls ->
  exists w',
    callListeners (fun l => modify (upd_batchListeners (removeListener l)))
      batchHandler ls arg w = (Normal tt, w')
    /\ silent w w'.
Proof.
  intros H. revert w. induction H as [|l r Hl _ IH]; intros w.
  - exists w. split; [reflexivity|apply silent_refl].
  - cbn [callListeners].
    assert (Hs : exists p s, batchHandler (Listener.handler l) arg = settle p s).
    { destruct Hl as (_ & [(_ & p & Hh) | (_ & p & Hh)]); rewrite Hh;
        eexists _, _; reflexivity. }
    destruct Hl as (Honce & _). destruct Hs as (p & s & Hs).
    rewrite Honce, Hs, bind_modify.
    destruct (settle_silent p s (upd_batchListeners (removeListener l) w))
      as (w2 & E2 & S2).
    rewrite (exec_bind _ _ _ _ _ E2).
    destruct (IH w2) as (w3 & E3 & S3).
    exists w3. split; [exact E3|].
    eapply silent_trans; [|exact S3].
    eapply silent_trans; [|exact S2]. repeat split.
Qed.

Lemma listenersOf_app event a b :
  listenersOf event (a ++ b) = listenersOf event a ++ listenersOf event b.
Proof. unfold listenersOf. apply List.filter_app. Qed.

Lemma listenersOf_Forall (P : Listener.t -> Prop) event ls :
  Forall P ls -> Forall P (listenersOf event ls).
Proof.
  induction 1 as [|x r Hx Hr IH]; simpl; [constructor|].
  destruct (String.eqb _ _); [constructor|]; assumption.
Qed.

(** On a wired batch, 'error' runs [cleanupOnError] and then what is left of
    the listeners of [execute]; 'response' runs [cleanup] and then those. *)
Lemma dispatch_wired event arg w :
  LoadWired w ->
  event = "error" \/ event = "response" ->
  exists ls,
    Forall resultListener ls
    /\ dispatch offBatch batchHandler batchListeners event arg w
       = ((if String.eqb event "error"
           then cleanupOnError (errorOf arg) else cleanup) ;;
          callListeners offBatch batchHandler ls arg) w.
Proof.
  intros (onces & E & F) Hev. exists (listenersOf event onces).
  split; [apply listenersOf_Forall, F|].
  unfold dispatch. unfold bind at 1, gets at 1.
  rewrite E, listenersOf_app.
  destruct Hev as [-> | ->]; reflexivity.
Qed.

Lemma emitBatch_log event arg w :
  emitBatch event arg w
  = dispatch offBatch batchHandler batchListeners event arg
      (upd_trace (cons (EEmit OnBatch event arg)) w).
Proof. reflexivity. Qed.

Lemma wired_log e w : LoadWired w -> LoadWired (upd_trace (cons e) w).
Proof. intros H. exact H. Qed.

(** A timeout error goes through the listeners of a wired batch without a
    trace but the event itself. *)
Lemma emit_timeout_wired err w :
  LoadWired w ->
  Error.name err = "PollingTimeout" ->
  exists w',
    emitBatch "error" (VError err) w = (Normal tt, w')
    /\ silent (upd_trace (cons (EEmit OnBatch "error" (VError err))) w) w'.
Proof.
  intros H Hname. rewrite emitBatch_log.
  destruct (dispatch_wired "error" (VError err) _
              (wired_log (EEmit OnBatch "error" (VError err)) w H)
              (or_introl eq_refl)) as (ls & F & ->).
  simpl. unfold cleanupOnError. rewrite Hname. simpl.
  apply call_results, F.
Qed.

(** [close()] is entered, and what follows only adds to the trace. *)
Lemma close_trace w :
  exists new, trace (exec Job.close w) = new ++ ECall JobClose :: trace w.
Proof.
  unfold Job.close.
  match goal with
  | |- context [exec (bind (log ?e) ?k) w] =>
      change (exec (bind (log e) k) w)
        with (exec (k tt) (upd_trace (cons e) w));
      assert (H : respects (grows anyEffect) (k tt)) by (cbv beta; frame)
  end.
  destruct (H (upd_trace (cons (ECall JobClose)) w)) as (new & E & _).
  exists new. exact E.
Qed.

Lemma total_ret {A} (a : A) : total (ret a).
Proof. intros w. eexists _, _. reflexivity. Qed.

Lemma total_gets {A} (f : World -> A) : total (gets f).
Proof. intros w. eexists _, _. reflexivity. Qed.

Lemma total_modify f : total (modify f).
Proof. intros w. eexists _, _. reflexivity. Qed.

Lemma total_try {A} (m : M A) : total (try m).
Proof. intros w. unfold try. destruct (m w). eexists _, _. reflexivity. Qed.

Lemma total_bind {A B} (m : M A) (k : A -> M B) :
  total m -> (forall a, total (k a)) -> total (bind m k).
Proof.
  intros Hm Hk w. destruct (Hm w) as (a & w' & E).
  rewrite (exec_bind _ _ _ _ _ E). apply Hk.
Qed.

Ltac total_step :=
  match goal with
  | |- total _ => assumption
  | |- total (ret _) => apply total_ret
  | |- total (gets _) => apply total_gets
  | |- total (modify _) => apply total_modify
  | |- total (log _) => apply total_modify
  | |- total (try _) => apply total_try
  | |- total (bind _ _) => apply total_bind; [|intros]
  | |- total (match ?x with _ => _ end) => destruct x
  end.

Lemma close_total : total Job.close.
Proof.
  unfold Job.close, Job._changeState, Job.awaitId, newPromise, await, settle.
  repeat total_step.
Qed.

Lemma close_normal w : exists p, eval Job.close w = Normal p.
Proof.
  destruct (close_total w) as (p & w' & E). exists p. unfold eval.
  rewrite E. reflexivity.
Qed.

Lemma cleanup_closes w :
  exists new w',
    cleanup w = (Normal tt, w')
    /\ trace w' = new ++ ECall JobClose :: trace w.
Proof.
  destruct (close_trace (upd_loadBatch false w)) as (new & En).
  destruct (close_total (upd_loadBatch false w)) as (p & w' & E).
  unfold exec in En. rewrite E in En.
  exists new, w'. split; [|exact En].
  unfold cleanup. rewrite bind_modify, (exec_bind _ _ _ _ _ E). reflexivity.
Qed.

(** On a wired batch, the first listener of 'response', and of an 'error'
    that is not a timeout, closes the job. *)
Lemma emit_closes event arg w :
  LoadWired w ->
  event = "response"
  \/ (event = "error" /\ Error.name (errorOf arg) <> "PollingTimeout") ->
  exists new,
    trace (exec (emitBatch event arg) w)
    = new ++ ECall JobClose :: EEmit OnBatch event arg :: trace w.
Proof.
  intros H Hev. unfold exec. rewrite emitBatch_log.
  set (w0 := upd_trace (cons (EEmit OnBatch event arg)) w).
  destruct (dispatch_wired event arg w0 (wired_log _ w H)
              ltac:(destruct Hev as [->|[-> _]]; auto)) as (ls & F & ->).
  assert (Hc : (if String.eqb event "error"
                then cleanupOnError (errorOf arg) else cleanup) = cleanup).
  { destruct Hev as [->|[-> Hname]]; [reflexivity|]. simpl.
    unfold cleanupOnError.
    destruct (String.eqb_spec (Error.name (errorOf arg)) "PollingTimeout");
      [contradiction|reflexivity]. }
  rewrite Hc. destruct (cleanup_closes w0) as (new & w1 & E1 & T1).
  rewrite (exec_bind _ _ _ _ _ E1).
  destruct (call_results ls arg w1 F) as (w2 & E2 & S2).
  rewrite E2. exists new. simpl. destruct S2 as [-> _]. exact T1.
Qed.

(** ** The polling timeout *)

Lemma tick_past_deadline l w :
  PollLoop.startTime l + PollLoop.timeout l < clock w ->
  pollTick l w = emitBatch "error" (VError (timeoutError l)) w.
Proof.
  intros H. unfold pollTick, getTime. unfold bind at 1, gets at 1.
  destruct (Z.ltb_spec (PollLoop.startTime l + PollLoop.timeout l) (clock w));
    [reflexivity|lia].
Qed.

Lemma timer_due i l now w :
  timers w !! i = Some l ->
  timer i now w = pollTick l (upd_timers (delete i) (upd_clock now w)).
Proof.
  intros H. unfold timer. erewrite exec_bind by reflexivity.
  cbv beta. rewrite H, !bind_modify. reflexivity.
Qed.

Lemma timer_fires i l now w :
  timers w !! i = Some l ->
  step (Timer i now) w
  = exec (toplevel (pollTick l)) (upd_timers (delete i) (upd_clock now w)).
Proof.
  intros H. unfold step, exec, toplevel, bind, try.
  rewrite (timer_due i l now w H). reflexivity.
Qed.

(** C1: a poll tick that finds the deadline passed does nothing but emit one
    'error' on the batch, a [PollingTimeoutError] that carries the job's and
    the batch's identity; it issues no check and schedules no tick.  On a
    batch that [load] has created, at any later time, that tick leaves just
    this event in the trace, removes its own timer, and leaves the job and
    the requests in flight as they are, so [close()] is not called; an
    'error' of any other name, and a 'response', make the first listener
    call [close()] on the job. *)
Theorem polling_timeout_leaves_job_open
    (type operation : string) (optionsOrInput : OptionsOrInput)
    (input : Input) (w0 : World) (labels : list Label) :
  let w := run labels
             (exec (Bulk.load type operation optionsOrInput input) w0) in
  (forall w1 l,
     PollLoop.startTime l + PollLoop.timeout l < clock w1 ->
     pollTick l w1 = emitBatch "error" (VError (timeoutError l)) w1
     /\ Error.name (timeoutError l) = "PollingTimeout"
     /\ Error.jobId (timeoutError l) = Some (PollLoop.jobId l)
     /\ Error.batchId (timeoutError l) = Some (PollLoop.batchId l))
  /\ (forall i l now,
        timers w !! i = Some l ->
        PollLoop.startTime l + PollLoop.timeout l < now ->
        let w' := step (Timer i now) w in
        trace w' = EEmit OnBatch "error" (VError (timeoutError l)) :: trace w
        /\ timers w' = delete i (timers w)
        /\ awaiting w' = awaiting w
        /\ job w' = job w)
  /\ (forall err,
        Error.name err = "PollingTimeout" ->
        trace (exec (emitBatch "error" (VError err)) w)
        = EEmit OnBatch "error" (VError err) :: trace w)
  /\ (forall err,
        Error.name err <> "PollingTimeout" ->
        exists new,
          trace (exec (emitBatch "error" (VError err)) w)
          = new ++ ECall JobClose :: EEmit OnBatch "error" (VError err)
                :: trace w)
  /\ (forall results,
        exists new,
          trace (exec (emitBatch "response" results) w)
          = new ++ ECall JobClose :: EEmit OnBatch "response" results
                :: trace w).
Proof.
  intros w.
  assert (W : LoadWired w) by apply loaded_wired.
  split; [|split; [|split; [|split]]].
  - intros w1 l H. split; [apply tick_past_deadline, H|].
    repeat split.
  - intros i l now Hl Hnow. cbv zeta. rewrite (timer_fires i l now w Hl).
    set (w1 := upd_timers (delete i) (upd_clock now w)).
    assert (W1 : LoadWired w1) by exact W.
    destruct (emit_timeout_wired (timeoutError l) w1 W1 eq_refl)
      as (w' & E & S).
    unfold exec, toplevel.
    rewrite (bind_try _ _ _ _ _
               (eq_trans (tick_past_deadline l w1 Hnow) E)).
    simpl. destruct S as (-> & -> & -> & -> & _). repeat split.
  - intros err Hname.
    destruct (emit_timeout_wired err w W Hname) as (w' & E & S).
    unfold exec. rewrite E. simpl. apply S.
  - intros err Hname. apply emit_closes; [exact W|].
    right. split; [reflexivity|exact Hname].
  - intros results. apply emit_closes; [exact W|]. left. reflexivity.
Qed.

(** ** Bulk.query *)

Lemma total_await p k : total (await p k).
Proof. unfold await. repeat total_step. Qed.

(** When the stripped text has a FROM clause, [query] returns the record
    stream: whatever goes wrong in [load] is caught, and becomes an 'error'
    event of the stream. *)
Lemma query_returns soql type :
  JS.match_from (JS.strip_parens soql) = Some type ->
  total (Bulk.query soql).
Proof.
  intros H. unfold Bulk.query. rewrite H.
  unfold emitRecordStream. repeat first [apply total_await | total_step].
Qed.

Lemma query_throws soql w :
  JS.match_from (JS.strip_parens soql) = None ->
  Bulk.query soql w = (Throw Bulk.noType, w).
Proof. intros H. unfold Bulk.query. rewrite H. reflexivity. Qed.

(** A failure of the load, when it reaches the rest of [query], is an
    'error' event of the record stream and is not thrown. *)
Lemma query_failure_is_event err w :
  resume KQuery (Rejected err) w
  = (Normal tt, upd_trace (cons (EEmit OnRecordStream "error" (VError err))) w).
Proof. reflexivity. Qed.

(** C8 fails on the code: a query with a FROM clause, between a function
    call in the field list and a parenthesis in the condition, makes
    [query] throw "No sobject type found": the greedy [[\s\S]+] takes the
    text from the first ["("] to the last [")"], and the FROM clause with
    it.  The same query without the condition is accepted. *)
Theorem query_loses_from_clause :
  let soql := "SELECT Id, toLabel(Status) FROM Case WHERE Status IN ('New')" in
  fromClause soql = Some "Case"
  /\ JS.strip_parens soql = "SELECT Id, toLabel"
  /\ Bulk.query soql Bulk.constructor = (Throw Bulk.noType, Bulk.constructor)
  /\ eval (Bulk.query "SELECT Id, toLabel(Status) FROM Case") Bulk.constructor
     = Normal tt.
Proof. vm_compute. repeat split; reflexivity. Qed.

(** ** Promises *)

Lemma settledAt_settle p q s w :
  settledAt p (exec (settle q s) w)
  = if decide (p = q)
    then match settledAt p w with
         | Some None => Some (Some s)
         | x => x
         end
    else settledAt p w.
Proof.
  unfold settledAt, exec, settle, bind, gets, modify. simpl.
  destruct (promises w !! q) as [[[x|] ks]|] eqn:E; simpl.
  - destruct (decide (p = q)) as [->|]; [rewrite E|]; reflexivity.
  - destruct (decide (p = q)) as [->|].
    + rewrite E. simpl. rewrite list_lookup_insert_eq; [reflexivity|].
      apply lookup_lt_Some in E. exact E.
    + rewrite list_lookup_insert_ne by congruence. reflexivity.
  - destruct (decide (p = q)) as [->|]; [rewrite E|]; reflexivity.
Qed.

Lemma settledAt_await p q k w :
  settledAt p (exec (await q k) w) = settledAt p w.
Proof.
  unfold settledAt, exec, await, bind, gets, modify. simpl.
  destruct (promises w !! q) as [[[x|] ks]|] eqn:E; simpl; try reflexivity.
  destruct (decide (p = q)) as [->|].
  - rewrite E. simpl. rewrite list_lookup_insert_eq; [reflexivity|].
    apply lookup_lt_Some in E. exact E.
  - rewrite list_lookup_insert_ne by congruence. reflexivity.
Qed.

Lemma length_settle q s w :
  length (promises (exec (settle q s) w)) = length (promises w).
Proof.
  unfold exec, settle, bind, gets, modify. simpl.
  destruct (promises w !! q) as [[[x|] ks]|]; simpl; try reflexivity.
  apply length_insert.
Qed.

Lemma length_await q k w :
  length (promises (exec (await q k) w)) = length (promises w).
Proof.
  unfold exec, await, bind, gets, modify. simpl.
  destruct (promises w !! q) as [[[x|] ks]|]; simpl; try reflexivity.
  apply length_insert.
Qed.

Lemma spares_refl n w : (n <= length (promises w))%nat -> spares n w w.
Proof. intros H. split; [exact H|reflexivity]. Qed.

Lemma spares_trans n a b c : spares n a b -> spares n b c -> spares n a c.
Proof.
  intros [Hn Hab] [Hm Hbc]. split; [exact Hm|].
  intros i Hi. rewrite Hbc, Hab by exact Hi. reflexivity.
Qed.

Section Sparing.
Context (n : nat).

Lemma sparing_ret {A} (Post : A -> Prop) a : Post a -> sparing n Post (ret a).
Proof. intros H w Hn. split; [apply spares_refl, Hn|exact H]. Qed.

Lemma sparing_throw {A} (Post : A -> Prop) e : sparing n Post (throw e).
Proof. intros w Hn. split; [apply spares_refl, Hn|exact I]. Qed.

Lemma sparing_gets {A} (f : World -> A) : sparing n anyValue (gets f).
Proof. intros w Hn. split; [apply spares_refl, Hn|exact I]. Qed.

Lemma sparing_modify f :
  (forall w, promises (f w) = promises w) -> sparing n anyValue (modify f).
Proof.
  intros H w Hn. split; [|exact I]. unfold exec, modify, spares, settledAt.
  simpl. rewrite H. split; [exact Hn|reflexivity].
Qed.

Lemma sparing_bind {A B} (P : A -> Prop) (Q : B -> Prop) m k :
  sparing n P m -> (forall a, P a -> sparing n Q (k a)) ->
  sparing n Q (bind m k).
Proof.
  intros Hm Hk w Hn. destruct (Hm w Hn) as [S1 P1].
  unfold exec, eval, bind in *. destruct (m w) as [[a|e] w1]; simpl in *.
  - destruct (Hk a P1 w1 (proj1 S1)) as [S2 P2].
    split; [eapply spares_trans; eassumption|exact P2].
  - split; [exact S1|exact I].
Qed.

Lemma sparing_try {A} (P : A -> Prop) m :
  sparing n P m ->
  sparing n (fun c => match c with Normal a => P a | Throw _ => True end)
    (try m).
Proof.
  intros Hm w Hn. destruct (Hm w Hn) as [S1 P1].
  unfold exec, eval, try in *. destruct (m w) as [c w1]. simpl in *.
  split; assumption.
Qed.

Lemma sparing_weaken {A} (P Q : A -> Prop) m :
  (forall a, P a -> Q a) -> sparing n P m -> sparing n Q m.
Proof.
  intros H Hm w Hn. destruct (Hm w Hn) as [S1 P1]. split; [exact S1|].
  destruct (eval m w); [apply H, P1|exact I].
Qed.

Lemma sparing_newPromise : sparing n (fun p => (n <= p)%nat) newPromise.
Proof.
  intros w Hn. unfold exec, eval, newPromise, bind, gets, modify, spares,
    settledAt. simpl.
  split; [|exact Hn]. split; [rewrite length_app; lia|].
  intros i Hi. rewrite lookup_app_l by lia. reflexivity.
Qed.

Lemma sparing_settle q s : (n <= q)%nat -> sparing n anyValue (settle q s).
Proof.
  intros Hq w Hn. split; [|destruct (eval _ _); exact I]. split.
  - rewrite length_settle. exact Hn.
  - intros i Hi. rewrite settledAt_settle.
    destruct (decide (i = q)); [lia|reflexivity].
Qed.

Lemma sparing_await q k : sparing n anyValue (await q k).
Proof.
  intros w Hn. split; [|destruct (eval _ _); exact I]. split.
  - rewrite length_await. exact Hn.
  - intros i Hi. apply settledAt_await.
Qed.
End Sparing.

Ltac sparing_step :=
  match goal with
  | |- sparing _ _ _ => assumption
  | |- sparing _ _ (ret _) => apply sparing_ret; try exact I
  | |- sparing _ _ (throw _) => apply sparing_throw
  | |- sparing _ _ (gets _) => apply sparing_gets
  | |- sparing _ _ (log _) => apply sparing_modify; reflexivity
  | |- sparing _ _ (setJob _) => apply sparing_modify; reflexivity
  | |- sparing _ _ (modify _) => apply sparing_modify; reflexivity
  | |- sparing _ _ (await _ _) => apply sparing_await
  | |- sparing _ _ (settle _ _) => apply sparing_settle; assumption
  | |- sparing _ _ newPromise => apply sparing_newPromise
  | |- sparing _ _ (try _) => eapply sparing_try
  | |- sparing _ _ (bind _ _) => eapply sparing_bind; [|intros]
  | |- sparing _ _ (match ?x with _ => _ end) => destruct x eqn:?
  end.

Lemma sparing_request n r k : sparing n anyValue (request r k).
Proof. unfold request. repeat sparing_step. Qed.

Lemma sparing_resolved n v : sparing n anyValue (resolved v).
Proof.
  unfold resolved. eapply sparing_bind; [apply sparing_newPromise|].
  intros p Hp. cbv beta. repeat sparing_step.
Qed.

Lemma sparing_open n : sparing n anyValue Job.open.
Proof.
  unfold Job.open. repeat first [apply sparing_request | sparing_step].
Qed.

Lemma sparing_waitIdAssignment n : sparing n anyValue Job._waitIdAssignment.
Proof.
  unfold Job._waitIdAssignment.
  repeat first [apply sparing_resolved | apply sparing_open | sparing_step].
Qed.

Lemma sparing_awaitId n p k :
  (n <= p)%nat -> sparing n anyValue (Job.awaitId p k).
Proof.
  intros Hp. unfold Job.awaitId.
  eapply sparing_bind; [apply sparing_try, sparing_waitIdAssignment|].
  intros [q|e] _; repeat sparing_step.
Qed.

Lemma sparing_changeState n st : sparing n anyValue (Job._changeState st).
Proof.
  unfold Job._changeState.
  eapply sparing_bind; [apply sparing_newPromise|]. intros p Hp. cbv beta.
  eapply sparing_bind; [apply sparing_awaitId, Hp|]. intros.
  repeat sparing_step.
Qed.

Lemma sparing_close n : sparing n anyValue Job.close.
Proof.
  unfold Job.close. repeat first [apply sparing_changeState | sparing_step].
Qed.

Lemma sparing_cleanupOnError n err : sparing n anyValue (cleanupOnError err).
Proof.
  unfold cleanupOnError, cleanup.
  repeat first [apply sparing_close | sparing_step].
Qed.

Ltac world :=
  cbv [upd_clock upd_job upd_batch upd_loadBatch upd_jobListeners
       upd_batchListeners upd_promises upd_microtasks upd_awaiting
       upd_nextRequest upd_timers upd_trace
       clock pollInterval pollTimeout job batch loadBatch jobListeners
       batchListeners promises microtasks awaiting nextRequest timers trace
       BatchFields.set_id BatchFields.set_uploadStream BatchFields.set_ended
       BatchFields.set_armed BatchFields.set_piped BatchFields.set_result
       BatchFields.id BatchFields._uploadStream BatchFields.ended
       BatchFields.armed BatchFields.piped BatchFields._result
       JobFields.set_type JobFields.set_operation JobFields.set_id
       JobFields.set_state JobFields.set_batches JobFields.set_jobInfo
       JobFields.type JobFields.operation JobFields.options JobFields.id
       JobFields.state JobFields._batches JobFields._jobInfo].

(** ** What is written *)

Lemma writeAll_eq records w :
  Batch.writeAll records w
  = (Normal tt,
     upd_batch (fun b => BatchFields.set_uploadStream
       (BatchFields._uploadStream b
        ++ map (fun r => CRecord (Batch.shape (JobFields.operation (job w))
                                    (Batch.coerce <$> r))) records) b) w).
Proof.
  revert w. induction records as [|r rs IH]; intros w.
  - destruct w as [? ? ? ? [] ? ? ? ? ? ? ? ? ?].
    unfold ret. world. cbn [map]. rewrite app_nil_r. reflexivity.
  - cbn [Batch.writeAll]. unfold Batch.write, bind.
    rewrite write_appends, IH.
    destruct w as [? ? ? ? [] ? ? ? ? ? ? ? ? ?].
    world. cbn [map]. rewrite <- app_assoc. reflexivity.
Qed.

Lemma execute_eq input w :
  BatchFields._result (batch w) = None ->
  Batch.execute input w = (Normal tt, executed input w).
Proof.
  intros H. unfold Batch.execute. unfold bind at 1, gets at 1. rewrite H.
  clear H.
  cbv [newPromise Batch.once onceBatch bind gets modify ret].
  destruct input as [|data|records|];
    cbv [Batch.end_ Batch.uploadWrite bind modify ret]; try rewrite writeAll_eq;
    destruct w as [? ? ? ? [] ? ? ? ? ? ? ? ? ?];
    unfold executed, chunksOf, onResponse, onError; world;
    rewrite <- ?app_assoc, ?app_nil_r; reflexivity.
Qed.

Lemma load_eq type operation optionsOrInput input w :
  Bulk.load type operation optionsOrInput input w
  = (Normal tt,
     executed (inputOf optionsOrInput input)
       (wired type operation (optionsOf optionsOrInput) w)).
Proof.
  rewrite <- execute_eq by reflexivity.
  destruct optionsOrInput; reflexivity.
Qed.

Lemma load_awaited type operation optionsOrInput input w :
  Awaited (length (promises w))
    (exec (Bulk.load type operation optionsOrInput input) w).
Proof.
  unfold exec. rewrite load_eq. simpl.
  exists [onResponse (length (promises w)); onError (length (promises w))].
  split; [reflexivity|]. split; [|split; [|split]].
  - constructor; [|constructor; [|constructor]].
    + split; [reflexivity|left]. split; [reflexivity|eexists; reflexivity].
    + split; [reflexivity|right]. split; [reflexivity|eexists; reflexivity].
  - left. reflexivity.
  - right. left. reflexivity.
  - unfold settledAt. simpl. rewrite lookup_app_r by lia.
    rewrite Nat.sub_diag. reflexivity.
Qed.

(** ** The listeners of [execute] *)

Lemma settle_runs q s w : settle q s w = (Normal tt, exec (settle q s) w).
Proof.
  destruct (settle_silent q s w) as (w' & E & _). unfold exec. rewrite E.
  reflexivity.
Qed.

Lemma settled_stays p s q s' w :
  settledAt p w = Some (Some s) ->
  settledAt p (exec (settle q s') w) = Some (Some s).
Proof.
  intros H. rewrite settledAt_settle, H. destruct (decide (p = q)); reflexivity.
Qed.

Lemma call_step l rest arg q s w :
  Listener.once l = true ->
  batchHandler (Listener.handler l) arg = settle q s ->
  callListeners offBatch batchHandler (l :: rest) arg w
  = callListeners offBatch batchHandler rest arg
      (exec (settle q s) (upd_batchListeners (removeListener l) w)).
Proof.
  intros Honce Hh. cbn [callListeners]. rewrite Honce, Hh, bind_modify.
  rewrite (exec_bind _ _ _ _ _ (settle_runs q s _)). reflexivity.
Qed.

Lemma call_resolve l rest arg q w :
  Listener.once l = true -> Listener.handler l = HResolve q ->
  callListeners offBatch batchHandler (l :: rest) arg w
  = callListeners offBatch batchHandler rest arg
      (exec (settle q (Fulfilled arg))
         (upd_batchListeners (removeListener l) w)).
Proof. intros Honce Hh. apply call_step; [exact Honce|rewrite Hh; reflexivity]. Qed.

Lemma call_reject l rest arg q w :
  Listener.once l = true -> Listener.handler l = HReject q ->
  callListeners offBatch batchHandler (l :: rest) arg w
  = callListeners offBatch batchHandler rest arg
      (exec (settle q (Rejected (errorOf arg)))
         (upd_batchListeners (removeListener l) w)).
Proof. intros Honce Hh. apply call_step; [exact Honce|rewrite Hh; reflexivity]. Qed.

Lemma call_results_settled ls arg p s w :
  Forall resultListener ls ->
  settledAt p w = Some (Some s) ->
  settledAt p (exec (callListeners offBatch batchHandler ls arg) w)
  = Some (Some s).
Proof.
  intros H. revert w. induction H as [|l rest Hl _ IH]; intros w Hp;
    [exact Hp|].
  destruct Hl as (Honce & [(_ & q & Hh) | (_ & q & Hh)]); unfold exec.
  - rewrite (call_resolve l rest arg q w Honce Hh).
    apply IH, settled_stays, Hp.
  - rewrite (call_reject l rest arg q w Honce Hh).
    apply IH, settled_stays, Hp.
Qed.

Lemma settle_pending p q s l w :
  settledAt p w = Some None ->
  settledAt p (exec (settle q s) (upd_batchListeners (removeListener l) w))
  = if decide (p = q) then Some (Some s) else Some None.
Proof.
  intros Hp. rewrite settledAt_settle.
  change (settledAt p (upd_batchListeners (removeListener l) w))
    with (settledAt p w).
  rewrite Hp. reflexivity.
Qed.

Lemma call_results_settles ls arg p w :
  Forall resultListener ls ->
  settledAt p w = Some None ->
  let w' := exec (callListeners offBatch batchHandler ls arg) w in
  (Forall (fun l => Listener.event l = "error") ls -> In (onError p) ls ->
   settledAt p w' = Some (Some (Rejected (errorOf arg))))
  /\ (Forall (fun l => Listener.event l = "response") ls ->
      In (onResponse p) ls ->
      settledAt p w' = Some (Some (Fulfilled arg))).
Proof.
  intros H. revert w. induction H as [|l rest Hl Hrest IH]; intros w Hp;
    [split; intros _ []|].
  cbv zeta.
  destruct Hl as (Honce & [(Hev & q & Hh) | (Hev & q & Hh)]); unfold exec.
  - rewrite (call_resolve l rest arg q w Honce Hh).
    pose proof (settle_pending p q (Fulfilled arg) l w Hp) as Hq.
    split.
    + intros Hall. apply Forall_cons in Hall as [He _]. congruence.
    + intros Hall Hin. apply Forall_cons in Hall as [_ Hall].
      destruct (decide (p = q)) as [->|Hne].
      * apply call_results_settled; [exact Hrest|exact Hq].
      * destruct Hin as [Hin|Hin].
        -- exfalso. apply Hne. rewrite Hin in Hh. injection Hh as ->.
           reflexivity.
        -- apply (IH _ Hq); assumption.
  - rewrite (call_reject l rest arg q w Honce Hh).
    pose proof (settle_pending p q (Rejected (errorOf arg)) l w Hp) as Hq.
    split.
    + intros Hall Hin. apply Forall_cons in Hall as [_ Hall].
      destruct (decide (p = q)) as [->|Hne].
      * apply call_results_settled; [exact Hrest|exact Hq].
      * destruct Hin as [Hin|Hin].
        -- exfalso. apply Hne. rewrite Hin in Hh. injection Hh as ->.
           reflexivity.
        -- apply (IH _ Hq); assumption.
    + intros Hall. apply Forall_cons in Hall as [He _]. congruence.
Qed.

Lemma listenersOf_wired event onces :
  listenersOf event (loadListeners ++ onces)
  = listenersOf event loadListeners ++ listenersOf event onces.
Proof. apply listenersOf_app. Qed.

Lemma listenersOf_event event ls :
  Forall (fun l => Listener.event l = event) (listenersOf event ls).
Proof.
  induction ls as [|l ls IH]; simpl; [constructor|].
  destruct (String.eqb_spec (Listener.event l) event);
    [constructor; assumption|assumption].
Qed.

Lemma listenersOf_In event l ls :
  In l ls -> Listener.event l = event -> In l (listenersOf event ls).
Proof.
  intros Hin Hev. unfold listenersOf. apply filter_In. split; [exact Hin|].
  apply String.eqb_eq, Hev.
Qed.

Lemma cleanupOnError_runs err w :
  exists w',
    cleanupOnError err w = (Normal tt, w')
    /\ spares (length (promises w)) w w'.
Proof.
  destruct (sparing_cleanupOnError (length (promises w)) err w (le_n _))
    as [S _].
  exists (exec (cleanupOnError err) w). split; [|exact S].
  unfold cleanupOnError, exec.
  destruct (negb _); [|reflexivity].
  destruct (cleanup_closes w) as (new & w' & E & _). rewrite E. reflexivity.
Qed.

Lemma cleanup_runs w :
  exists w', cleanup w = (Normal tt, w') /\ spares (length (promises w)) w w'.
Proof.
  destruct (cleanup_closes w) as (new & w' & E & _).
  exists w'. split; [exact E|].
  assert (S : sparing (length (promises w)) (@anyValue unit) cleanup).
  { unfold cleanup. repeat first [apply sparing_close | sparing_step]. }
  destruct (S w (le_n _)) as [S' _]. unfold exec in S'. rewrite E in S'.
  exact S'.
Qed.

(** On the batch of [load], an 'error' or a 'response' runs the listener of
    [load] and then what is left of the listeners of [execute]. *)
Lemma emit_wired event arg onces w :
  batchListeners w = loadListeners ++ onces ->
  Forall resultListener onces ->
  event = "error" \/ event = "response" ->
  exists w1,
    spares (length (promises w)) w w1
    /\ emitBatch event arg w
       = callListeners offBatch batchHandler (listenersOf event onces) arg w1.
Proof.
  intros E F Hev. rewrite emitBatch_log.
  set (w0 := upd_trace (cons (EEmit OnBatch event arg)) w).
  unfold dispatch. unfold bind at 1, gets at 1.
  change (batchListeners w0) with (batchListeners w).
  rewrite E, listenersOf_wired.
  destruct Hev as [-> | ->]; cbn [listenersOf loadListeners List.filter
    Listener.event String.eqb Ascii.eqb Bool.eqb app callListeners
    Listener.once Listener.handler batchHandler].
  - destruct (cleanupOnError_runs (errorOf arg) w0) as (w1 & E1 & S1).
    exists w1. split; [exact S1|].
    rewrite (exec_bind _ _ _ _ _ (eq_refl : ret tt w0 = (Normal tt, w0))).
    rewrite (exec_bind _ _ _ _ _ E1). reflexivity.
  - destruct (cleanup_runs w0) as (w1 & E1 & S1).
    exists w1. split; [exact S1|].
    rewrite (exec_bind _ _ _ _ _ (eq_refl : ret tt w0 = (Normal tt, w0))).
    rewrite (exec_bind _ _ _ _ _ E1). reflexivity.
Qed.

Lemma settledAt_lt p w x : settledAt p w = Some x -> (p < length (promises w))%nat.
Proof.
  unfold settledAt. intros H. apply fmap_Some in H as (c & Hc & _).
  apply lookup_lt_Some in Hc. exact Hc.
Qed.

Lemma emit_error_awaited p err w :
  Awaited p w ->
  settledAt p (exec (emitBatch "error" (VError err)) w)
  = Some (Some (Rejected err)).
Proof.
  intros (onces & E & F & _ & Hin & Hp).
  destruct (emit_wired "error" (VError err) onces w E F (or_introl eq_refl))
    as (w1 & [_ S1] & E1).
  unfold exec. rewrite E1.
  apply (call_results_settles _ (VError err) p w1).
  - apply listenersOf_Forall, F.
  - rewrite S1 by (eapply settledAt_lt, Hp). exact Hp.
  - apply listenersOf_event.
  - apply listenersOf_In; [exact Hin|reflexivity].
Qed.

Lemma emit_response_awaited p v w :
  Awaited p w ->
  settledAt p (exec (emitBatch "response" v) w) = Some (Some (Fulfilled v)).
Proof.
  intros (onces & E & F & Hin & _ & Hp).
  destruct (emit_wired "response" v onces w E F (or_intror eq_refl))
    as (w1 & [_ S1] & E1).
  unfold exec. rewrite E1.
  apply (call_results_settles _ v p w1).
  - apply listenersOf_Forall, F.
  - rewrite S1 by (eapply settledAt_lt, Hp). exact Hp.
  - apply listenersOf_event.
  - apply listenersOf_In; [exact Hin|reflexivity].
Qed.

Lemma emit_settled_stays p s event arg w :
  LoadWired w ->
  event = "error" \/ event = "response" ->
  settledAt p w = Some (Some s) ->
  settledAt p (exec (emitBatch event arg) w) = Some (Some s).
Proof.
  intros (onces & E & F) Hev Hp.
  destruct (emit_wired event arg onces w E F Hev) as (w1 & [_ S1] & E1).
  unfold exec. rewrite E1.
  apply (call_results_settled _ arg p s w1); [apply listenersOf_Forall, F|].
  rewrite S1 by (eapply settledAt_lt, Hp). exact Hp.
Qed.

(** ** Bulk.load *)

Lemma load_loading type operation optionsOrInput input w :
  Loading (length (promises w))
    (exec (Bulk.load type operation optionsOrInput input) w).
Proof.
  split; [apply load_awaited|]. unfold exec. rewrite load_eq.
  split; reflexivity.
Qed.

(** X1: [load(type, operation, optionsOrInput, input)] never throws and sends
    nothing by itself.  It leaves a new job for [type], [operation] and the
    options, with no identity, state [Unknown] and no cached promise; a new
    batch that holds the input as [execute] wrote it, ended for records and
    for a string, piped for a stream, with the new promise [p] as its
    result; the listeners of [load] and of [execute] on the batch, and the
    job's first 'error' forwarded to it.  No effect, awaited response, timer
    or queued reaction is added.  When the third argument is the input, the
    fourth is ignored and the options are the default ones. *)
Theorem load_sets_up (type operation : string)
    (optionsOrInput : OptionsOrInput) (input : Input) (w : World) :
  let w' := exec (Bulk.load type operation optionsOrInput input) w in
  let p := length (promises w) in
  eval (Bulk.load type operation optionsOrInput input) w = Normal tt
  /\ job w' = Job.constructor (Some type) (Some operation)
                (optionsOf optionsOrInput) None
  /\ (JobFields.id (job w') = None
      /\ JobFields.state (job w') = JobState.Unknown
      /\ JobFields._jobInfo (job w') = None)
  /\ batch w' = BatchFields.make None
                  (chunksOf (Some operation) (inputOf optionsOrInput input))
                  (match inputOf optionsOrInput input with
                   | InRecords _ | InString _ => true
                   | _ => false
                   end)
                  true
                  (match inputOf optionsOrInput input with
                   | InReadable => true
                   | _ => false
                   end)
                  (Some p)
  /\ Loading p w'
  /\ (trace w' = trace w /\ awaiting w' = awaiting w /\ timers w' = timers w
      /\ microtasks w' = microtasks w)
  /\ forall input' ignored,
       Bulk.load type operation (NotOptions input') ignored w
       = Bulk.load type operation (Options None) input' w.
Proof.
  cbv zeta. unfold exec, eval. rewrite load_eq.
  split; [reflexivity|]. split; [reflexivity|]. split; [repeat split|].
  split; [destruct (inputOf optionsOrInput input); reflexivity|].
  split.
  { pose proof (load_loading type operation optionsOrInput input w) as H.
    unfold exec in H. rewrite load_eq in H. exact H. }
  split; [repeat split|].
  intros input' ignored. rewrite !load_eq. reflexivity.
Qed.

(** ** The promise of [execute] *)

(** X2: while the promise [execute] made for the batch of [load] is pending
    with both its listeners on, an 'error' event on the batch rejects it
    with the error, a 'response' event fulfils it with the results, and a
    poll tick past the deadline rejects it with the polling timeout.  Once
    it is settled, later 'error' and 'response' events leave it as it is. *)
Theorem load_promise_settles (p : nat) (w : World) :
  Awaited p w ->
  (forall err,
     settledAt p (exec (emitBatch "error" (VError err)) w)
     = Some (Some (Rejected err)))
  /\ (forall results,
        settledAt p (exec (emitBatch "response" results) w)
        = Some (Some (Fulfilled results)))
  /\ (forall l,
        PollLoop.startTime l + PollLoop.timeout l < clock w ->
        settledAt p (exec (pollTick l) w)
        = Some (Some (Rejected (timeoutError l))))
  /\ forall event arg w1 s,
       LoadWired w1 -> event = "error" \/ event = "response" ->
       settledAt p w1 = Some (Some s) ->
       settledAt p (exec (emitBatch event arg) w1) = Some (Some s).
Proof.
  intros H. split; [|split; [|split]].
  - intros err. apply emit_error_awaited, H.
  - intros results. apply emit_response_awaited, H.
  - intros l Hl. unfold exec. rewrite (tick_past_deadline l w Hl).
    apply emit_error_awaited, H.
  - intros event arg w1 s. apply emit_settled_stays.
Qed.

Lemma run_pair {A} (m : M A) w : m w = (eval m w, exec m w).
Proof. unfold eval, exec. destruct (m w). reflexivity. Qed.

Lemma exec_try {A B} (m : M A) (k : Completion A -> M B) w :
  bind (try m) k w = k (eval m w) (exec m w).
Proof. apply bind_try, run_pair. Qed.

Lemma exec_seq {A B} (m : M A) (k : A -> M B) w a w' :
  m w = (Normal a, w') -> exec (bind m k) w = exec (k a) w'.
Proof. intros H. unfold exec. rewrite (exec_bind _ _ _ _ _ H). reflexivity. Qed.

Lemma toplevel_normal m w w' :
  m w = (Normal tt, w') -> exec (toplevel m) w = w'.
Proof. intros H. unfold exec, toplevel. rewrite (bind_try _ _ _ _ _ H). reflexivity. Qed.

Lemma awaited_same p w w' :
  batchListeners w' = batchListeners w -> promises w' = promises w ->
  Awaited p w -> Awaited p w'.
Proof.
  intros Hb Hp (onces & E & F & I1 & I2 & S). exists onces.
  rewrite Hb. unfold settledAt. rewrite Hp. repeat split; assumption.
Qed.

(** The listeners of [execute] never throw. *)
Lemma call_results_normal ls arg w :
  Forall resultListener ls ->
  eval (callListeners offBatch batchHandler ls arg) w = Normal tt.
Proof.
  intros H. destruct (call_results ls arg w H) as (w' & E & _).
  unfold eval. rewrite E. reflexivity.
Qed.

Lemma emit_wired_normal event arg w :
  LoadWired w -> event = "error" \/ event = "response" ->
  emitBatch event arg w = (Normal tt, exec (emitBatch event arg) w).
Proof.
  intros (onces & E & F) Hev.
  destruct (emit_wired event arg onces w E F Hev) as (w1 & _ & E1).
  rewrite (run_pair (emitBatch event arg) w). f_equal.
  unfold eval. rewrite E1. apply call_results_normal, listenersOf_Forall, F.
Qed.

Lemma awaited_wired p w : Awaited p w -> LoadWired w.
Proof. intros (onces & E & F & _). exists onces. split; assumption. Qed.

(** The job's first 'error' goes to the batch of [load]. *)
Lemma emitJob_forwards arg w :
  jobListeners w = [Listener.make "error" HForwardToBatch true] ->
  loadBatch w = true ->
  emitJob "error" arg w
  = (emitBatch "error" arg ;; ret tt)
      (upd_jobListeners
         (removeListener (Listener.make "error" HForwardToBatch true))
         (upd_trace (cons (EEmit OnJob "error" arg)) w)).
Proof.
  intros Hj Hl. unfold emitJob, emitOn, log. rewrite bind_modify.
  unfold dispatch. unfold bind at 1, gets at 1.
  change (jobListeners (upd_trace _ w)) with (jobListeners w). rewrite Hj.
  cbn [listenersOf List.filter Listener.event String.eqb Ascii.eqb Bool.eqb
       callListeners Listener.once Listener.handler jobHandler].
  rewrite bind_modify. cbv [bind gets].
  change (loadBatch (upd_jobListeners _ (upd_trace _ w))) with (loadBatch w).
  rewrite Hl. reflexivity.
Qed.

Lemma job_error_forwarded p q err w :
  Loading p w ->
  exists w1 new,
    catchEmit emitJob q err w = settle q (Rejected err) w1
    /\ settledAt p w1 = Some (Some (Rejected err))
    /\ trace w1 = new ++ EEmit OnBatch "error" (VError err)
                    :: EEmit OnJob "error" (VError err) :: trace w.
Proof.
  intros (Ha & Hl & Hj).
  set (w0 := upd_jobListeners
               (removeListener (Listener.make "error" HForwardToBatch true))
               (upd_trace (cons (EEmit OnJob "error" (VError err))) w)).
  assert (Ha0 : Awaited p w0) by (apply (awaited_same p w); [reflexivity..|exact Ha]).
  pose proof (emit_wired_normal "error" (VError err) w0 (awaited_wired p w0 Ha0)
                (or_introl eq_refl)) as En.
  destruct (emitBatch_grows anyEffect "error" (VError err) w0 any_quiet)
    as (new & Et & _).
  exists (exec (emitBatch "error" (VError err)) w0), new.
  split; [|split; [apply emit_error_awaited, Ha0|exact Et]].
  unfold catchEmit. rewrite exec_try.
  unfold eval, exec. rewrite (emitJob_forwards _ w Hj Hl).
  fold w0. rewrite (exec_bind _ _ _ _ _ En). reflexivity.
Qed.

(** X3: while the batch of [load] is live, a failure of the job reaches it:
    when [open], [close] or [abort] resumes with a failure, the promise of
    the batch is rejected with that error; and when the remote rejects the
    open request, the 'error' event of the job is followed by an 'error'
    event on the batch with the same error. *)
Theorem job_error_reaches_batch (p : nat) (w : World) :
  Loading p w ->
  (forall q err k,
     k = KOpen q \/ k = KClose q \/ k = KAbort q ->
     settledAt p (exec (resume k (Rejected err)) w)
     = Some (Some (Rejected err)))
  /\ forall r q err,
       awaiting w !! r = Some (KOpen q) ->
       let w' := step (Respond r (Rejected err)) w in
       settledAt p w' = Some (Some (Rejected err))
       /\ exists new,
            trace w' = new ++ EEmit OnBatch "error" (VError err)
                         :: EEmit OnJob "error" (VError err) :: trace w.
Proof.
  intros H. split.
  - intros q err k Hk.
    destruct (job_error_forwarded p q err w H) as (w1 & new & E & S & _).
    assert (Ek : resume k (Rejected err) w = catchEmit emitJob q err w)
      by (destruct Hk as [Hk|[Hk|Hk]]; rewrite Hk; reflexivity).
    unfold exec. rewrite Ek, E. apply settled_stays, S.
  - intros r q err Hr. cbv zeta. rewrite (respond_runs r _ _ w Hr).
    set (w0 := upd_awaiting (delete r) w).
    assert (H0 : Loading p w0).
    { destruct H as (Ha & Hl & Hj). split; [|split; assumption].
      apply (awaited_same p w); [reflexivity..|exact Ha]. }
    destruct (job_error_forwarded p q err w0 H0) as (w1 & new & E & S & T).
    rewrite (toplevel_normal _ w0 (exec (settle q (Rejected err)) w1)).
    2: { change (resume (KOpen q) (Rejected err) w0)
           with (catchEmit emitJob q err w0).
         rewrite E. apply settle_runs. }
    split; [apply settled_stays, S|].
    exists new. destruct (settle_silent q (Rejected err) w1) as (w2 & E2 & S2).
    unfold exec. rewrite E2. simpl. destruct S2 as [-> _]. exact T.
Qed.

(** ** A batch that has not started *)

Lemma truthy_Some s : s <> "" -> JS.truthy (Some s) = true.
Proof.
  intros H. simpl. destruct (String.eqb_spec s ""); [contradiction|reflexivity].
Qed.

Lemma started_eq w jobId batchId :
  JobFields.id (job w) = Some jobId -> BatchFields.id (batch w) = Some batchId ->
  jobId <> "" -> batchId <> "" ->
  Batch.started w = Some (jobId, batchId).
Proof.
  intros Hj Hb Hjn Hbn. unfold Batch.started.
  rewrite Hj, Hb, (truthy_Some _ Hjn), (truthy_Some _ Hbn). reflexivity.
Qed.

Lemma started_none w :
  JS.truthy (JobFields.id (job w)) = false
  \/ JS.truthy (BatchFields.id (batch w)) = false ->
  Batch.started w = None.
Proof.
  unfold Batch.started.
  destruct (JobFields.id (job w)) as [j|], (BatchFields.id (batch w)) as [b|];
    try reflexivity.
  intros [H|H]; rewrite H; [reflexivity|rewrite andb_false_r; reflexivity].
Qed.

Lemma bind_newPromise {B} (k : nat -> M B) w :
  bind newPromise k w
  = k (length (promises w)) (upd_promises (fun ps => ps ++ [Cell.pending]) w).
Proof. reflexivity. Qed.

Lemma bind_gets {A B} (f : World -> A) (k : A -> M B) w :
  bind (gets f) k w = k (f w) w.
Proof. reflexivity. Qed.

Lemma bind_settle {B} q s (k : unit -> M B) w :
  bind (settle q s) k w = k tt (exec (settle q s) w).
Proof. apply exec_bind, settle_runs. Qed.

Lemma settledAt_fresh s w :
  settledAt (length (promises w))
    (exec (settle (length (promises w)) s)
       (upd_promises (fun ps => ps ++ [Cell.pending]) w))
  = Some (Some s).
Proof.
  rewrite settledAt_settle. destruct (decide _); [|congruence].
  unfold settledAt. simpl. rewrite lookup_app_r by lia.
  rewrite Nat.sub_diag. reflexivity.
Qed.

Lemma settle_fresh_silent s w :
  silent w (exec (settle (length (promises w)) s)
              (upd_promises (fun ps => ps ++ [Cell.pending]) w)).
Proof.
  destruct (settle_silent (length (promises w)) s
              (upd_promises (fun ps => ps ++ [Cell.pending]) w))
    as (w' & E & S).
  unfold exec. rewrite E. exact S.
Qed.

(** X4: while the job or the batch has no identity, [poll] and [result]
    throw 'Batch not started.' and change nothing, and [check] and
    [retrieve] return a new promise that is already rejected with that
    error.  None of them sends a request. *)
Theorem not_started_guards (w : World) :
  JS.truthy (JobFields.id (job w)) = false
  \/ JS.truthy (BatchFields.id (batch w)) = false ->
  (forall interval timeout,
     Batch.poll interval timeout w = (Throw Batch.notStarted, w))
  /\ (forall resultId, Batch.result resultId w = (Throw Batch.notStarted, w))
  /\ (let p := length (promises w) in
      let w' := exec Batch.check w in
      eval Batch.check w = Normal p
      /\ settledAt p w' = Some (Some (Rejected Batch.notStarted))
      /\ trace w' = trace w /\ awaiting w' = awaiting w)
  /\ (let p := length (promises w) in
      let w' := exec Batch.retrieve w in
      eval Batch.retrieve w = Normal p
      /\ settledAt p w' = Some (Some (Rejected Batch.notStarted))
      /\ trace w' = ECall BatchRetrieve :: trace w
      /\ awaiting w' = awaiting w).
Proof.
  intros H. pose proof (started_none w H) as Hs.
  split; [|split; [|split]].
  - intros interval timeout. unfold Batch.poll. rewrite bind_gets, Hs.
    reflexivity.
  - intros resultId. unfold Batch.result, Batch.resultOf.
    rewrite !bind_gets.
    destruct H as [-> | ->]; [reflexivity|]. rewrite orb_true_r. reflexivity.
  - cbv zeta. unfold eval, exec, Batch.check.
    rewrite bind_newPromise, bind_gets.
    change (Batch.started (upd_promises _ w)) with (Batch.started w).
    rewrite Hs, bind_settle. simpl.
    split; [reflexivity|]. split; [apply settledAt_fresh|].
    destruct (settle_fresh_silent (Rejected Batch.notStarted) w)
      as (Ht & _ & Ha & _).
    split; assumption.
  - cbv zeta. unfold eval, exec, Batch.retrieve, log.
    rewrite bind_modify, bind_newPromise, bind_gets.
    change (Batch.started (upd_promises _ (upd_trace _ w)))
      with (Batch.started w).
    rewrite Hs, bind_settle. simpl.
    split; [reflexivity|].
    set (w0 := upd_trace (cons (ECall BatchRetrieve)) w).
    split; [apply (settledAt_fresh _ w0)|].
    destruct (settle_fresh_silent (Rejected Batch.notStarted) w0)
      as (Ht & _ & Ha & _).
    split; assumption.
Qed.

(** ** The poll loop *)

Lemma tick_within_deadline l w :
  clock w <= PollLoop.startTime l + PollLoop.timeout l ->
  pollTick l w = (p <- Batch.check ;; await p (KPoll l)) w.
Proof.
  intros H. unfold pollTick, getTime. rewrite bind_gets.
  destruct (Z.ltb_spec (PollLoop.startTime l + PollLoop.timeout l) (clock w));
    [lia|reflexivity].
Qed.

Lemma poll_eq interval timeout jobId batchId w :
  Batch.started w = Some (jobId, batchId) ->
  Batch.poll interval timeout w
  = (Normal tt,
     upd_timers
       (fun ts => ts ++ [PollLoop.make (clock w) timeout interval jobId batchId])
       w).
Proof. intros H. unfold Batch.poll. rewrite bind_gets, H. reflexivity. Qed.

Lemma listenersOf_results event onces :
  Forall resultListener onces ->
  event <> "response" -> event <> "error" ->
  listenersOf event onces = [].
Proof.
  intros F Hr He. induction F as [|l ls Hl _ IH]; [reflexivity|].
  simpl. destruct (String.eqb_spec (Listener.event l) event) as [E|_];
    [|exact IH].
  destruct Hl as (_ & [(Hev & _) | (Hev & _)]); congruence.
Qed.

(** Nobody in the program listens to 'progress'. *)
Lemma emit_progress arg w :
  LoadWired w ->
  emitBatch "progress" arg w
  = (Normal tt, upd_trace (cons (EEmit OnBatch "progress" arg)) w).
Proof.
  intros (onces & E & F). rewrite emitBatch_log. unfold dispatch.
  rewrite bind_gets.
  change (batchListeners (upd_trace _ w)) with (batchListeners w).
  rewrite E, listenersOf_wired, (listenersOf_results "progress" onces F)
    by discriminate.
  reflexivity.
Qed.

(** X5: a poll tick within the deadline sends the check request of the batch
    and waits for its answer, setting no timer.  When the answer reports a
    state other than [Failed] and [Completed], the batch of [load] emits
    'progress' with it and the same poll is timed again, its start time and
    deadline unchanged; when it reports [Completed], [retrieve] is called. *)
Theorem poll_continues (w : World) (l : PollLoop.t) :
  (clock w <= PollLoop.startTime l + PollLoop.timeout l ->
   forall jobId batchId,
     Batch.started w = Some (jobId, batchId) ->
     let w' := exec (pollTick l) w in
     eval (pollTick l) w = Normal tt
     /\ trace w' = ERequest (nextRequest w) (checkRequest jobId batchId)
                    :: trace w
     /\ awaiting w' !! nextRequest w = Some (KBatchCheck (length (promises w)))
     /\ promises w' = promises w ++ [Cell.make None [KPoll l]]
     /\ timers w' = timers w)
  /\ (forall res,
        LoadWired w ->
        BatchInfo.state res <> BatchState.Failed ->
        BatchInfo.state res <> BatchState.Completed ->
        resume (KPoll l) (Fulfilled (VBatchInfo res)) w
        = (Normal tt,
           upd_timers (fun ts => ts ++ [l])
             (upd_trace (cons (EEmit OnBatch "progress" (VBatchInfo res))) w)))
  /\ (forall res,
        BatchInfo.state res = BatchState.Completed ->
        resume (KPoll l) (Fulfilled (VBatchInfo res)) w
        = (_ <- Batch.retrieve ;; ret tt) w).
Proof.
  split; [|split].
  - intros Hd jobId batchId Hs. cbv zeta. unfold eval, exec.
    rewrite (tick_within_deadline l w Hd). unfold Batch.check.
    cbv [bind newPromise gets modify ret request log].
    change (Batch.started (upd_promises _ w)) with (Batch.started w).
    rewrite Hs. unfold await. cbv [bind gets modify ret]. simpl.
    rewrite lookup_app_r by lia. rewrite Nat.sub_diag. simpl.
    split; [reflexivity|]. split; [reflexivity|].
    split; [apply lookup_insert_eq|]. split; [|reflexivity].
    rewrite insert_app_r_alt by lia. rewrite Nat.sub_diag. reflexivity.
  - intros res W Hf Hc. unfold resume.
    destruct (BatchInfo.state res) eqn:E; try congruence;
      rewrite (exec_bind _ _ _ _ _ (emit_progress (VBatchInfo res) w W));
      reflexivity.
  - intros res Hc. unfold resume. rewrite Hc. reflexivity.
Qed.

(** ** The batch is queued *)

Lemma bind_assoc {A B C} (m : M A) (k1 : A -> M B) (k2 : B -> M C) w :
  bind (bind m k1) k2 w = bind m (fun a => bind (k1 a) k2) w.
Proof. unfold bind. destruct (m w) as [[a|e] w']; reflexivity. Qed.

(** On the batch of [load], 'queue' runs the listener of [createBatch] and
    then the listener of [load]. *)
Lemma emit_queue arg w :
  LoadWired w ->
  emitBatch "queue" arg w
  = (batchHandler HRegisterBatch arg ;; batchHandler HPollOnQueue arg ;; ret tt)
      (upd_trace (cons (EEmit OnBatch "queue" arg)) w).
Proof.
  intros (onces & E & F). rewrite emitBatch_log. unfold dispatch.
  rewrite bind_gets.
  change (batchListeners (upd_trace _ w)) with (batchListeners w).
  rewrite E, listenersOf_wired, (listenersOf_results "queue" onces F)
    by discriminate.
  reflexivity.
Qed.

Lemma queue_eq batchInfo jobId w :
  LoadWired w -> loadBatch w = true ->
  JobFields.id (job w) = Some jobId -> jobId <> "" ->
  BatchInfo.id batchInfo <> "" ->
  resume KQueue (Fulfilled (VBatchInfo batchInfo)) w
  = (Normal tt, queued batchInfo jobId w).
Proof.
  intros W Hl Hj Hjn Hbn. unfold resume.
  set (w1 := upd_batch (BatchFields.set_id (Some (BatchInfo.id batchInfo))) w).
  assert (W1 : LoadWired w1) by exact W.
  assert (E : (modify (upd_batch
                 (BatchFields.set_id (Some (BatchInfo.id batchInfo)))) ;;
               emitBatch "queue" (VBatchInfo batchInfo)) w
              = (Normal tt, queued batchInfo jobId w)).
  { rewrite bind_modify. fold w1. rewrite (emit_queue _ w1 W1).
    set (w2 := upd_trace _ w1).
    erewrite exec_bind by reflexivity.
    set (w3 := upd_job _ w2).
    unfold batchHandler. rewrite bind_assoc, bind_gets.
    change (loadBatch w3) with (loadBatch w). rewrite Hl.
    repeat first [rewrite bind_assoc | rewrite bind_gets].
    assert (Hs : Batch.started w3 = Some (jobId, BatchInfo.id batchInfo)).
    { apply started_eq; [exact Hj|reflexivity|exact Hjn|exact Hbn]. }
    rewrite (exec_bind _ _ _ _ _ (poll_eq _ _ _ _ w3 Hs)). reflexivity. }
  rewrite (bind_try _ _ _ _ _ E). reflexivity.
Qed.

(** X6: when the remote has accepted the upload of a batch wired by [load],
    the batch takes the identity of the answer, the job records it under
    [_batches] and the batch emits 'queue'.  As long as the batch is still
    the one of [load], one poll is timed for it, with the [pollInterval] and
    [pollTimeout] of the facade and starting at the present time; once
    [load] has let the batch go, no timer is set. *)
Theorem queued_batch_is_polled (w : World) (batchInfo : BatchInfo.t)
    (jobId : string) :
  LoadWired w ->
  JobFields.id (job w) = Some jobId -> jobId <> "" ->
  BatchInfo.id batchInfo <> "" ->
  let batchId := BatchInfo.id batchInfo in
  let w' := exec (resume KQueue (Fulfilled (VBatchInfo batchInfo))) w in
  eval (resume KQueue (Fulfilled (VBatchInfo batchInfo))) w = Normal tt
  /\ BatchFields.id (batch w') = Some batchId
  /\ batchId ∈ JobFields._batches (job w')
  /\ trace w' = EEmit OnBatch "queue" (VBatchInfo batchInfo) :: trace w
  /\ (loadBatch w = true ->
      timers w' = timers w ++ [PollLoop.make (clock w) (pollTimeout w)
                                 (pollInterval w) jobId batchId])
  /\ (loadBatch w = false -> timers w' = timers w).
Proof.
  intros W Hj Hjn Hbn. cbv zeta.
  destruct (loadBatch w) eqn:Hl.
  - unfold eval, exec. rewrite (queue_eq batchInfo jobId w W Hl Hj Hjn Hbn).
    simpl. repeat split; try discriminate.
    apply elem_of_union_l, elem_of_singleton. reflexivity.
  - unfold eval, exec, resume.
    set (w1 := upd_batch (BatchFields.set_id (Some (BatchInfo.id batchInfo))) w).
    assert (W1 : LoadWired w1) by exact W.
    assert (E : (modify (upd_batch
                   (BatchFields.set_id (Some (BatchInfo.id batchInfo)))) ;;
                 emitBatch "queue" (VBatchInfo batchInfo)) w
                = (Normal tt,
                   upd_job (fun j => JobFields.set_batches
                     ({[ BatchInfo.id batchInfo ]} ∪ JobFields._batches j) j)
                     (upd_trace
                        (cons (EEmit OnBatch "queue" (VBatchInfo batchInfo)))
                        w1))).
    { rewrite bind_modify. fold w1. rewrite (emit_queue _ w1 W1).
      erewrite exec_bind by reflexivity.
      unfold batchHandler. rewrite bind_assoc, bind_gets.
      change (loadBatch (upd_job _ (upd_trace _ w1))) with (loadBatch w).
      rewrite Hl. reflexivity. }
    rewrite (bind_try _ _ _ _ _ E).
    simpl. repeat split; try discriminate.
    apply elem_of_union_l, elem_of_singleton. reflexivity.
Qed.

(** ** Batch.execute: the records of an array *)

Lemma coerce_not_bool v b : Batch.coerce v <> FBool b.
Proof. destruct v as [| |[]| |]; discriminate. Qed.

(** A field of the shaped record is a field of the input, or the [Id] the
    input has not. *)
Lemma shape_field operation record_ k v :
  Batch.shape operation record_ !! k = Some v ->
  record_ !! k = Some v \/ (k = "Id" /\ record_ !! "Id" = None /\ v = FUndefined).
Proof.
  unfold Batch.shape.
  assert (Hid : forall m : Rec,
            (<["Id" := default FUndefined (record_ !! "Id")]> m) !! k = Some v ->
            m !! k = Some v /\ k <> "Id"
            \/ record_ !! k = Some v
            \/ (k = "Id" /\ record_ !! "Id" = None /\ v = FUndefined)).
  { intros m H. destruct (decide (k = "Id")) as [->|Hne].
    - rewrite lookup_insert_eq in H. injection H as <-.
      destruct (record_ !! "Id") as [x|]; [right; left|right; right]; auto.
    - rewrite lookup_insert_ne in H by congruence. left. auto. }
  assert (Hdel : forall k', (delete "Id" (delete "type" (delete "attributes" record_)))
                   !! k' = Some v -> record_ !! k' = Some v).
  { intros k' H. apply lookup_delete_Some in H as [_ H].
    apply lookup_delete_Some in H as [_ H].
    apply lookup_delete_Some in H as [_ H]. exact H. }
  destruct (Batch.operationIs operation "insert").
  - intros H. left. apply Hdel, H.
  - destruct (_ || _).
    + intros H. destruct (Hid ∅ H) as [[H' _]|[H'|H']]; [|auto..].
      rewrite lookup_empty in H'. discriminate.
    + intros H. destruct (Hid _ H) as [[H' _]|[H'|H']]; [|auto..].
      left. apply Hdel, H'.
Qed.

Lemma shape_coerced_not_bool operation record k b :
  Batch.shape operation (Batch.coerce <$> record) !! k <> Some (FBool b).
Proof.
  intros H. apply shape_field in H as [H|(_ & _ & H)]; [|discriminate].
  rewrite lookup_fmap in H. destruct (record !! k) as [v|]; [|discriminate].
  injection H as H. exact (coerce_not_bool v b H).
Qed.

(** X7: [execute(records)] on a batch not executed before writes one record
    per element, in the order of the array, after what the stream already
    holds: the element with its boolean fields turned into the strings
    'true' and 'false', shaped by [_write] for the job's operation.  It ends
    the stream and sends nothing.  No record written has a boolean field,
    and, unless the operation is [delete] or [hardDelete], every field of
    the element other than [Id], [type] and [attributes] is written with its
    value coerced. *)
Theorem execute_writes_records (w : World) (records : list Rec) :
  BatchFields._result (batch w) = None ->
  let operation := JobFields.operation (job w) in
  let w' := exec (Batch.execute (InRecords records)) w in
  eval (Batch.execute (InRecords records)) w = Normal tt
  /\ BatchFields._uploadStream (batch w')
     = BatchFields._uploadStream (batch w)
       ++ map (fun r => CRecord (Batch.shape operation (Batch.coerce <$> r)))
            records
  /\ BatchFields.ended (batch w') = true
  /\ (trace w' = trace w /\ awaiting w' = awaiting w)
  /\ (forall i record,
        records !! i = Some record ->
        exists written,
          BatchFields._uploadStream (batch w')
            !! (length (BatchFields._uploadStream (batch w)) + i)%nat
          = Some (CRecord written)
          /\ (forall k b, written !! k <> Some (FBool b))
          /\ forall k, k <> "Id" -> k <> "type" -> k <> "attributes" ->
               operation <> Some "delete" -> operation <> Some "hardDelete" ->
               written !! k = Batch.coerce <$> record !! k).
Proof.
  intros H. cbv zeta. unfold eval, exec. rewrite (execute_eq _ w H). simpl.
  split; [reflexivity|]. split; [reflexivity|]. split; [reflexivity|].
  split; [split; reflexivity|].
  intros i record Hi.
  exists (Batch.shape (JobFields.operation (job w)) (Batch.coerce <$> record)).
  split; [|split].
  - rewrite lookup_app_r by lia.
    replace (_ + i - _)%nat with i by lia.
    change (map ?f records) with (f <$> records).
    rewrite list_lookup_fmap, Hi. reflexivity.
  - intros k b. apply shape_coerced_not_bool.
  - intros k Hk Ht Ha Hd Hh. unfold Batch.shape.
    apply operationIs_false in Hd, Hh. rewrite Hd, Hh. simpl.
    destruct (Batch.operationIs _ "insert").
    + rewrite !lookup_delete_ne by congruence. apply lookup_fmap.
    + rewrite lookup_insert_ne by congruence.
      rewrite !lookup_delete_ne by congruence. apply lookup_fmap.
Qed.

(** ** Promises, step by step *)

Lemma await_pending q k ks w :
  promises w !! q = Some (Cell.make None ks) ->
  await q k w
  = (Normal tt,
     upd_promises (fun ps => <[q := Cell.make None (ks ++ [k])]> ps) w).
Proof. intros H. unfold await. rewrite bind_gets, H. reflexivity. Qed.

Lemma await_settled q k s ks w :
  promises w !! q = Some (Cell.make (Some s) ks) ->
  await q k w = (Normal tt, upd_microtasks (fun m => m ++ [(k, s)]) w).
Proof. intros H. unfold await. rewrite bind_gets, H. reflexivity. Qed.

Lemma settle_pending_eq q s ks w :
  promises w !! q = Some (Cell.make None ks) ->
  settle q s w
  = (Normal tt,
     upd_microtasks (fun m => m ++ map (fun k => (k, s)) ks)
       (upd_promises (fun ps => <[q := Cell.make (Some s) []]> ps) w)).
Proof. intros H. unfold settle. rewrite bind_gets, H. reflexivity. Qed.

Lemma lookup_new {A} (l : list A) x : (l ++ [x]) !! length l = Some x.
Proof. rewrite lookup_app_r by lia. rewrite Nat.sub_diag. reflexivity. Qed.

Lemma insert_new {A} (l : list A) x y : <[length l := y]> (l ++ [x]) = l ++ [y].
Proof. rewrite insert_app_r_alt by lia. rewrite Nat.sub_diag. reflexivity. Qed.

Lemma world_eta w :
  mkWorld (clock w) (pollInterval w) (pollTimeout w) (job w) (batch w)
    (loadBatch w) (jobListeners w) (batchListeners w) (promises w)
    (microtasks w) (awaiting w) (nextRequest w) (timers w) (trace w) = w.
Proof. destruct w. reflexivity. Qed.

Lemma resolved_eq v w :
  resolved v w = (Normal (length (promises w)), withResolved v w).
Proof.
  unfold resolved. rewrite bind_newPromise.
  erewrite exec_bind by (apply settle_pending_eq, lookup_new).
  unfold ret, withResolved. destruct w. world. cbn [map].
  rewrite insert_new, app_nil_r. reflexivity.
Qed.

(** ** Batch.then *)

Lemma then_executed f g p w :
  BatchFields._result (batch w) = Some p ->
  Batch.then_ f g w
  = (Normal (length (promises w)),
     exec (await p (KThen (length (promises w)) f g))
       (upd_promises (fun ps => ps ++ [Cell.pending]) w)).
Proof.
  intros E. unfold Batch.then_. rewrite bind_gets, E.
  cbv [bind ret gets]. rewrite E.
  change (newPromise w)
    with (Normal (length (promises w)),
          upd_promises (fun ps => ps ++ [Cell.pending]) w).
  cbv beta iota. unfold exec.
  destruct (total_await p (KThen (length (promises w)) f g)
              (upd_promises (fun ps => ps ++ [Cell.pending]) w))
    as (a & w' & Ew).
  rewrite Ew. reflexivity.
Qed.

Lemma then_first f g w :
  BatchFields._result (batch w) = None ->
  Batch.then_ f g w
  = (Normal (S (length (promises w))),
     upd_promises
       (fun ps => <[length (promises w) :=
                      Cell.make None [KThen (S (length (promises w))) f g]]> ps)
       (upd_promises (fun ps => ps ++ [Cell.pending]) (executed InNone w))).
Proof.
  intros E. unfold Batch.then_. rewrite bind_gets, E.
  rewrite (exec_bind _ _ _ _ _ (execute_eq InNone w E)).
  rewrite bind_gets.
  change (BatchFields._result (batch (executed InNone w)))
    with (Some (length (promises w))).
  cbv beta iota. rewrite bind_newPromise.
  assert (L : length (promises (executed InNone w)) = S (length (promises w))).
  { unfold executed. cbn [promises upd_batch upd_batchListeners upd_promises].
    rewrite length_app. simpl. lia. }
  rewrite L.
  erewrite exec_bind.
  2: { apply (await_pending _ _ []).
       unfold executed.
       cbn [promises upd_batch upd_batchListeners upd_promises].
       rewrite lookup_app_l by (rewrite length_app; simpl; lia).
       apply lookup_new. }
  reflexivity.
Qed.

(** [await] touches the promises and the queue, nothing else. *)
Lemma await_keeps p k w :
  silent w (exec (await p k) w)
  /\ batchListeners (exec (await p k) w) = batchListeners w.
Proof.
  unfold exec, await. rewrite bind_gets.
  destruct (promises w !! p) as [[[s|] ks]|]; repeat split.
Qed.

Lemma then_reaction q a s w :
  a <> q -> settledAt a w = Some None -> settledAt q w = Some None ->
  let w' := exec (resume (KThen q (Some (CResolve a)) (Some (CReject a))) s) w in
  settledAt a w' = Some (Some s)
  /\ settledAt q w' = Some (Some (Fulfilled VUndefined)).
Proof.
  intros Hne Ha Hq. cbv zeta.
  assert (E : exec (resume (KThen q (Some (CResolve a)) (Some (CReject a))) s) w
              = exec (settle q (Fulfilled VUndefined)) (exec (settle a s) w)).
  { destruct s as [v|err]; unfold exec at 1, resume, callback;
      rewrite bind_settle; reflexivity. }
  rewrite E, !settledAt_settle.
  destruct (decide (a = q)) as [|_]; [contradiction|].
  destruct (decide (a = a)) as [_|]; [|congruence].
  destruct (decide (q = q)) as [_|]; [|congruence].
  destruct (decide (q = a)) as [|_]; [congruence|].
  rewrite Ha, Hq. split; reflexivity.
Qed.

(** X8: [then(onResolved, onReject)] executes the batch without input when
    it has not been executed, and leaves the batch as it is when it has;
    either way [_result] holds the promise of the batch afterwards, and
    what [then] returns is a new promise, pending, on each call: the one
    [_result.then] makes.  The two callbacks are put on the promise in
    [_result]: as a reaction that waits for it while it is pending, and as
    a queued reaction when it is settled.  [then] sends nothing and leaves
    the job alone; [execute] after [then] throws 'Batch already
    executed.'.  With the resolving functions of a promise for callbacks,
    as an [await] of the batch passes them, the reaction settles that
    promise as the promise of the batch was settled, and fulfils the one
    [then] returned with [undefined]. *)
Theorem then_executes_once (onResolved onReject : option Callback) (w : World) :
  let then_ := Batch.then_ onResolved onReject in
  let w' := exec then_ w in
  exists p q,
    eval then_ w = Normal q
    /\ BatchFields._result (batch w') = Some p
    /\ ((length (promises w) <= q)%nat /\ length (promises w') = S q
        /\ settledAt q w' = Some None)
    /\ (forall p0,
          BatchFields._result (batch w) = Some p0 ->
          p = p0 /\ batch w' = batch w /\ batchListeners w' = batchListeners w
          /\ ((p0 < length (promises w))%nat ->
              (exists ks,
                 promises w !! p0 = Some (Cell.make None ks)
                 /\ promises w' !! p0
                    = Some (Cell.make None (ks ++ [KThen q onResolved onReject]))
                 /\ microtasks w' = microtasks w)
              \/ (exists s,
                    settledAt p0 w = Some (Some s)
                    /\ microtasks w'
                       = microtasks w ++ [(KThen q onResolved onReject, s)])))
    /\ (BatchFields._result (batch w) = None ->
        p = length (promises w)
        /\ batch w' = batch (exec (Batch.execute InNone) w)
        /\ batchListeners w' = batchListeners (exec (Batch.execute InNone) w)
        /\ promises w' !! p = Some (Cell.make None [KThen q onResolved onReject])
        /\ microtasks w' = microtasks w)
    /\ (trace w' = trace w /\ awaiting w' = awaiting w /\ timers w' = timers w
        /\ job w' = job w)
    /\ (eval then_ w' = Normal (S q)
        /\ BatchFields._result (batch (exec then_ w')) = Some p)
    /\ (forall input, Batch.execute input w' = (Throw executedError, w'))
    /\ forall a s w2,
         a <> q -> settledAt a w2 = Some None -> settledAt q w2 = Some None ->
         let w3 := exec (resume (KThen q (Some (CResolve a)) (Some (CReject a))) s)
                     w2 in
         settledAt a w3 = Some (Some s)
         /\ settledAt q w3 = Some (Some (Fulfilled VUndefined)).
Proof.
  cbv zeta.
  assert (Again : forall p w1,
            BatchFields._result (batch w1) = Some p ->
            eval (Batch.then_ onResolved onReject) w1
            = Normal (length (promises w1))
            /\ BatchFields._result
                 (batch (exec (Batch.then_ onResolved onReject) w1)) = Some p).
  { intros p w1 E. unfold eval, exec.
    rewrite (then_executed onResolved onReject p w1 E). cbn [fst snd].
    split; [reflexivity|].
    destruct (await_keeps p (KThen (length (promises w1)) onResolved onReject)
                (upd_promises (fun ps => ps ++ [Cell.pending]) w1))
      as ((_ & _ & _ & _ & Hb & _) & _).
    rewrite Hb. exact E. }
  destruct (BatchFields._result (batch w)) as [p0|] eqn:E.
  - exists p0, (length (promises w)).
    unfold eval, exec. rewrite (then_executed onResolved onReject p0 w E).
    cbn [fst snd].
    set (q := length (promises w)).
    set (w1 := upd_promises (fun ps => ps ++ [Cell.pending]) w).
    set (w' := exec (await p0 (KThen q onResolved onReject)) w1).
    destruct (await_keeps p0 (KThen q onResolved onReject) w1)
      as ((Ht & Htm & Ha & Hj & Hb & _) & Hl). fold w' in Ht, Htm, Ha, Hj, Hb, Hl.
    assert (Hlen : length (promises w') = S q).
    { unfold w'. rewrite length_await. unfold w1, q.
      cbn [promises upd_promises]. rewrite length_app. simpl. lia. }
    assert (Hres : BatchFields._result (batch w') = Some p0)
      by (rewrite Hb; exact E).
    split; [reflexivity|]. split; [exact Hres|].
    split.
    { split; [unfold q; lia|]. split; [exact Hlen|].
      unfold w'. rewrite settledAt_await. unfold settledAt, w1, q.
      cbn [promises upd_promises]. rewrite lookup_new. reflexivity. }
    split.
    { intros p1 [= <-]. split; [reflexivity|]. split; [exact Hb|].
      split; [exact Hl|]. intros Hlt.
      assert (L : promises w1 !! p0 = promises w !! p0).
      { unfold w1. cbn [promises upd_promises].
        apply lookup_app_l. exact Hlt. }
      destruct (promises w !! p0) as [[[s|] ks]|] eqn:Ep.
      - right. exists s. split; [unfold settledAt; rewrite Ep; reflexivity|].
        unfold w', exec. rewrite (await_settled p0 _ s ks w1) by exact L.
        reflexivity.
      - left. exists ks. split; [reflexivity|].
        unfold w', exec. rewrite (await_pending p0 _ ks w1) by exact L.
        cbn [snd promises microtasks upd_promises].
        split; [|reflexivity].
        apply list_lookup_insert_eq. apply lookup_lt_Some in L. exact L.
      - apply lookup_ge_None in Ep. lia. }
    split; [discriminate|].
    split; [repeat split; assumption|].
    split.
    { destruct (Again p0 w' Hres) as (He & Hr). unfold eval, exec in He, Hr.
      rewrite He, Hlen.
      split; [reflexivity|exact Hr]. }
    split; [intros input; apply (execute_again input w' p0 Hres)|].
    intros a s w2. apply then_reaction.
  - exists (length (promises w)), (S (length (promises w))).
    unfold eval, exec. rewrite (then_first onResolved onReject w E).
    cbn [fst snd]. rewrite (execute_eq InNone w E). cbn [snd].
    set (p := length (promises w)).
    set (w' := upd_promises _ (upd_promises _ (executed InNone w))).
    assert (Hlen : length (promises w') = S (S p)).
    { unfold w', executed.
      cbn [promises upd_batch upd_batchListeners upd_promises].
      rewrite length_insert, !length_app. simpl. unfold p. lia. }
    assert (Hres : BatchFields._result (batch w') = Some p) by reflexivity.
    split; [reflexivity|]. split; [exact Hres|].
    split.
    { split; [unfold p; lia|]. split; [exact Hlen|].
      unfold settledAt, w', executed.
      cbn [promises upd_batch upd_batchListeners upd_promises].
      rewrite list_lookup_insert_ne by (unfold p; lia).
      replace (S p) with (length (promises w ++ [Cell.pending]))
        by (rewrite length_app; simpl; unfold p; lia).
      rewrite lookup_new. reflexivity. }
    split; [discriminate|].
    split.
    { intros _. split; [reflexivity|]. split; [reflexivity|].
      split; [reflexivity|]. split; [|reflexivity].
      unfold w', executed.
      cbn [promises upd_batch upd_batchListeners upd_promises].
      apply list_lookup_insert_eq. rewrite !length_app. simpl. unfold p. lia. }
    split; [repeat split; reflexivity|].
    split.
    { destruct (Again p w' Hres) as (He & Hr). unfold eval, exec in He, Hr.
      rewrite He, Hlen.
      split; [reflexivity|exact Hr]. }
    split; [intros input; apply (execute_again input w' p Hres)|].
    intros a s w2. apply then_reaction.
Qed.

(** ** Job.check *)

Lemma waitIdAssignment_eq jobId w :
  JobFields.id (job w) = Some jobId -> jobId <> "" ->
  Job._waitIdAssignment w
  = (Normal (length (promises w)), withResolved (VString jobId) w).
Proof.
  intros Hj Hn. unfold Job._waitIdAssignment. rewrite bind_gets, Hj.
  rewrite (truthy_Some _ Hn). apply resolved_eq.
Qed.

Lemma awaitId_eq p k jobId w :
  JobFields.id (job w) = Some jobId -> jobId <> "" ->
  Job.awaitId p k w
  = (Normal tt,
     upd_microtasks (fun m => m ++ [(k, Fulfilled (VString jobId))])
       (withResolved (VString jobId) w)).
Proof.
  intros Hj Hn. unfold Job.awaitId.
  rewrite (bind_try _ _ _ _ _ (waitIdAssignment_eq jobId w Hj Hn)).
  apply (await_settled _ _ _ []). apply lookup_new.
Qed.

Lemma check_eq jobId w :
  JobFields.id (job w) = Some jobId -> jobId <> "" ->
  Job.check w = (Normal (length (promises w)), waitingId KCheckId jobId w).
Proof.
  intros Hj Hn. unfold Job.check. rewrite bind_newPromise.
  erewrite exec_bind by (apply (awaitId_eq _ _ jobId); assumption).
  reflexivity.
Qed.

Lemma changeState_eq state jobId w :
  JobFields.id (job w) = Some jobId -> jobId <> "" ->
  Job._changeState state w
  = (Normal (length (promises w)), waitingId (KChangeStateId state) jobId w).
Proof.
  intros Hj Hn. unfold Job._changeState. rewrite bind_newPromise.
  erewrite exec_bind by (apply (awaitId_eq _ _ jobId); assumption).
  reflexivity.
Qed.

Lemma request_eq r k w : request r k w = (Normal tt, requested r k w).
Proof. reflexivity. Qed.

Lemma settledAt_pending_new w :
  settledAt (length (promises w))
    (upd_promises (fun ps => ps ++ [Cell.pending]) w) = Some None.
Proof. unfold settledAt. simpl. rewrite lookup_new. reflexivity. Qed.

Lemma settle_at p s w :
  settledAt p w = Some None ->
  settledAt p (exec (settle p s) w) = Some (Some s).
Proof.
  intros H. rewrite settledAt_settle, H. destruct (decide (p = p)); congruence.
Qed.

Lemma settle_trace p s w : trace (exec (settle p s) w) = trace w.
Proof.
  destruct (settle_silent p s w) as (w' & E & S). unfold exec. rewrite E.
  apply S.
Qed.

Lemma settle_job p s w : job (exec (settle p s) w) = job w.
Proof.
  destruct (settle_silent p s w) as (w' & E & S). unfold exec. rewrite E.
  apply S.
Qed.

(** X9: [check()] on a job with an identity returns a new promise, leaves it
    in [_jobInfo] and sends nothing at the call; in the next turn it
    requests [GET /job/<id>].  When the remote answers, the job's [id],
    [type], [operation] and [state] become those of the answer and the
    promise is fulfilled with it; when the remote fails, the job is left as
    it is and the promise is rejected with the error.  No event is emitted
    either way. *)
Theorem check_refreshes (w : World) (jobId : string) :
  JobFields.id (job w) = Some jobId -> jobId <> "" -> microtasks w = [] ->
  let p := length (promises w) in
  let r := nextRequest w in
  let w1 := exec Job.check w in
  let w2 := step Microtask w1 in
  eval Job.check w = Normal p
  /\ (JobFields._jobInfo (job w1) = Some p /\ trace w1 = trace w)
  /\ (trace w2 = ERequest r (jobRequest jobId) :: trace w
      /\ awaiting w2 !! r = Some (KCheck p)
      /\ settledAt p w2 = Some None)
  /\ (forall jobInfo,
        let w3 := step (Respond r (Fulfilled (VJobInfo jobInfo))) w2 in
        JobFields.id (job w3) = Some (JobInfo.id jobInfo)
        /\ JobFields.type (job w3) = Some (JobInfo.object jobInfo)
        /\ JobFields.operation (job w3) = Some (JobInfo.operation jobInfo)
        /\ JobFields.state (job w3) = JobInfo.state jobInfo
        /\ settledAt p w3 = Some (Some (Fulfilled (VJobInfo jobInfo)))
        /\ trace w3 = trace w2)
  /\ (forall err,
        let w3 := step (Respond r (Rejected err)) w2 in
        job w3 = job w2
        /\ settledAt p w3 = Some (Some (Rejected err))
        /\ trace w3 = trace w2).
Proof.
  intros Hj Hn Hm. cbv zeta. unfold eval, exec.
  rewrite (check_eq jobId w Hj Hn). cbn [fst snd].
  set (p := length (promises w)).
  set (w1 := waitingId KCheckId jobId w).
  assert (Hq : microtasks w1 = [(KCheckId p, Fulfilled (VString jobId))])
    by (unfold w1, waitingId; simpl; rewrite Hm; reflexivity).
  assert (E2 : step Microtask w1
               = requested (jobRequest jobId) (KCheck p)
                   (upd_microtasks (fun _ => []) w1)).
  { rewrite (microtask_runs _ _ [] w1 Hq). apply toplevel_normal.
    reflexivity. }
  rewrite E2. set (w2 := requested _ _ _).
  assert (Hp : settledAt p w2 = Some None).
  { unfold settledAt, w2, w1, waitingId, withResolved, p. simpl.
    rewrite lookup_app_l by (rewrite length_app; simpl; lia).
    rewrite lookup_new. reflexivity. }
  assert (Hr : awaiting w2 !! nextRequest w = Some (KCheck p))
    by apply lookup_insert_eq.
  split; [reflexivity|]. split; [split; reflexivity|].
  split; [split; [reflexivity|split; assumption]|].
  split.
  - intros jobInfo. cbv zeta.
    rewrite (respond_runs _ _ _ w2 Hr).
    set (w2' := upd_awaiting _ w2).
    rewrite (toplevel_normal _ w2'
               (exec (settle p (Fulfilled (VJobInfo jobInfo)))
                  (upd_job (fun j =>
                     JobFields.set_state (JobInfo.state jobInfo)
                       (JobFields.set_operation (Some (JobInfo.operation jobInfo))
                          (JobFields.set_type (Some (JobInfo.object jobInfo))
                             (JobFields.set_id (Some (JobInfo.id jobInfo)) j))))
                     w2'))).
    2: { unfold resume, setJob. rewrite !bind_modify. apply settle_runs. }
    rewrite settle_job, settle_trace.
    repeat (split; [reflexivity|]). split; [|reflexivity].
    apply settle_at. exact Hp.
  - intros err. cbv zeta. rewrite (respond_runs _ _ _ w2 Hr).
    set (w2' := upd_awaiting _ w2).
    rewrite (toplevel_normal _ w2' (exec (settle p (Rejected err)) w2'))
      by apply settle_runs.
    rewrite settle_job, settle_trace.
    split; [reflexivity|]. split; [|reflexivity].
    apply settle_at. exact Hp.
Qed.

(** ** A job that cannot be opened *)

Lemma waitIdAssignment_throws w :
  JS.truthy (JobFields.id (job w)) = false ->
  JS.truthy (JobFields.type (job w)) && JS.truthy (JobFields.operation (job w))
  = false ->
  Job._waitIdAssignment w = (Throw openError, w).
Proof.
  intros Hi Ht. unfold Job._waitIdAssignment. rewrite bind_gets, Hi.
  apply bind_throw, open_throws, Ht.
Qed.

Lemma settle_new_eq s w :
  settle (length (promises w)) s
    (upd_promises (fun ps => ps ++ [Cell.pending]) w)
  = (Normal tt, upd_promises (fun ps => ps ++ [Cell.make (Some s) []]) w).
Proof.
  erewrite settle_pending_eq by apply lookup_new.
  destruct w. world. cbn [map]. rewrite insert_new, app_nil_r. reflexivity.
Qed.

Lemma awaitId_throws k w :
  JS.truthy (JobFields.id (job w)) = false ->
  JS.truthy (JobFields.type (job w)) && JS.truthy (JobFields.operation (job w))
  = false ->
  Job.awaitId (length (promises w)) k
    (upd_promises (fun ps => ps ++ [Cell.pending]) w)
  = (Normal tt,
     upd_promises
       (fun ps => ps ++ [Cell.make (Some (Rejected openError)) []]) w).
Proof.
  intros Hi Ht. unfold Job.awaitId.
  rewrite (bind_try _ _ _ _ _
             (waitIdAssignment_throws
                (upd_promises (fun ps => ps ++ [Cell.pending]) w) Hi Ht)).
  apply settle_new_eq.
Qed.

Lemma check_unopenable w :
  JS.truthy (JobFields.id (job w)) = false ->
  JS.truthy (JobFields.type (job w)) && JS.truthy (JobFields.operation (job w))
  = false ->
  Job.check w = (Normal (length (promises w)), failedId w).
Proof.
  intros Hi Ht. unfold Job.check. rewrite bind_newPromise.
  rewrite (exec_bind _ _ _ _ _ (awaitId_throws _ w Hi Ht)). reflexivity.
Qed.

Lemma changeState_unopenable state w :
  JS.truthy (JobFields.id (job w)) = false ->
  JS.truthy (JobFields.type (job w)) && JS.truthy (JobFields.operation (job w))
  = false ->
  Job._changeState state w = (Normal (length (promises w)), failedId w).
Proof.
  intros Hi Ht. unfold Job._changeState. rewrite bind_newPromise.
  rewrite (exec_bind _ _ _ _ _ (awaitId_throws _ w Hi Ht)). reflexivity.
Qed.

(** X10: on a job that has no identity and lacks [type] or [operation],
    [open] throws and changes nothing; [check] returns a promise already
    rejected with the error of [open]; and [close] and [abort] return a
    pending promise and queue their own failure with that error.  None of
    them sends a request. *)
Theorem unopenable_job_rejects (w : World) :
  JS.truthy (JobFields.id (job w)) = false ->
  JS.truthy (JobFields.type (job w)) && JS.truthy (JobFields.operation (job w))
  = false ->
  let p := length (promises w) in
  Job.open w = (Throw openError, w)
  /\ (let w' := exec Job.check w in
      eval Job.check w = Normal p
      /\ settledAt p w' = Some (Some (Rejected openError))
      /\ trace w' = trace w /\ awaiting w' = awaiting w
      /\ microtasks w' = microtasks w)
  /\ (let w' := exec Job.close w in
      eval Job.close w = Normal p
      /\ settledAt p w' = Some None
      /\ trace w' = ECall JobClose :: trace w /\ awaiting w' = awaiting w
      /\ microtasks w' = microtasks w ++ [(KClose p, Rejected openError)])
  /\ (let w' := exec Job.abort w in
      eval Job.abort w = Normal p
      /\ settledAt p w' = Some None
      /\ trace w' = ECall JobAbort :: trace w /\ awaiting w' = awaiting w
      /\ microtasks w' = microtasks w ++ [(KAbort p, Rejected openError)]).
Proof.
  intros Hi Ht. cbv zeta. split; [apply open_throws, Ht|]. split; [|split].
  - unfold eval, exec. rewrite (check_unopenable w Hi Ht).
    unfold failedId, settledAt. simpl. rewrite lookup_new. repeat split.
  - unfold eval, exec, Job.close, log. rewrite bind_modify, bind_newPromise.
    set (w1 := upd_promises _ (upd_trace _ w)).
    rewrite (exec_bind _ _ _ _ _ (changeState_unopenable JobState.Closed w1 Hi Ht)).
    erewrite exec_bind
      by (apply (await_settled _ _ (Rejected openError) []), lookup_new).
    unfold w1, settledAt. simpl.
    rewrite lookup_app_l by (rewrite length_app; simpl; lia).
    rewrite lookup_new. repeat split.
  - unfold eval, exec, Job.abort, log. rewrite bind_modify, bind_newPromise.
    set (w1 := upd_promises _ (upd_trace _ w)).
    rewrite (exec_bind _ _ _ _ _ (changeState_unopenable JobState.Aborted w1 Hi Ht)).
    erewrite exec_bind
      by (apply (await_settled _ _ (Rejected openError) []), lookup_new).
    unfold w1, settledAt. simpl.
    rewrite lookup_app_l by (rewrite length_app; simpl; lia).
    rewrite lookup_new. repeat split.
Qed.

(** ** Job.info *)

Lemma total_settle p s : total (settle p s).
Proof. unfold settle. repeat total_step. Qed.

Lemma total_awaitId p k : total (Job.awaitId p k).
Proof.
  unfold Job.awaitId.
  repeat first [apply total_await | apply total_settle | total_step].
Qed.

Lemma check_returns w :
  exists w',
    Job.check w = (Normal (length (promises w)), w')
    /\ JobFields._jobInfo (job w') = Some (length (promises w)).
Proof.
  unfold Job.check. rewrite bind_newPromise.
  destruct (total_awaitId (length (promises w)) (KCheckId (length (promises w)))
              (upd_promises (fun ps => ps ++ [Cell.pending]) w))
    as ([] & w1 & E).
  rewrite (exec_bind _ _ _ _ _ E). eexists. split; reflexivity.
Qed.

Lemma info_cached q w :
  JobFields._jobInfo (job w) = Some q -> Job.info w = (Normal q, w).
Proof. intros H. unfold Job.info. rewrite bind_gets, H. reflexivity. Qed.


(** ** Batch.retrieve: the results of a query *)

Lemma queryResults_lookup result jobId batchId i id :
  match result with inl r => [r] | inr rs => rs end !! i = Some id ->
  Batch.queryResults result jobId batchId !! i
  = Some (QueryEntry.make id batchId jobId).
Proof.
  intros H. unfold Batch.queryResults.
  change (map ?f ?l) with (f <$> l). rewrite list_lookup_fmap, H. reflexivity.
Qed.

(** X12: for the operations [query] and [queryAll], [retrieve] decodes the
    response into one entry per result id, in order, each with the id and
    the identities of the batch and the job, a single id counting as a list
    of one, and emits 'response' with them.  A response that is a list of
    rows makes it fail with a [TypeError]. *)
Theorem retrieve_query_envelope (w : World) (p : nat) (jobId batchId : string)
    (result : string + list string) :
  JobFields.operation (job w) = Some "query"
  \/ JobFields.operation (job w) = Some "queryAll" ->
  let ids := match result with inl r => [r] | inr rs => rs end in
  let results := Batch.queryResults result jobId batchId in
  let rest := resume (KRetrieve p jobId batchId)
                (Fulfilled (VQueryResponse result)) in
  Batch.decode (JobFields.operation (job w)) (VQueryResponse result)
    jobId batchId = Normal (QueryResult results)
  /\ (exists new,
        trace (exec rest w)
        = new ++ EEmit OnBatch "response" (VResult (QueryResult results))
              :: trace w)
  /\ length results = length ids
  /\ (forall i id, ids !! i = Some id ->
        results !! i = Some (QueryEntry.make id batchId jobId))
  /\ (forall r, Batch.queryResults (inl r) jobId batchId
                = Batch.queryResults (inr [r]) jobId batchId)
  /\ forall rows,
       Batch.decode (JobFields.operation (job w)) (VLoadResponse rows)
         jobId batchId
       = Throw (TypeError "Cannot read properties of undefined (reading 'result')").
Proof.
  intros Hop. cbv zeta.
  assert (Hq : Batch.operationIs (JobFields.operation (job w)) "query"
               || Batch.operationIs (JobFields.operation (job w)) "queryAll"
               = true).
  { destruct Hop as [-> | ->]; reflexivity. }
  assert (D : Batch.decode (JobFields.operation (job w)) (VQueryResponse result)
                jobId batchId
              = Normal (QueryResult (Batch.queryResults result jobId batchId))).
  { unfold Batch.decode. rewrite Hq. reflexivity. }
  split; [exact D|]. split; [|split; [|split; [|split]]].
  - unfold exec, resume. rewrite bind_gets, D.
    destruct (emitBatch_grows anyEffect "response"
                (VResult (QueryResult (Batch.queryResults result jobId batchId)))
                w any_quiet) as (new & E & _).
    unfold exec in E.
    destruct (emitBatch "response" _ w) as [[[]|err] w1] eqn:Em; simpl in E.
    + erewrite bind_try by (erewrite exec_bind by exact Em; reflexivity).
      cbv beta iota. rewrite settle_runs. cbn [snd].
      rewrite settle_trace, E. eauto.
    + erewrite bind_try by (erewrite bind_throw by exact Em; reflexivity).
      destruct (respects_catchEmitBatch anyEffect (grows anyEffect) any_quiet
                  p err w1) as (n2 & E2 & _).
      exists (n2 ++ new). unfold exec in E2. rewrite E2, E, app_assoc.
      reflexivity.
  - unfold Batch.queryResults. apply length_map.
  - intros i id. apply queryResults_lookup.
  - reflexivity.
  - intros rows. unfold Batch.decode. rewrite Hq. reflexivity.
Qed.

(** ** From [retrieve] to the promise of [load] *)

Lemma catchEmit_awaited p q err w :
  Awaited p w ->
  let w' := exec (catchEmit emitBatch q err) w in
  settledAt p w' = Some (Some (Rejected err))
  /\ (Error.name err <> "PollingTimeout" ->
      exists new,
        trace w' = new ++ ECall JobClose
                     :: EEmit OnBatch "error" (VError err) :: trace w).
Proof.
  intros H. cbv zeta. unfold exec, catchEmit. rewrite exec_try.
  rewrite settle_runs. cbn [snd]. split.
  - apply settled_stays, emit_error_awaited, H.
  - intros Hname. rewrite settle_trace.
    apply emit_closes; [apply (awaited_wired p), H|].
    right. split; [reflexivity|exact Hname].
Qed.

(** The rows of a load arrive: 'response' is emitted with the envelope, and
    [retrieve] resolves with it. *)
Lemma rows_arrive p q jobId batchId rows w :
  Awaited p w ->
  JobFields.operation (job w) <> Some "query" ->
  JobFields.operation (job w) <> Some "queryAll" ->
  let results := VResult (LoadResult (Batch.loadResults rows)) in
  resume (KRetrieve q jobId batchId) (Fulfilled (VLoadResponse rows)) w
  = (Normal tt,
     exec (settle q (Fulfilled results)) (exec (emitBatch "response" results) w))
  /\ settledAt p
       (exec (settle q (Fulfilled results))
          (exec (emitBatch "response" results) w))
     = Some (Some (Fulfilled results))
  /\ exists new,
       trace (exec (settle q (Fulfilled results))
                (exec (emitBatch "response" results) w))
       = new ++ ECall JobClose :: EEmit OnBatch "response" results :: trace w.
Proof.
  intros H Hq Hqa results.
  assert (D : Batch.decode (JobFields.operation (job w)) (VLoadResponse rows)
                jobId batchId = Normal (LoadResult (Batch.loadResults rows))).
  { unfold Batch.decode. apply operationIs_false in Hq, Hqa.
    rewrite Hq, Hqa. reflexivity. }
  pose proof (emit_wired_normal "response" results w (awaited_wired p w H)
                (or_intror eq_refl)) as En.
  split; [|split].
  - unfold resume. rewrite bind_gets, D.
    erewrite bind_try by (erewrite exec_bind by exact En; reflexivity).
    cbv beta iota. apply settle_runs.
  - apply settled_stays, emit_response_awaited, H.
  - rewrite settle_trace.
    apply emit_closes; [apply (awaited_wired p), H|]. left. reflexivity.
Qed.

(** ** Strings *)

Lemma append_cons (x : ascii) (a b : string) :
  String x a +:+ b = String x (a +:+ b).
Proof. reflexivity. Qed.

Lemma append_assoc (a b c : string) : (a +:+ b) +:+ c = a +:+ (b +:+ c).
Proof.
  induction a as [|x a IH]; [reflexivity|].
  rewrite !append_cons, IH. reflexivity.
Qed.

Lemma append_nil_r (a : string) : a +:+ "" = a.
Proof.
  induction a as [|x a IH]; [reflexivity|]. rewrite append_cons, IH.
  reflexivity.
Qed.

Lemma length_append (a b : string) :
  String.length (a +:+ b) = (String.length a + String.length b)%nat.
Proof.
  induction a as [|x a IH]; [reflexivity|]. rewrite append_cons. simpl.
  rewrite IH. reflexivity.
Qed.

Lemma append_inj_r (a b s : string) : a +:+ s = b +:+ s -> a = b.
Proof.
  revert b. induction a as [|x a IH]; intros [|y b] H;
    rewrite ?append_cons in H.
  - reflexivity.
  - apply (f_equal String.length) in H. rewrite !length_append in H.
    simpl in H. rewrite ?length_append in H. lia.
  - apply (f_equal String.length) in H. rewrite !length_append in H.
    simpl in H. rewrite ?length_append in H. lia.
  - injection H as -> H. f_equal. apply IH, H.
Qed.

Lemma append_inj_l (s a b : string) : s +:+ a = s +:+ b -> a = b.
Proof.
  induction s as [|x s IH]; intros H; [exact H|].
  rewrite !append_cons in H. injection H as H. apply IH, H.
Qed.

Lemma rev_string_acc (acc s : string) :
  JS.rev_string acc s = JS.rev_string "" s +:+ acc.
Proof.
  revert acc. induction s as [|x s IH]; intros acc; simpl; [reflexivity|].
  rewrite IH, (IH (String x "")), append_assoc. reflexivity.
Qed.

Lemma rev_string_app (a b : string) :
  JS.rev_string "" (a +:+ b) = JS.rev_string "" b +:+ JS.rev_string "" a.
Proof.
  induction a as [|x a IH]; [rewrite append_nil_r; reflexivity|].
  rewrite append_cons. simpl.
  rewrite rev_string_acc, IH, (rev_string_acc (String x "") a), append_assoc.
  reflexivity.
Qed.

Lemma rev_string_involutive (s : string) :
  JS.rev_string "" (JS.rev_string "" s) = s.
Proof.
  induction s as [|x s IH]; simpl; [reflexivity|].
  rewrite (rev_string_acc (String x "") s), rev_string_app, IH. reflexivity.
Qed.

Lemma trimStart_blank (ws s : string) :
  blank ws = true -> JS.trimStart (ws +:+ s) = JS.trimStart s.
Proof.
  induction ws as [|c ws IH]; intros H; [reflexivity|].
  rewrite append_cons. simpl in *.
  apply andb_true_iff in H as [-> H]. apply IH, H.
Qed.

Lemma trimStart_solid (s : string) :
  solidStart s = true -> JS.trimStart s = s.
Proof.
  destruct s as [|c s]; simpl; [discriminate|].
  destruct (JS.isSpace c); [discriminate|reflexivity].
Qed.

Lemma solidStart_app (a b : string) :
  solidStart a = true -> solidStart (a +:+ b) = true.
Proof. destruct a; [discriminate|]. rewrite append_cons. trivial. Qed.

Lemma blank_rev (ws : string) :
  blank ws = true -> blank (JS.rev_string "" ws) = true.
Proof.
  assert (H : forall a b, blank (a +:+ b) = blank a && blank b).
  { induction a as [|c a IH]; intros b; [reflexivity|].
    rewrite append_cons. simpl. rewrite IH, andb_assoc. reflexivity. }
  induction ws as [|c ws IH]; simpl; intros Hb; [reflexivity|].
  apply andb_true_iff in Hb as [Hc Hb].
  rewrite rev_string_acc, H, (IH Hb). simpl. rewrite Hc. reflexivity.
Qed.

(** [trim] takes the white space around a text that starts and ends with
    other characters, and nothing else. *)
Lemma trim_around (before body after : string) :
  blank before = true -> blank after = true ->
  solidStart body = true -> solidStart (JS.rev_string "" body) = true ->
  JS.trim (before +:+ body +:+ after) = body.
Proof.
  intros Hb Ha Hs He. unfold JS.trim.
  rewrite (trimStart_blank _ _ Hb).
  rewrite (trimStart_solid _ (solidStart_app _ _ Hs)).
  rewrite rev_string_app, (trimStart_blank _ _ (blank_rev _ Ha)).
  rewrite (trimStart_solid _ He). apply rev_string_involutive.
Qed.

Lemma solidEnd_app (a b : string) :
  solidStart (JS.rev_string "" b) = true ->
  solidStart (JS.rev_string "" (a +:+ b)) = true.
Proof. intros H. rewrite rev_string_app. apply solidStart_app, H. Qed.

(** ** Job.open: the body of the request *)

Lemma lower_idempotent c : JS.lower (JS.lower c) = JS.lower c.
Proof. destruct c as [[] [] [] [] [] [] [] []]; reflexivity. Qed.

Lemma toLowerCase_idempotent s :
  JS.toLowerCase (JS.toLowerCase s) = JS.toLowerCase s.
Proof.
  induction s as [|c s IH]; simpl; [reflexivity|].
  rewrite lower_idempotent, IH. reflexivity.
Qed.

Lemma sentOperation_lower operation :
  JS.toLowerCase (sentOperation operation) = JS.toLowerCase operation.
Proof.
  unfold sentOperation. cbv zeta.
  destruct (String.eqb_spec (JS.toLowerCase operation) "harddelete") as [E|_].
  - rewrite E. reflexivity.
  - destruct (String.eqb_spec (JS.toLowerCase operation) "queryall") as [E|_].
    + rewrite E. reflexivity.
    + apply toLowerCase_idempotent.
Qed.

Lemma openBody_eq this :
  Job.openBody this
  = jobInfoXml (sentOperation (JS.show (JobFields.operation this)))
      (JS.show (JobFields.type this)) (JobFields.options this).
Proof.
  unfold Job.openBody. cbv zeta.
  fold (sentOperation (JS.show (JobFields.operation this))).
  set (operation := sentOperation _).
  set (body := jobInfoXml _ _ _).
  transitivity (JS.trim (nl +:+ body +:+ nl +:+ "      ")).
  - f_equal. unfold body, jobInfoXml. rewrite !append_assoc. reflexivity.
  - apply trim_around; try reflexivity.
    unfold body, jobInfoXml. repeat apply solidEnd_app. reflexivity.
Qed.

(** X14: the body of the open request is the [jobInfo] document with the
    job's [type], its options and its operation in lower case, except that
    [harddelete] and [queryall] are written [hardDelete] and [queryAll]: the
    seven values of [BulkOperation] are written as they are, and operations
    that differ only in case give the same body.  An option that is not set
    or empty leaves no element.  The body of a state change is the
    [jobInfo] document with the state alone. *)
Theorem open_body (this : JobFields.t) :
  let operation := JS.show (JobFields.operation this) in
  (exists sent,
     Job.openBody this
     = jobInfoXml sent (JS.show (JobFields.type this)) (JobFields.options this)
     /\ JS.toLowerCase sent = JS.toLowerCase operation
     /\ (In operation BulkOperation -> sent = operation))
  /\ (forall operation',
        JS.toLowerCase operation' = JS.toLowerCase operation ->
        Job.openBody (JobFields.set_operation (Some operation') this)
        = Job.openBody this)
  /\ (forall tag,
        Job.element tag None = "" /\ Job.element tag (Some "") = ""
        /\ forall v, v <> "" ->
             Job.element tag (Some v)
             = "<" +:+ tag +:+ ">" +:+ v +:+ "</" +:+ tag +:+ ">")
  /\ forall state,
       Job.changeStateBody state
       = xml_header +:+ nl
         +:+ "  <jobInfo " +:+ xmlns +:+ ">" +:+ nl
         +:+ "  <state>" +:+ JobState.show state +:+ "</state>" +:+ nl
         +:+ "</jobInfo>".
Proof.
  cbv zeta. split; [|split; [|split]].
  - exists (sentOperation (JS.show (JobFields.operation this))).
    split; [apply openBody_eq|]. split; [apply sentOperation_lower|].
    intros H. repeat (destruct H as [<-|H]; [reflexivity|]). destruct H.
  - intros operation' H. unfold Job.openBody. simpl. rewrite H. reflexivity.
  - intros tag. split; [reflexivity|]. split; [reflexivity|].
    intros v Hv. unfold Job.element. rewrite (truthy_Some v Hv). reflexivity.
  - intros []; reflexivity.
Qed.

(** ** BulkApi *)

Lemma startsWith_spec t s :
  JS.startsWith t s = true <-> exists rest, s = t +:+ rest.
Proof.
  revert s. induction t as [|a t IH]; intros s.
  - split; [intros _; exists s; reflexivity|reflexivity].
  - destruct s as [|b s]; simpl.
    + split; [discriminate|]. intros (rest & H). discriminate.
    + rewrite andb_true_iff, IH. split.
      * intros (Hab & rest & ->). apply Ascii.eqb_eq in Hab as ->.
        exists rest. reflexivity.
      * intros (rest & H). rewrite append_cons in H. injection H as -> ->.
        split; [apply Ascii.eqb_refl|]. exists rest. reflexivity.
Qed.

Lemma includes_spec t s :
  JS.includes t s = true <-> exists before after, s = before +:+ t +:+ after.
Proof.
  induction s as [|c s IH].
  - simpl. rewrite orb_false_r, startsWith_spec. split.
    + intros (rest & H). exists "", rest. exact H.
    + intros ([|b before] & after & H); [exists after; exact H|].
      rewrite append_cons in H. discriminate.
  - cbn [JS.includes]. rewrite orb_true_iff, startsWith_spec, IH. split.
    + intros [(rest & H)|(before & after & ->)].
      * exists "", rest. exact H.
      * exists (String c before), after. reflexivity.
    + intros ([|b before] & after & H).
      * left. exists after. exact H.
      * right. rewrite append_cons in H. injection H as -> ->.
        exists before, after. reflexivity.
Qed.

(** X15: [isSessionExpired] holds exactly for a response with status 400
    whose body contains [<exceptionCode>InvalidSessionId</exceptionCode>]. *)
Theorem session_expired_iff (response : HttpResponse.t) :
  BulkApi.isSessionExpired response = true
  <-> HttpResponse.statusCode response = 400
      /\ exists before after,
           HttpResponse.body response
           = before +:+ "<exceptionCode>InvalidSessionId</exceptionCode>"
             +:+ after.
Proof.
  unfold BulkApi.isSessionExpired.
  rewrite andb_true_iff, Z.eqb_eq, includes_spec. reflexivity.
Qed.

(** ** Bulk._request and BulkApi.beforeSend *)

(** X16: what [_request] hands over and [beforeSend] completes: the URL is
    the instance URL, [/services/async/], the version and the path of the
    request; method and body are the request's; the header [X-SFDC-SESSION]
    is the access token, or the empty string without one, whatever the
    request carried under that name, and every other header is the
    request's own.  [beforeSend] twice is [beforeSend] once, and for one
    connection the URL determines the path. *)
Theorem request_carries_session (conn : Connection.t) (request_ : BulkRequest.t) :
  let request := snd (Bulk._request conn request_) in
  let sent := BulkApi.beforeSend conn request in
  fst (Bulk._request conn request_) = BulkRequest.responseType request_
  /\ HttpRequest.url sent
     = Connection.instanceUrl conn +:+ "/services/async/"
       +:+ Connection.version conn +:+ BulkRequest.path request_
  /\ HttpRequest.method sent = BulkRequest.method request_
  /\ HttpRequest.body sent = BulkRequest.body request_
  /\ HttpRequest.headers sent !! "X-SFDC-SESSION"
     = Some (default "" (Connection.accessToken conn))
  /\ (forall name, name <> "X-SFDC-SESSION" ->
        HttpRequest.headers sent !! name = HttpRequest.headers request !! name)
  /\ (NoDup (BulkRequest.headers request_).*1 ->
      forall name value,
        (name, value) ∈ BulkRequest.headers request_
        <-> HttpRequest.headers request !! name = Some value)
  /\ (forall conn', BulkApi.beforeSend conn' sent = BulkApi.beforeSend conn' request)
  /\ forall request_',
       HttpRequest.url (snd (Bulk._request conn request_'))
       = HttpRequest.url request ->
       BulkRequest.path request_' = BulkRequest.path request_.
Proof.
  cbv zeta. unfold Bulk._request, BulkApi.beforeSend, Bulk.baseUrl. simpl.
  split; [reflexivity|]. split.
  { rewrite !append_assoc. reflexivity. }
  split; [reflexivity|]. split; [reflexivity|].
  split; [apply lookup_insert_eq|].
  split; [intros name H; apply lookup_insert_ne; intros E; apply H; symmetry; exact E|].
  split.
  { intros Hnd name value. apply elem_of_list_to_map, Hnd. }
  split.
  { intros conn'. f_equal. apply insert_insert_eq. }
  intros request_' H. apply append_inj_l in H. exact H.
Qed.

(** ** SObject: the layouts *)

(** X17: for a named layout, the key under which [layouts] is cached depends
    on the layout name only, so that two object types share it, although
    the URL requested differs with the type.  Without a layout name, both
    the key and the URL, [/sobjects/<type>/describe/layouts], differ with
    the type. *)
Theorem named_layout_key_ignores_type (type1 type2 name : string) :
  name <> "" ->
  SObject.layoutCacheKey type1 (Some name)
  = SObject.layoutCacheKey type2 (Some name)
  /\ (type1 <> type2 ->
      SObject.layoutsUrl type1 (Some name) <> SObject.layoutsUrl type2 (Some name))
  /\ forall unnamed,
       JS.truthy unnamed = false ->
       SObject.layoutsUrl type1 unnamed
       = "/sobjects/" +:+ type1 +:+ "/describe/layouts"
       /\ (type1 <> type2 ->
           SObject.layoutCacheKey type1 unnamed
           <> SObject.layoutCacheKey type2 unnamed
           /\ SObject.layoutsUrl type1 unnamed <> SObject.layoutsUrl type2 unnamed).
Proof.
  intros Hn. unfold SObject.layoutCacheKey, SObject.layoutsUrl.
  rewrite (truthy_Some name Hn). split; [reflexivity|]. split.
  - intros Hne H. apply Hne. apply append_inj_l in H.
    apply append_inj_r in H. exact H.
  - intros unnamed ->. split; [reflexivity|]. intros Hne. split.
    + intros H. apply Hne. apply append_inj_l in H. exact H.
    + intros H. apply Hne. apply append_inj_l in H.
      apply append_inj_r in H. exact H.
Qed.

(** ** A load, step by step *)

Lemma lookup_insert_new {A} (l : list A) x y :
  (<[length l := y]> (l ++ [x])) !! length l = Some y.
Proof. rewrite insert_new. apply lookup_new. Qed.

(** The upload stream is readable: [open()] is called and awaited. *)
Lemma readable_eq w :
  BatchFields.armed (batch w) = true ->
  JS.truthy (JobFields.type (job w)) && JS.truthy (JobFields.operation (job w))
  = true ->
  JobFields._jobInfo (job w) = None ->
  step Readable w
  = upd_promises
      (fun ps => <[length (promises w) := Cell.make None [KReadable]]> ps)
      (opened (upd_batch (BatchFields.set_armed false) w)).
Proof.
  intros Ha Ht Hi. unfold step. apply toplevel_normal.
  unfold readable. rewrite bind_gets, Ha. unfold onReadable.
  rewrite bind_modify.
  set (w1 := upd_batch (BatchFields.set_armed false) w).
  rewrite (bind_try _ _ _ _ _ (open_first w1 Ht Hi)).
  apply (await_pending _ _ []). apply lookup_new.
Qed.

(** The remote has opened the job. *)
Lemma open_answered r n ks jobInfo w :
  awaiting w !! r = Some (KOpen n) ->
  ErrorListenersOnly w ->
  promises w !! n = Some (Cell.make None ks) ->
  step (Respond r (Fulfilled (VJobInfo jobInfo))) w
  = upd_microtasks
      (fun m => m ++ map (fun k => (k, Fulfilled (VJobInfo jobInfo))) ks)
      (upd_promises
         (fun ps => <[n := Cell.make (Some (Fulfilled (VJobInfo jobInfo))) []]> ps)
         (upd_job (JobFields.set_state (JobInfo.state jobInfo))
            (upd_job (JobFields.set_id (Some (JobInfo.id jobInfo)))
               (upd_trace (cons (EEmit OnJob "open" (VJobInfo jobInfo)))
                  (upd_awaiting (delete r) w))))).
Proof.
  intros Hr He Hn. rewrite (respond_runs r _ _ w Hr). apply toplevel_normal.
  set (w1 := upd_awaiting (delete r) w). unfold resume.
  erewrite bind_try.
  2: { erewrite exec_bind
         by (apply (emitJob_unheard "open" _ w1 He); discriminate).
       unfold setJob. rewrite !bind_modify. reflexivity. }
  cbv beta iota. apply settle_pending_eq. exact Hn.
Qed.

(** The rest of the 'readable' handler: the upload request. *)
Lemma upload_starts v rest w :
  microtasks w = (KReadable, Fulfilled v) :: rest ->
  step Microtask w
  = requested (batchRequest (JobFields.id (job w))) KQueue
      (upd_microtasks (fun _ => rest) w).
Proof.
  intros H. rewrite (microtask_runs _ _ rest w H). apply toplevel_normal.
  reflexivity.
Qed.

(** A tick within the deadline: the status request. *)
Lemma tick_eq i l now jobId batchId w :
  timers w !! i = Some l ->
  now <= PollLoop.startTime l + PollLoop.timeout l ->
  Batch.started w = Some (jobId, batchId) ->
  step (Timer i now) w
  = upd_promises
      (fun ps => <[length (promises w) := Cell.make None [KPoll l]]> ps)
      (requested (checkRequest jobId batchId) (KBatchCheck (length (promises w)))
         (upd_promises (fun ps => ps ++ [Cell.pending])
            (upd_timers (delete i) (upd_clock now w)))).
Proof.
  intros Hl Hd Hs. rewrite (timer_fires i l now w Hl). apply toplevel_normal.
  set (w1 := upd_timers (delete i) (upd_clock now w)).
  rewrite (tick_within_deadline l w1 Hd). unfold Batch.check.
  rewrite bind_assoc, bind_newPromise, bind_assoc, bind_gets.
  change (Batch.started (upd_promises _ w1)) with (Batch.started w).
  rewrite Hs. cbv beta iota.
  transitivity
    (await (length (promises w)) (KPoll l)
       (requested (checkRequest jobId batchId)
          (KBatchCheck (length (promises w)))
          (upd_promises (fun ps => ps ++ [Cell.pending]) w1)));
    [reflexivity|].
  apply (await_pending _ _ []). apply lookup_new.
Qed.

(** The remote has answered a status request. *)
Lemma check_answered r n ks v w :
  awaiting w !! r = Some (KBatchCheck n) ->
  promises w !! n = Some (Cell.make None ks) ->
  step (Respond r (Fulfilled (VBatchInfo v))) w
  = upd_microtasks
      (fun m => m ++ map (fun k => (k, Fulfilled (VBatchInfo v))) ks)
      (upd_promises
         (fun ps => <[n := Cell.make (Some (Fulfilled (VBatchInfo v))) []]> ps)
         (upd_awaiting (delete r) w)).
Proof.
  intros Hr Hn. rewrite (respond_runs r _ _ w Hr). apply toplevel_normal.
  unfold resume. apply settle_pending_eq. exact Hn.
Qed.

(** The tick finds the batch completed: [retrieve()]. *)
Lemma completed_retrieves l res rest jobId batchId w :
  microtasks w = (KPoll l, Fulfilled (VBatchInfo res)) :: rest ->
  BatchInfo.state res = BatchState.Completed ->
  Batch.started w = Some (jobId, batchId) ->
  step Microtask w
  = requested (resultRequest jobId batchId)
      (KRetrieve (length (promises w)) jobId batchId)
      (upd_promises (fun ps => ps ++ [Cell.pending])
         (upd_trace (cons (ECall BatchRetrieve))
            (upd_microtasks (fun _ => rest) w))).
Proof.
  intros Hm Hc Hs. rewrite (microtask_runs _ _ rest w Hm).
  apply toplevel_normal. unfold resume. rewrite Hc.
  unfold Batch.retrieve, log.
  rewrite !bind_assoc, bind_modify, bind_assoc, bind_newPromise, bind_assoc,
    bind_gets.
  change (Batch.started (upd_promises _ (upd_trace _ (upd_microtasks _ w))))
    with (Batch.started w).
  rewrite Hs. reflexivity.
Qed.

(** The remote has queued the batch. *)
Lemma queue_answered r batchInfo jobId w :
  awaiting w !! r = Some KQueue ->
  LoadWired w -> loadBatch w = true ->
  JobFields.id (job w) = Some jobId -> jobId <> "" ->
  BatchInfo.id batchInfo <> "" ->
  step (Respond r (Fulfilled (VBatchInfo batchInfo))) w
  = queued batchInfo jobId (upd_awaiting (delete r) w).
Proof.
  intros Hr W Hl Hj Hjn Hbn. rewrite (respond_runs r _ _ w Hr).
  apply toplevel_normal.
  apply (queue_eq batchInfo jobId (upd_awaiting (delete r) w)); assumption.
Qed.

Ltac worlds :=
  cbv [executed wired opened requested queued Job.constructor BatchFields.create
       upd_clock upd_job upd_batch upd_loadBatch upd_jobListeners
       upd_batchListeners upd_promises upd_microtasks upd_awaiting
       upd_nextRequest upd_timers upd_trace
       clock pollInterval pollTimeout job batch loadBatch jobListeners
       batchListeners promises microtasks awaiting nextRequest timers trace
       BatchFields.set_id BatchFields.set_uploadStream BatchFields.set_ended
       BatchFields.set_armed BatchFields.set_piped BatchFields.set_result
       BatchFields.id BatchFields._uploadStream BatchFields.ended
       BatchFields.armed BatchFields.piped BatchFields._result
       JobFields.set_type JobFields.set_operation JobFields.set_id
       JobFields.set_state JobFields.set_batches JobFields.set_jobInfo
       JobFields.type JobFields.operation JobFields.options JobFields.id
       JobFields.state JobFields._batches JobFields._jobInfo].

Lemma delete_new {A} (l : list A) x : delete (length l) (l ++ [x]) = l.
Proof. induction l as [|a l IH]; simpl; [reflexivity|]. f_equal. exact IH. Qed.

Ltac lengths :=
  repeat first [rewrite length_insert | rewrite length_app]; simpl; lia.

Ltac find_promise :=
  repeat first
    [ rewrite lookup_app_l by lengths
    | rewrite list_lookup_insert_ne by lengths ].

(** ** Closing and aborting a job that has its id *)

Lemma lookup_new_l {A} (l : list A) x y : ((l ++ [x]) ++ [y]) !! length l = Some x.
Proof.
  rewrite lookup_app_l by (rewrite length_app; simpl; lia). apply lookup_new.
Qed.

Lemma close_eq jobId w :
  JobFields.id (job w) = Some jobId -> jobId <> "" ->
  Job.close w
  = (Normal (length (promises w)),
     changing KClose JobClose JobState.Closed jobId w).
Proof.
  intros Hj Hn. unfold Job.close, log.
  rewrite bind_modify, bind_newPromise.
  set (w1 := upd_promises _ (upd_trace _ w)).
  rewrite (exec_bind _ _ _ _ _ (changeState_eq JobState.Closed jobId w1 Hj Hn)).
  erewrite exec_bind.
  2: { apply (await_pending _ _ []). unfold waitingId, withResolved.
       cbn [promises upd_job upd_microtasks upd_promises].
       apply lookup_new_l. }
  unfold changing, ret. fold w1. do 3 f_equal.
  unfold w1. cbn [promises upd_promises upd_trace].
  rewrite length_app, Nat.add_1_r. reflexivity.
Qed.

Lemma abort_eq jobId w :
  JobFields.id (job w) = Some jobId -> jobId <> "" ->
  Job.abort w
  = (Normal (length (promises w)),
     changing KAbort JobAbort JobState.Aborted jobId w).
Proof.
  intros Hj Hn. unfold Job.abort, log.
  rewrite bind_modify, bind_newPromise.
  set (w1 := upd_promises _ (upd_trace _ w)).
  rewrite (exec_bind _ _ _ _ _ (changeState_eq JobState.Aborted jobId w1 Hj Hn)).
  erewrite exec_bind.
  2: { apply (await_pending _ _ []). unfold waitingId, withResolved.
       cbn [promises upd_job upd_microtasks upd_promises].
       apply lookup_new_l. }
  unfold changing, ret. fold w1. do 3 f_equal.
  unfold w1. cbn [promises upd_promises upd_trace].
  rewrite length_app, Nat.add_1_r. reflexivity.
Qed.

Lemma changeState_requested state p jobId rest w :
  microtasks w = (KChangeStateId state p, Fulfilled (VString jobId)) :: rest ->
  step Microtask w
  = requested (Job.changeStateRequest jobId state) (KChangeState p)
      (upd_microtasks (fun _ => rest) w).
Proof.
  intros H. rewrite (microtask_runs _ _ rest w H). apply toplevel_normal.
  reflexivity.
Qed.

Lemma changeState_answered r p ks jobInfo w :
  awaiting w !! r = Some (KChangeState p) ->
  promises w !! p = Some (Cell.make None ks) ->
  step (Respond r (Fulfilled (VJobInfo jobInfo))) w
  = upd_microtasks
      (fun m => m ++ map (fun k => (k, Fulfilled (VJobInfo jobInfo))) ks)
      (upd_promises
         (fun ps => <[p := Cell.make (Some (Fulfilled (VJobInfo jobInfo))) []]> ps)
         (upd_job (JobFields.set_state (JobInfo.state jobInfo))
            (upd_awaiting (delete r) w))).
Proof.
  intros Hr Hp. rewrite (respond_runs r _ _ w Hr). apply toplevel_normal.
  unfold resume, setJob. rewrite bind_modify.
  apply settle_pending_eq. exact Hp.
Qed.

(** The rest of [close()] and of [abort()] after a successful state change. *)
Lemma closed_resumes k event p ks v rest w :
  (k = KClose p /\ event = "close") \/ (k = KAbort p /\ event = "abort") ->
  microtasks w = (k, Fulfilled v) :: rest ->
  ErrorListenersOnly w ->
  promises w !! p = Some (Cell.make None ks) ->
  step Microtask w
  = upd_microtasks (fun m => m ++ map (fun k => (k, Fulfilled v)) ks)
      (upd_promises (fun ps => <[p := Cell.make (Some (Fulfilled v)) []]> ps)
         (upd_trace (cons (EEmit OnJob event v))
            (upd_job (JobFields.set_id None)
               (upd_microtasks (fun _ => rest) w)))).
Proof.
  intros Hk Hm He Hp. rewrite (microtask_runs _ _ rest w Hm).
  apply toplevel_normal.
  set (w1 := upd_microtasks (fun _ => rest) w).
  assert (E : (setJob (JobFields.set_id None) ;; emitJob event v) w1
              = (Normal tt,
                 upd_trace (cons (EEmit OnJob event v))
                   (upd_job (JobFields.set_id None) w1))).
  { unfold setJob. rewrite bind_modify.
    apply (emitJob_unheard event v); [exact He|].
    destruct Hk as [[_ ->]|[_ ->]]; discriminate. }
  destruct Hk as [[-> ->]|[-> ->]]; unfold resume;
    rewrite (bind_try _ _ _ _ _ E); cbv beta iota;
    apply settle_pending_eq; exact Hp.
Qed.

(** X19: a job obtained by [bulk.job(id)] has that identity and state [Open],
    and cannot be opened.  [close()], and likewise [abort()], returns a
    promise and, in the next turn, sends the state-change request for
    [Closed], respectively [Aborted], to [/job/<id>].  When the remote
    answers, the job takes the state of the answer and keeps its identity;
    when [close] or [abort] resumes, the identity is [null], the job emits
    'close', respectively 'abort', with the answer, and the promise is
    fulfilled with it. *)
Theorem close_by_id (jobId : string) (w0 : World) (jobInfo : JobInfo.t) :
  jobId <> "" -> microtasks w0 = [] ->
  let w := exec (Bulk.job jobId) w0 in
  let p := length (promises w0) in
  let r := nextRequest w0 in
  (JobFields.id (job w) = Some jobId
   /\ JobFields.state (job w) = JobState.Open
   /\ Job.open w = (Throw openError, w))
  /\ (let w1 := step Microtask (exec Job.close w) in
      let w2 := step (Respond r (Fulfilled (VJobInfo jobInfo))) w1 in
      let w3 := step Microtask w2 in
      eval Job.close w = Normal p
      /\ trace w1 = ERequest r (Job.changeStateRequest jobId JobState.Closed)
                     :: ECall JobClose :: trace w0
      /\ (JobFields.id (job w2) = Some jobId
          /\ JobFields.state (job w2) = JobInfo.state jobInfo)
      /\ (JobFields.id (job w3) = None
          /\ JobFields.state (job w3) = JobInfo.state jobInfo)
      /\ trace w3 = EEmit OnJob "close" (VJobInfo jobInfo) :: trace w1
      /\ settledAt p w3 = Some (Some (Fulfilled (VJobInfo jobInfo))))
  /\ (let w1 := step Microtask (exec Job.abort w) in
      let w2 := step (Respond r (Fulfilled (VJobInfo jobInfo))) w1 in
      let w3 := step Microtask w2 in
      eval Job.abort w = Normal p
      /\ trace w1 = ERequest r (Job.changeStateRequest jobId JobState.Aborted)
                     :: ECall JobAbort :: trace w0
      /\ (JobFields.id (job w2) = Some jobId
          /\ JobFields.state (job w2) = JobInfo.state jobInfo)
      /\ (JobFields.id (job w3) = None
          /\ JobFields.state (job w3) = JobInfo.state jobInfo)
      /\ trace w3 = EEmit OnJob "abort" (VJobInfo jobInfo) :: trace w1
      /\ settledAt p w3 = Some (Some (Fulfilled (VJobInfo jobInfo)))).
Proof.
  intros Hn Hm. cbv zeta.
  destruct w0 as [ck pi pt j0 b0 lb jl bl ps mt aw nr tm tr].
  cbn [microtasks nextRequest promises trace] in *. subst mt.
  set (w := upd_jobListeners (fun _ => [])
              (upd_job (fun _ => Job.constructor None None None (Some jobId))
                 (mkWorld ck pi pt j0 b0 lb jl bl ps [] aw nr tm tr))).
  assert (Ew : exec (Bulk.job jobId)
                 (mkWorld ck pi pt j0 b0 lb jl bl ps [] aw nr tm tr) = w)
    by reflexivity.
  rewrite !Ew. clear Ew.
  assert (Hid : JobFields.id (job w) = Some jobId) by reflexivity.
  assert (Hst : JobFields.state (job w) = JobState.Open).
  { unfold w. cbn. destruct (String.eqb_spec jobId ""); [contradiction|reflexivity]. }
  split; [split; [exact Hid|split; [exact Hst|apply open_throws; reflexivity]]|].
  split.
  - unfold eval, exec. rewrite (close_eq jobId w Hid Hn). cbn [fst snd].
    set (wa := changing _ _ _ _ _).
    rewrite (changeState_requested JobState.Closed
               (length (ps ++ [Cell.pending])) jobId [] wa)
      by reflexivity.
    set (wb := requested _ _ _).
    rewrite (changeState_answered nr (length (ps ++ [Cell.pending]))
               [KClose (length ps)] jobInfo wb).
    2: { apply lookup_insert_eq. }
    2: { unfold wb, wa, changing, waitingId, withResolved, w. worlds.
         rewrite length_app, Nat.add_1_r.
         apply list_lookup_insert_eq. lengths. }
    set (wc := upd_microtasks _ _).
    rewrite (closed_resumes (KClose (length ps)) "close" (length ps) []
               (VJobInfo jobInfo) [] wc).
    2: { left. split; reflexivity. }
    2: { reflexivity. }
    2: { constructor. }
    2: { unfold wc, wb, wa, changing, waitingId, withResolved, w. worlds.
         find_promise. apply lookup_new. }
    split; [reflexivity|]. split; [reflexivity|].
    split; [split; reflexivity|]. split; [split; reflexivity|].
    split; [reflexivity|].
    unfold settledAt. cbn [promises upd_microtasks upd_promises].
    rewrite list_lookup_insert_eq; [reflexivity|].
    unfold wc, wb, wa, changing, waitingId, withResolved, w. worlds. lengths.
  - unfold eval, exec. rewrite (abort_eq jobId w Hid Hn). cbn [fst snd].
    set (wa := changing _ _ _ _ _).
    rewrite (changeState_requested JobState.Aborted
               (length (ps ++ [Cell.pending])) jobId [] wa)
      by reflexivity.
    set (wb := requested _ _ _).
    rewrite (changeState_answered nr (length (ps ++ [Cell.pending]))
               [KAbort (length ps)] jobInfo wb).
    2: { apply lookup_insert_eq. }
    2: { unfold wb, wa, changing, waitingId, withResolved, w. worlds.
         rewrite length_app, Nat.add_1_r.
         apply list_lookup_insert_eq. lengths. }
    set (wc := upd_microtasks _ _).
    rewrite (closed_resumes (KAbort (length ps)) "abort" (length ps) []
               (VJobInfo jobInfo) [] wc).
    2: { right. split; reflexivity. }
    2: { reflexivity. }
    2: { constructor. }
    2: { unfold wc, wb, wa, changing, waitingId, withResolved, w. worlds.
         find_promise. apply lookup_new. }
    split; [reflexivity|]. split; [reflexivity|].
    split; [split; reflexivity|]. split; [split; reflexivity|].
    split; [reflexivity|].
    unfold settledAt. cbn [promises upd_microtasks upd_promises].
    rewrite list_lookup_insert_eq; [reflexivity|].
    unfold wc, wb, wa, changing, waitingId, withResolved, w. worlds. lengths.
Qed.

(** ** A state change that the remote refuses *)

Lemma changeState_rejected r p ks err w :
  awaiting w !! r = Some (KChangeState p) ->
  promises w !! p = Some (Cell.make None ks) ->
  step (Respond r (Rejected err)) w
  = upd_microtasks (fun m => m ++ map (fun k => (k, Rejected err)) ks)
      (upd_promises (fun ps => <[p := Cell.make (Some (Rejected err)) []]> ps)
         (upd_awaiting (delete r) w)).
Proof.
  intros Hr Hp. rewrite (respond_runs r _ _ w Hr). apply toplevel_normal.
  unfold resume. apply settle_pending_eq. exact Hp.
Qed.

Lemma emitJob_grows P event arg w :
  (forall e, quiet e -> P e) ->
  exists new,
    trace (exec (emitJob event arg) w)
    = new ++ EEmit OnJob event arg :: trace w
    /\ Forall P new.
Proof.
  intros HP.
  assert (Hoff : forall l, Listener.once l = true ->
            respects (grows P)
              (modify (upd_jobListeners (removeListener l))))
    by (intros; frame).
  assert (Hh : forall h, respects (grows P) (jobHandler h arg))
    by (intros; frame).
  destruct (respects_dispatch P (grows P) _ jobHandler jobListeners
              event arg Hoff Hh
              (upd_trace (cons (EEmit OnJob event arg)) w))
    as (new & E & F).
  exists new. split; [exact E|exact F].
Qed.

(** The [catch] of [close] and [abort] emits 'error' on the job, whoever
    listens. *)
Lemma catch_emits p err w :
  exists new,
    trace (exec (toplevel (catchEmit emitJob p err)) w)
    = new ++ EEmit OnJob "error" (VError err) :: trace w.
Proof.
  destruct (emitJob_grows anyEffect "error" (VError err) w any_quiet)
    as (new & Et & _).
  exists new. rewrite <- Et.
  assert (E : catchEmit emitJob p err w
              = (Normal tt,
                 exec (settle p (Rejected
                         (match eval (emitJob "error" (VError err)) w with
                          | Throw e => e
                          | Normal _ => err
                          end)))
                   (exec (emitJob "error" (VError err)) w))).
  { unfold catchEmit. rewrite exec_try. apply settle_runs. }
  rewrite (toplevel_normal _ _ _ E).
  destruct (settle_silent p (Rejected
              (match eval (emitJob "error" (VError err)) w with
               | Throw e => e
               | Normal _ => err
               end)) (exec (emitJob "error" (VError err)) w))
    as (w' & Es & S).
  unfold exec at 1. rewrite Es. cbn [snd]. apply S.
Qed.

(** An 'error' of a job nobody listens to is thrown. *)
Lemma emitJob_error_unheard arg w :
  jobListeners w = [] ->
  emitJob "error" arg w
  = (Throw (errorOf arg), upd_trace (cons (EEmit OnJob "error" arg)) w).
Proof.
  intros H. unfold emitJob, emitOn, log. rewrite bind_modify.
  unfold dispatch. unfold bind, gets.
  change (jobListeners (upd_trace _ w)) with (jobListeners w). rewrite H.
  reflexivity.
Qed.

Lemma catch_unheard p err w :
  jobListeners w = [] ->
  promises w !! p = Some Cell.pending ->
  exec (toplevel (catchEmit emitJob p err)) w
  = upd_promises (fun ps => <[p := Cell.make (Some (Rejected err)) []]> ps)
      (upd_trace (cons (EEmit OnJob "error" (VError err))) w).
Proof.
  intros Hl Hp. apply toplevel_normal. unfold catchEmit.
  rewrite (bind_try _ _ _ _ _ (emitJob_error_unheard (VError err) w Hl)).
  cbv beta iota. cbn [errorOf].
  rewrite (settle_pending_eq p (Rejected err) []
             (upd_trace (cons (EEmit OnJob "error" (VError err))) w) Hp).
  f_equal. cbn [map]. unfold upd_microtasks. cbn.
  rewrite app_nil_r. reflexivity.
Qed.

(** [close()] or [abort()] of a job that has its id, with the remote
    refusing the state change: the run, from the call to the [catch]. *)
Lemma refused_change k m state jobId err w :
  k = KClose \/ k = KAbort ->
  microtasks w = [] ->
  let p := length (promises w) in
  let r := nextRequest w in
  let w1 := step Microtask (changing k m state jobId w) in
  let w2 := step (Respond r (Rejected err)) w1 in
  let w3 := step Microtask w2 in
  (trace w1 = ERequest r (Job.changeStateRequest jobId state)
                :: ECall m :: trace w
   /\ awaiting w1 !! r = Some (KChangeState (S p)))
  /\ (microtasks w2 = [(k p, Rejected err)] /\ trace w2 = trace w1
      /\ awaiting w2 !! r = None)
  /\ (exists new,
        trace w3 = new ++ EEmit OnJob "error" (VError err) :: trace w2)
  /\ (sameIdentity w w1 /\ sameIdentity w w2 /\ sameIdentity w w3)
  /\ (jobListeners w = [] ->
      settledAt p w3 = Some (Some (Rejected err))
      /\ trace w3 = EEmit OnJob "error" (VError err) :: trace w2).
Proof.
  intros Hk Hm. cbv zeta.
  destruct w as [ck pi pt j0 b0 lb jl bl ps mt aw nr tm tr].
  cbn [microtasks nextRequest promises trace jobListeners] in *. subst mt.
  set (w := mkWorld ck pi pt j0 b0 lb jl bl ps [] aw nr tm tr).
  set (wa := changing k m state jobId w).
  rewrite (changeState_requested state (length (ps ++ [Cell.pending])) jobId []
             wa) by reflexivity.
  set (wb := requested _ _ _).
  rewrite (changeState_rejected nr (length (ps ++ [Cell.pending]))
             [k (length ps)] err wb).
  2: { apply lookup_insert_eq. }
  2: { unfold wb, wa, changing, waitingId, withResolved, w. worlds.
       rewrite length_app, Nat.add_1_r.
       apply list_lookup_insert_eq. lengths. }
  set (wc := upd_microtasks _ _).
  assert (Hmc : microtasks wc = [(k (length ps), Rejected err)]) by reflexivity.
  assert (Erun : step Microtask wc
                 = exec (toplevel (catchEmit emitJob (length ps) err))
                     (upd_microtasks (fun _ => []) wc)).
  { rewrite (microtask_runs _ _ [] wc Hmc).
    destruct Hk as [Hk|Hk]; rewrite Hk; reflexivity. }
  split.
  { split; [reflexivity|].
    unfold wb, requested. cbn [awaiting upd_nextRequest upd_awaiting].
    rewrite length_app, Nat.add_1_r. apply lookup_insert_eq. }
  split.
  { split; [reflexivity|]. split; [reflexivity|].
    unfold wc. cbn [awaiting upd_microtasks upd_promises upd_awaiting].
    apply lookup_delete_eq. }
  split.
  { rewrite Erun.
    exact (catch_emits (length ps) err (upd_microtasks (fun _ => []) wc)). }
  split.
  { split; [split; reflexivity|]. split; [split; reflexivity|].
    destruct (microtask_rejected_sameIdentity (k (length ps)) err [] wc Hmc)
      as (Hi & Hs).
    split; [rewrite Hi|rewrite Hs]; reflexivity. }
  intros Hl. rewrite Erun.
  rewrite (catch_unheard (length ps) err (upd_microtasks (fun _ => []) wc)).
  2: { exact Hl. }
  2: { unfold wc, wb, wa, changing, waitingId, withResolved, w. worlds.
       find_promise. apply lookup_new. }
  split; [|reflexivity].
  unfold settledAt. cbn [promises upd_microtasks upd_promises upd_trace].
  rewrite list_lookup_insert_eq; [reflexivity|].
  unfold wc, wb, wa, changing, waitingId, withResolved, w. worlds. lengths.
Qed.

(** C10: when the state-change request of [close()] or [abort()] fails, the
    job's [id] and [state] stay as they are.  Step by step: every
    continuation that resumes with a failure leaves them alone, so does
    every step in which the remote rejects a request or a queued reaction
    receives a rejection, and so does the call of [close()] or [abort()]
    itself; the [id] goes from set to [null] only in the continuation of
    [close] or [abort] that runs after [_changeState] has succeeded.  And
    as a run: [close()], or [abort()], on a job that has its id sends the
    state-change request in the next turn; when the remote rejects it,
    [close] is resumed with that rejection and nothing else is queued; its
    [catch] then emits 'error' on the job; and [id] and [state] are, after
    each of the three steps, what they were before the call.  On a job
    nobody listens to, the promise [close()] returned is rejected with the
    error of the remote. *)
Theorem failed_close_keeps_identity (w : World) :
  (forall k err, sameIdentity w (exec (resume k (Rejected err)) w))
  /\ (forall r err, sameIdentity w (step (Respond r (Rejected err)) w))
  /\ (forall k err rest,
        microtasks w = (k, Rejected err) :: rest ->
        sameIdentity w (step Microtask w))
  /\ sameIdentity w (exec Job.close w)
  /\ sameIdentity w (exec Job.abort w)
  /\ (forall k s,
        JobFields.id (job w) <> None ->
        JobFields.id (job (exec (resume k s) w)) = None ->
        closes k s)
  /\ forall jobId err,
       JobFields.id (job w) = Some jobId -> jobId <> "" -> microtasks w = [] ->
       let p := length (promises w) in
       let r := nextRequest w in
       (let w1 := step Microtask (exec Job.close w) in
        let w2 := step (Respond r (Rejected err)) w1 in
        let w3 := step Microtask w2 in
        eval Job.close w = Normal p
        /\ (trace w1 = ERequest r (Job.changeStateRequest jobId JobState.Closed)
                         :: ECall JobClose :: trace w
            /\ awaiting w1 !! r = Some (KChangeState (S p)))
        /\ (microtasks w2 = [(KClose p, Rejected err)] /\ trace w2 = trace w1
            /\ awaiting w2 !! r = None)
        /\ (exists new,
              trace w3 = new ++ EEmit OnJob "error" (VError err) :: trace w2)
        /\ (sameIdentity w w1 /\ sameIdentity w w2 /\ sameIdentity w w3)
        /\ (jobListeners w = [] ->
            settledAt p w3 = Some (Some (Rejected err))
            /\ trace w3 = EEmit OnJob "error" (VError err) :: trace w2))
       /\ (let w1 := step Microtask (exec Job.abort w) in
           let w2 := step (Respond r (Rejected err)) w1 in
           let w3 := step Microtask w2 in
           eval Job.abort w = Normal p
           /\ (trace w1 = ERequest r (Job.changeStateRequest jobId JobState.Aborted)
                            :: ECall JobAbort :: trace w
               /\ awaiting w1 !! r = Some (KChangeState (S p)))
           /\ (microtasks w2 = [(KAbort p, Rejected err)] /\ trace w2 = trace w1
               /\ awaiting w2 !! r = None)
           /\ (exists new,
                 trace w3 = new ++ EEmit OnJob "error" (VError err) :: trace w2)
           /\ (sameIdentity w w1 /\ sameIdentity w w2 /\ sameIdentity w w3)
           /\ (jobListeners w = [] ->
               settledAt p w3 = Some (Some (Rejected err))
               /\ trace w3 = EEmit OnJob "error" (VError err) :: trace w2)).
Proof.
  destruct (rejection_keeps_identity w) as (H1 & H2 & H3 & H4 & H5 & H6).
  split; [exact H1|]. split; [exact H2|]. split; [exact H3|].
  split; [exact H4|]. split; [exact H5|]. split; [exact H6|].
  intros jobId err Hid Hn Hm. cbv zeta. split.
  - unfold eval, exec at 1 2 3 4 5 6 7 8 9 10 11 12 13 14.
    rewrite (close_eq jobId w Hid Hn). cbn [fst snd].
    split; [reflexivity|].
    exact (refused_change KClose JobClose JobState.Closed jobId err w
             (or_introl eq_refl) Hm).
  - unfold eval, exec at 1 2 3 4 5 6 7 8 9 10 11 12 13 14.
    rewrite (abort_eq jobId w Hid Hn). cbn [fst snd].
    split; [reflexivity|].
    exact (refused_change KAbort JobAbort JobState.Aborted jobId err w
             (or_intror eq_refl) Hm).
Qed.

(** ** The batch of [load] closes the job *)

Lemma settle_alone q s w :
  promises w !! q = Some Cell.pending ->
  settle q s w
  = (Normal tt,
     upd_promises (fun ps => <[q := Cell.make (Some s) []]> ps) w).
Proof.
  intros H. rewrite (settle_pending_eq q s [] w H).
  destruct w. unfold upd_microtasks, upd_promises. cbn.
  rewrite app_nil_r. reflexivity.
Qed.

Lemma cleanup_eq jobId w :
  JobFields.id (job w) = Some jobId -> jobId <> "" ->
  cleanup w
  = (Normal tt,
     changing KClose JobClose JobState.Closed jobId (upd_loadBatch false w)).
Proof.
  intros Hj Hn. unfold cleanup. rewrite bind_modify.
  rewrite (exec_bind _ _ _ _ _
             (close_eq jobId (upd_loadBatch false w) Hj Hn)).
  reflexivity.
Qed.

Lemma changing_promise k m state jobId p c w :
  promises w !! p = Some c ->
  promises (changing k m state jobId w) !! p = Some c.
Proof.
  intros H. pose proof (lookup_lt_Some _ _ _ H) as L.
  unfold changing, waitingId, withResolved.
  cbn [promises upd_promises upd_job upd_microtasks upd_trace].
  rewrite list_lookup_insert_ne by lia.
  rewrite !lookup_app_l by (rewrite ?length_app; simpl; lia).
  exact H.
Qed.

(** On the batch of [load], with both listeners of [execute] on and the
    job's id assigned, 'response' and an 'error' that is no timeout call
    [close()] and settle the promise of [execute]. *)
Lemma emit_closing event arg l s p jobId w :
  (event = "response" /\ l = onResponse p /\ s = Fulfilled arg)
  \/ (event = "error" /\ l = onError p /\ s = Rejected (errorOf arg)
      /\ Error.name (errorOf arg) <> "PollingTimeout") ->
  batchListeners w = loadListeners ++ [onResponse p; onError p] ->
  promises w !! p = Some Cell.pending ->
  JobFields.id (job w) = Some jobId -> jobId <> "" ->
  emitBatch event arg w = (Normal tt, closing event arg l p s jobId w).
Proof.
  intros Hev Hl Hp Hj Hn. rewrite emitBatch_log. unfold dispatch.
  rewrite bind_gets.
  change (batchListeners (upd_trace _ w)) with (batchListeners w).
  rewrite Hl.
  set (w0 := upd_trace (cons (EEmit OnBatch event arg)) w).
  assert (Hc : cleanup w0
               = (Normal tt,
                  changing KClose JobClose JobState.Closed jobId
                    (upd_loadBatch false w0)))
    by (apply cleanup_eq; assumption).
  set (w1 := changing _ _ _ _ _) in Hc.
  assert (Hp1 : forall l', promises (upd_batchListeners (removeListener l') w1)
                           !! p = Some Cell.pending).
  { intros l'. unfold upd_batchListeners. cbn [promises].
    unfold w1. apply changing_promise. exact Hp. }
  destruct Hev as [(-> & -> & ->)|(-> & -> & -> & Hname)].
  - change (listenersOf "response" (loadListeners ++ [onResponse p; onError p]))
      with [Listener.make "response" HCleanup false; onResponse p].
    cbn [callListeners Listener.once Listener.handler onResponse batchHandler].
    rewrite (exec_bind _ _ w0 tt w0) by reflexivity.
    rewrite (exec_bind _ _ _ _ _ Hc).
    rewrite bind_modify.
    rewrite (exec_bind _ _ _ _ _ (settle_alone p (Fulfilled arg) _ (Hp1 _))).
    reflexivity.
  - change (listenersOf "error" (loadListeners ++ [onResponse p; onError p]))
      with [Listener.make "error" HCleanupOnError false; onError p].
    cbn [callListeners Listener.once Listener.handler onError batchHandler].
    rewrite (exec_bind _ _ w0 tt w0) by reflexivity.
    assert (Hc' : cleanupOnError (errorOf arg) w0 = (Normal tt, w1)).
    { unfold cleanupOnError.
      destruct (String.eqb_spec (Error.name (errorOf arg)) "PollingTimeout");
        [contradiction|exact Hc]. }
    rewrite (exec_bind _ _ _ _ _ Hc').
    rewrite bind_modify.
    rewrite (exec_bind _ _ _ _ _
               (settle_alone p (Rejected (errorOf arg)) _ (Hp1 _))).
    reflexivity.
Qed.

(** From there the job is closed: the state change is requested in the next
    turn, the answer of the remote gives the state, and [close] resumed
    clears the id and emits 'close'. *)
Lemma closing_run event arg l p s q sq jobId closed w :
  microtasks w = [] -> ErrorListenersOnly w ->
  (p < length (promises w))%nat -> (q < length (promises w))%nat ->
  let w1 := upd_promises (fun ps => <[q := Cell.make (Some sq) []]> ps)
              (closing event arg l p s jobId w) in
  let r := nextRequest w in
  let w2 := step Microtask w1 in
  let w3 := step (Respond r (Fulfilled (VJobInfo closed))) w2 in
  let w4 := step Microtask w3 in
  (trace w2 = ERequest r (Job.changeStateRequest jobId JobState.Closed)
                :: ECall JobClose :: EEmit OnBatch event arg :: trace w
   /\ awaiting w2 !! r = Some (KChangeState (S (length (promises w)))))
  /\ (JobFields.id (job w3) = JobFields.id (job w)
      /\ JobFields.state (job w3) = JobInfo.state closed
      /\ trace w3 = trace w2)
  /\ (JobFields.id (job w4) = None
      /\ JobFields.state (job w4) = JobInfo.state closed
      /\ trace w4 = EEmit OnJob "close" (VJobInfo closed) :: trace w2
      /\ microtasks w4 = [] /\ awaiting w4 !! r = None).
Proof.
  intros Hm He Hp Hq. cbv zeta.
  destruct w as [ck pi pt j0 b0 lb jl bl ps mt aw nr tm tr].
  cbn [microtasks nextRequest promises trace job] in *. subst mt.
  set (w := mkWorld ck pi pt j0 b0 lb jl bl ps [] aw nr tm tr).
  set (w1 := upd_promises _ (closing event arg l p s jobId w)).
  rewrite (changeState_requested JobState.Closed
             (length (ps ++ [Cell.pending])) jobId [] w1) by reflexivity.
  set (wb := requested _ _ _).
  rewrite (changeState_answered nr (length (ps ++ [Cell.pending]))
             [KClose (length ps)] closed wb).
  2: { apply lookup_insert_eq. }
  2: { unfold wb, w1, closing, changing, waitingId, withResolved, w. worlds.
       rewrite length_app, Nat.add_1_r.
       rewrite !list_lookup_insert_ne by lia.
       apply list_lookup_insert_eq. lengths. }
  set (wc := upd_microtasks _ _).
  rewrite (closed_resumes (KClose (length ps)) "close" (length ps) []
             (VJobInfo closed) [] wc).
  2: { left. split; reflexivity. }
  2: { reflexivity. }
  2: { exact He. }
  2: { unfold wc, wb, w1, closing, changing, waitingId, withResolved, w. worlds.
       rewrite length_app, Nat.add_1_r.
       rewrite !list_lookup_insert_ne by lia.
       rewrite !lookup_app_l by (rewrite ?length_app; simpl; lia).
       apply lookup_new. }
  split.
  { split; [reflexivity|].
    unfold wb, requested. cbn [awaiting upd_nextRequest upd_awaiting].
    rewrite length_app, Nat.add_1_r. apply lookup_insert_eq. }
  split; [repeat split; reflexivity|].
  split; [reflexivity|]. split; [reflexivity|]. split; [reflexivity|].
  split; [reflexivity|].
  cbn [awaiting upd_microtasks upd_promises upd_trace upd_job upd_awaiting].
  unfold wc. cbn [awaiting upd_microtasks upd_promises upd_trace upd_job
                  upd_awaiting].
  apply lookup_delete_eq.
Qed.

Lemma retrieving_awaited p q jobId w : Retrieving p q jobId w -> Awaited p w.
Proof.
  intros (Hl & Hp & _). exists [onResponse p; onError p].
  split; [exact Hl|]. split.
  - apply List.Forall_cons;
      [split; [reflexivity|left; split; [reflexivity|eexists; reflexivity]]|].
    apply List.Forall_cons;
      [split; [reflexivity|right; split; [reflexivity|eexists; reflexivity]]|].
    apply List.Forall_nil.
  - split; [left; reflexivity|]. split; [right; left; reflexivity|].
    unfold settledAt. rewrite Hp. reflexivity.
Qed.

Lemma closing_promise event arg l p s jobId q c w :
  p <> q -> promises w !! q = Some c ->
  promises (closing event arg l p s jobId w) !! q = Some c.
Proof.
  intros Hne H. pose proof (lookup_lt_Some _ _ _ H) as L.
  unfold closing, changing, waitingId, withResolved.
  cbn [promises upd_promises upd_job upd_microtasks upd_trace
       upd_batchListeners upd_loadBatch].
  rewrite list_lookup_insert_ne by exact Hne.
  rewrite list_lookup_insert_ne by lia.
  rewrite !lookup_app_l by (rewrite ?length_app; simpl; lia).
  exact H.
Qed.

(** The rows of a load arrive while the batch waits for them. *)
Lemma rows_close p q jobId jobId' batchId rows w :
  Retrieving p q jobId w ->
  JobFields.operation (job w) <> Some "query" ->
  JobFields.operation (job w) <> Some "queryAll" ->
  let results := VResult (LoadResult (Batch.loadResults rows)) in
  resume (KRetrieve q jobId' batchId) (Fulfilled (VLoadResponse rows)) w
  = (Normal tt,
     upd_promises (fun ps => <[q := Cell.make (Some (Fulfilled results)) []]> ps)
       (closing "response" results (onResponse p) p (Fulfilled results)
          jobId w)).
Proof.
  intros R Hq Hqa. cbv zeta.
  destruct (rows_arrive p q jobId' batchId rows w
              (retrieving_awaited p q jobId w R) Hq Hqa) as (E & _).
  destruct R as (Hl & Hp & Hpq & Hne & Hj & Hn & _).
  rewrite E. unfold exec.
  rewrite (emit_closing "response" _ (onResponse p) (Fulfilled _)
             p jobId w (or_introl (conj eq_refl (conj eq_refl eq_refl)))
             Hl Hp Hj Hn).
  cbn [snd].
  rewrite (settle_alone q _ _ (closing_promise _ _ _ _ _ _ q _ w Hne Hpq)).
  reflexivity.
Qed.

(** [retrieve] fails while the batch waits for its results. *)
Lemma failure_closes p q jobId jobId' batchId err w :
  Retrieving p q jobId w ->
  Error.name err <> "PollingTimeout" ->
  resume (KRetrieve q jobId' batchId) (Rejected err) w
  = (Normal tt,
     upd_promises (fun ps => <[q := Cell.make (Some (Rejected err)) []]> ps)
       (closing "error" (VError err) (onError p) p (Rejected err) jobId w)).
Proof.
  intros (Hl & Hp & Hpq & Hne & Hj & Hn & _) Hname.
  unfold resume, catchEmit.
  rewrite (bind_try _ _ _ _ _
             (emit_closing "error" (VError err) (onError p) (Rejected err)
                p jobId w
                (or_intror (conj eq_refl (conj eq_refl (conj eq_refl Hname))))
                Hl Hp Hj Hn)).
  cbv beta iota.
  apply (settle_alone q (Rejected err) _
           (closing_promise _ _ _ _ _ _ q _ w Hne Hpq)).
Qed.

(** After 'response', or an 'error' that is no timeout, on the batch that
    waits for its results, the job is closed. *)
Lemma closing_closes event arg l p s q sq jobId closed w :
  Retrieving p q jobId w ->
  let w1 := upd_promises (fun ps => <[q := Cell.make (Some sq) []]> ps)
              (closing event arg l p s jobId w) in
  trace w1 = ECall JobClose :: EEmit OnBatch event arg :: trace w
  /\ JobFields.id (job w1) = Some jobId
  /\ Closes (nextRequest w) jobId closed w1.
Proof.
  intros (_ & Hp & Hq & _ & Hj & _ & Hm & He). cbv zeta.
  split; [reflexivity|]. split; [exact Hj|].
  destruct (closing_run event arg l p s q sq jobId closed w Hm He
              (lookup_lt_Some _ _ _ Hp) (lookup_lt_Some _ _ _ Hq))
    as ((Ht2 & _) & (Hi3 & Hs3 & Ht3) & (Hi4 & Hs4 & Ht4 & _)).
  unfold Closes. cbv zeta.
  split; [exact Ht2|].
  split; [split; [rewrite Hi3; exact Hj|split; [exact Hs3|exact Ht3]]|].
  split; [exact Hi4|]. split; [exact Hs4|exact Ht4].
Qed.

(** X13: with the batch of [load] awaited through [p] and an operation other
    than [query] and [queryAll]: when [retrieve] resumes with the rows of
    the remote, [p] is fulfilled with the decoded results and [close()] is
    called after the 'response' event; when it resumes with a failure, [p]
    is rejected with the error and, unless the error is a polling timeout,
    [close()] is called after the 'error' event; and when it resumes with a
    query response, [p] is rejected with a [TypeError].  When moreover the
    batch waits for its results with the job's id assigned and nothing
    queued, that call closes the job: 'response', or the 'error', and the
    call are all that is noted; in the next turn the state change to
    [Closed] is requested; the answer of the remote gives the job its state;
    and [close] resumed sets the id to [null] and emits 'close'. *)
Theorem retrieve_settles_load (p q : nat) (jobId batchId : string)
    (w : World) :
  Awaited p w ->
  JobFields.operation (job w) <> Some "query" ->
  JobFields.operation (job w) <> Some "queryAll" ->
  let rest := resume (KRetrieve q jobId batchId) in
  (forall rows,
     let results := VResult (LoadResult (Batch.loadResults rows)) in
     let w' := exec (rest (Fulfilled (VLoadResponse rows))) w in
     settledAt p w' = Some (Some (Fulfilled results))
     /\ exists new,
          trace w' = new ++ ECall JobClose
                       :: EEmit OnBatch "response" results :: trace w)
  /\ (forall err,
        let w' := exec (rest (Rejected err)) w in
        settledAt p w' = Some (Some (Rejected err))
        /\ (Error.name err <> "PollingTimeout" ->
            exists new,
              trace w' = new ++ ECall JobClose
                           :: EEmit OnBatch "error" (VError err) :: trace w))
  /\ (forall result,
        settledAt p (exec (rest (Fulfilled (VQueryResponse result))) w)
        = Some (Some (Rejected (TypeError "res.map is not a function"))))
  /\ (Retrieving p q jobId w ->
      forall closed,
        (forall rows,
           let results := VResult (LoadResult (Batch.loadResults rows)) in
           let w' := exec (rest (Fulfilled (VLoadResponse rows))) w in
           trace w' = ECall JobClose :: EEmit OnBatch "response" results
                        :: trace w
           /\ Closes (nextRequest w) jobId closed w')
        /\ (forall err,
              Error.name err <> "PollingTimeout" ->
              let w' := exec (rest (Rejected err)) w in
              trace w' = ECall JobClose :: EEmit OnBatch "error" (VError err)
                           :: trace w
              /\ Closes (nextRequest w) jobId closed w')).
Proof.
  intros H Hq Hqa. cbv zeta. split; [|split; [|split]].
  - intros rows.
    destruct (rows_arrive p q jobId batchId rows w H Hq Hqa) as (E & S & T).
    unfold exec. rewrite E. cbn [snd]. split; [exact S|exact T].
  - intros err. apply (catchEmit_awaited p q err w H).
  - intros result. unfold exec, resume. rewrite bind_gets.
    assert (D : Batch.decode (JobFields.operation (job w))
                  (VQueryResponse result) jobId batchId
                = Throw (TypeError "res.map is not a function")).
    { unfold Batch.decode. apply operationIs_false in Hq, Hqa.
      rewrite Hq, Hqa. reflexivity. }
    rewrite D.
    erewrite bind_try by reflexivity. cbv beta iota.
    apply (catchEmit_awaited p q _ w H).
  - intros R closed. split.
    + intros rows. unfold exec.
      rewrite (rows_close p q jobId jobId batchId rows w R Hq Hqa).
      cbn [snd].
      destruct (closing_closes "response"
                  (VResult (LoadResult (Batch.loadResults rows)))
                  (onResponse p) p
                  (Fulfilled (VResult (LoadResult (Batch.loadResults rows)))) q
                  (Fulfilled (VResult (LoadResult (Batch.loadResults rows))))
                  jobId closed w R) as (T & _ & C).
      split; [exact T|exact C].
    + intros err Hname. unfold exec.
      rewrite (failure_closes p q jobId jobId batchId err w R Hname).
      cbn [snd].
      destruct (closing_closes "error" (VError err) (onError p) p
                  (Rejected err) q (Rejected err) jobId closed w R)
        as (T & _ & C).
      split; [exact T|exact C].
Qed.

(** ** A load, to the end *)

Lemma lookup_last {A} (l : list A) x n : n = length l -> (l ++ [x]) !! n = Some x.
Proof. intros ->. apply lookup_new. Qed.

(** The world once a load has run up to [retrieve]: the results are awaited
    from the remote. *)
Lemma load_runs_to_retrieve (type operation : string)
    (optionsOrInput : OptionsOrInput) (input : Input) (w0 : World)
    (jobInfo : JobInfo.t) (batchInfo res : BatchInfo.t) (now : Z) :
  type <> "" -> operation <> "" ->
  microtasks w0 = [] ->
  JobInfo.id jobInfo <> "" -> BatchInfo.id batchInfo <> "" ->
  BatchInfo.state res = BatchState.Completed ->
  now <= clock w0 + pollTimeout w0 ->
  let r := nextRequest w0 in
  let p := length (promises w0) in
  let jobId := JobInfo.id jobInfo in
  let batchId := BatchInfo.id batchInfo in
  let w := run [Readable; Respond r (Fulfilled (VJobInfo jobInfo)); Microtask;
                Respond (S r) (Fulfilled (VBatchInfo batchInfo));
                Timer (length (timers w0)) now;
                Respond (S (S r)) (Fulfilled (VBatchInfo res)); Microtask]
             (exec (Bulk.load type operation optionsOrInput input) w0) in
  trace w
  = [ERequest (S (S (S r))) (resultRequest jobId batchId);
     ECall BatchRetrieve;
     ERequest (S (S r)) (checkRequest jobId batchId);
     EEmit OnBatch "queue" (VBatchInfo batchInfo);
     ERequest (S r) (batchRequest (Some jobId));
     EEmit OnJob "open" (VJobInfo jobInfo);
     ERequest r (Job.openRequest
                   (Job.constructor (Some type) (Some operation)
                      (optionsOf optionsOrInput) None))]
    ++ trace w0
  /\ awaiting w !! S (S (S r)) = Some (KRetrieve (p + 3) jobId batchId)
  /\ Retrieving p (p + 3) jobId (upd_awaiting (delete (S (S (S r)))) w)
  /\ nextRequest w = S (S (S (S r)))
  /\ JobFields.operation (job w) = Some operation
  /\ BatchFields.id (batch w) = Some batchId
  /\ timers w = timers w0.
Proof.
  intros Ht Ho Hm Hj Hb Hc Hnow. cbv zeta.
  destruct w0 as [ck pi pt j0 b0 lb jl bl ps mt aw nr tm tr].
  cbn [microtasks clock pollTimeout nextRequest promises timers trace] in *.
  subst mt.
  unfold exec. rewrite load_eq. cbn [snd run fold_left].
  set (wa := executed _ _).
  assert (Hwa : Awaited (length ps) wa).
  { pose proof (load_awaited type operation optionsOrInput input
                  (mkWorld ck pi pt j0 b0 lb jl bl ps [] aw nr tm tr)) as H.
    unfold exec in H. rewrite load_eq in H. exact H. }
  pose proof (awaited_wired _ _ Hwa) as Wa.
  rewrite (readable_eq wa); [|reflexivity| |reflexivity].
  2: { unfold wa. worlds.
       rewrite (truthy_Some _ Ht), (truthy_Some _ Ho). reflexivity. }
  set (wb := upd_promises _ _).
  rewrite (open_answered nr (length (promises wa)) [KReadable] jobInfo wb).
  2: { unfold wb, wa. apply lookup_insert_eq. }
  2: { unfold wb, wa. repeat constructor. }
  2: { unfold wb, wa. apply lookup_insert_new. }
  set (wc := upd_microtasks _ _).
  rewrite (upload_starts (VJobInfo jobInfo) [] wc).
  2: { unfold wc, wb, wa. worlds. reflexivity. }
  set (wd := requested _ _ _).
  rewrite (queue_answered (S nr) batchInfo (JobInfo.id jobInfo) wd);
    [|apply lookup_insert_eq|exact Wa|reflexivity|reflexivity|exact Hj|exact Hb].
  set (we := queued _ _ _).
  set (l := PollLoop.make ck pt pi (JobInfo.id jobInfo) (BatchInfo.id batchInfo)).
  rewrite (tick_eq (length tm) l now (JobInfo.id jobInfo)
             (BatchInfo.id batchInfo) we).
  2: { unfold we, queued. cbn [timers upd_timers]. apply lookup_new. }
  2: { exact Hnow. }
  2: { apply started_eq; [reflexivity|reflexivity|exact Hj|exact Hb]. }
  set (wf := upd_promises _ _).
  rewrite (check_answered (S (S nr)) (length (promises we)) [KPoll l] res wf).
  2: { unfold wf. apply lookup_insert_eq. }
  2: { unfold wf. apply lookup_insert_new. }
  set (wg := upd_microtasks _ _).
  rewrite (completed_retrieves l res [] (JobInfo.id jobInfo)
             (BatchInfo.id batchInfo) wg).
  2: { unfold wg, wf, we, wd, wc, wb, wa. worlds. reflexivity. }
  2: { exact Hc. }
  2: { apply started_eq; [reflexivity|reflexivity|exact Hj|exact Hb]. }
  set (wh := requested _ _ _).
  split; [reflexivity|].
  split.
  { unfold wh, requested. cbn [awaiting upd_nextRequest upd_awaiting].
    rewrite lookup_insert_eq. do 2 f_equal.
    unfold wg, wf, we, wd, wc, wb, wa. worlds. lengths. }
  split.
  { split; [reflexivity|].
    split.
    { unfold wh, wg, wf, we, wd, wc, wb, wa. worlds.
      find_promise. apply lookup_new. }
    split.
    { unfold wh, wg, wf, we, wd, wc, wb, wa. worlds.
      apply lookup_last. lengths. }
    split; [lia|]. split; [reflexivity|]. split; [exact Hj|].
    split; [reflexivity|]. repeat constructor. }
  split; [reflexivity|].
  split; [reflexivity|]. split; [reflexivity|].
  unfold wh, wg, wf, we, wd, wc, wb, wa. worlds. apply delete_new.
Qed.

(** X18: a successful load from end to end.  After [load] on a facade with
    nothing queued, for an operation other than [query] and [queryAll]:
    when the upload becomes readable, the remote opens the job and accepts
    the batch, the poll timer fires within the deadline and the remote
    reports the batch [Completed], then the effects are, oldest first, the
    open request, the 'open' event, the upload request under the job's
    identity, the 'queue' event, the check request, the call of [retrieve]
    and the result request; the promise of the batch is still pending and
    the timers are those from before.  When the remote then answers with
    the rows, the promise is fulfilled with the decoded results, the batch
    emits 'response' and [close()] is called, the job still having its id.
    And the job is closed: in the next turn the state change to [Closed] is
    requested, and when the remote has answered it and [close] is resumed,
    the job has the state of the answer and no id, and has emitted
    'close'. *)
Theorem load_end_to_end (type operation : string)
    (optionsOrInput : OptionsOrInput) (input : Input) (w0 : World)
    (jobInfo closed : JobInfo.t) (batchInfo res : BatchInfo.t)
    (rows : list Row.t) (now : Z) :
  type <> "" -> operation <> "" ->
  operation <> "query" -> operation <> "queryAll" ->
  microtasks w0 = [] ->
  JobInfo.id jobInfo <> "" -> BatchInfo.id batchInfo <> "" ->
  BatchInfo.state res = BatchState.Completed ->
  now <= clock w0 + pollTimeout w0 ->
  let r := nextRequest w0 in
  let p := length (promises w0) in
  let jobId := JobInfo.id jobInfo in
  let batchId := BatchInfo.id batchInfo in
  let w := run [Readable; Respond r (Fulfilled (VJobInfo jobInfo)); Microtask;
                Respond (S r) (Fulfilled (VBatchInfo batchInfo));
                Timer (length (timers w0)) now;
                Respond (S (S r)) (Fulfilled (VBatchInfo res)); Microtask]
             (exec (Bulk.load type operation optionsOrInput input) w0) in
  let results := VResult (LoadResult (Batch.loadResults rows)) in
  let w' := step (Respond (S (S (S r))) (Fulfilled (VLoadResponse rows))) w in
  let w'' := run [Microtask;
                  Respond (S (S (S (S r)))) (Fulfilled (VJobInfo closed));
                  Microtask] w' in
  trace w
  = [ERequest (S (S (S r))) (resultRequest jobId batchId);
     ECall BatchRetrieve;
     ERequest (S (S r)) (checkRequest jobId batchId);
     EEmit OnBatch "queue" (VBatchInfo batchInfo);
     ERequest (S r) (batchRequest (Some jobId));
     EEmit OnJob "open" (VJobInfo jobInfo);
     ERequest r (Job.openRequest
                   (Job.constructor (Some type) (Some operation)
                      (optionsOf optionsOrInput) None))]
    ++ trace w0
  /\ settledAt p w = Some None
  /\ timers w = timers w0
  /\ settledAt p w' = Some (Some (Fulfilled results))
  /\ trace w' = ECall JobClose :: EEmit OnBatch "response" results :: trace w
  /\ JobFields.id (job w') = Some jobId
  /\ trace w''
     = EEmit OnJob "close" (VJobInfo closed)
       :: ERequest (S (S (S (S r))))
            (Job.changeStateRequest jobId JobState.Closed)
       :: trace w'
  /\ JobFields.id (job w'') = None
  /\ JobFields.state (job w'') = JobInfo.state closed.
Proof.
  intros Ht Ho Hq Hqa Hm Hj Hb Hc Hnow. cbv zeta.
  destruct (load_runs_to_retrieve type operation optionsOrInput input w0
              jobInfo batchInfo res now Ht Ho Hm Hj Hb Hc Hnow)
    as (Htr & Hr & R & Hnr & Hop & _ & Htm).
  set (w := run _ (exec (Bulk.load type operation optionsOrInput input) w0)) in *.
  set (p := length (promises w0)) in *.
  pose proof (retrieving_awaited _ _ _ _ R) as Ha.
  split; [exact Htr|].
  split; [destruct Ha as (? & _ & _ & _ & _ & S0); exact S0|].
  split; [exact Htm|].
  rewrite (respond_runs _ _ _ w Hr).
  set (w1 := upd_awaiting _ w) in *.
  assert (Hq1 : JobFields.operation (job w1) <> Some "query")
    by (change (job w1) with (job w); rewrite Hop; congruence).
  assert (Hqa1 : JobFields.operation (job w1) <> Some "queryAll")
    by (change (job w1) with (job w); rewrite Hop; congruence).
  destruct (rows_arrive p (p + 3) (JobInfo.id jobInfo) (BatchInfo.id batchInfo)
              rows w1 Ha Hq1 Hqa1) as (E0 & S & _).
  pose proof (rows_close p (p + 3) (JobInfo.id jobInfo) (JobInfo.id jobInfo)
                (BatchInfo.id batchInfo) rows w1 R Hq1 Hqa1) as E.
  cbv zeta in E. rewrite E in E0. injection E0 as E0. rewrite <- E0 in S.
  clear E0. rewrite (toplevel_normal _ _ _ E).
  destruct (closing_closes "response"
              (VResult (LoadResult (Batch.loadResults rows)))
              (onResponse p) p
              (Fulfilled (VResult (LoadResult (Batch.loadResults rows))))
              (p + 3)
              (Fulfilled (VResult (LoadResult (Batch.loadResults rows))))
              (JobInfo.id jobInfo) closed w1 R)
    as (T & I & (T2 & (_ & _ & T3) & (I4 & S4 & T4))).
  set (w' := upd_promises _ (closing _ _ _ _ _ _ w1)) in *.
  change (nextRequest w1) with (nextRequest w) in *. rewrite Hnr in *.
  cbn [run fold_left].
  split; [exact S|]. split; [exact T|]. split; [exact I|].
  split; [rewrite T4, T2; reflexivity|].
  split; [exact I4|exact S4].
Qed.

(** ** The case of the operation *)

(** X20: [open] compares the operation in lower case, [_write] and
    [retrieve] compare it as it is.  So for an operation that is [insert],
    [delete] or [query] up to case, but not in that spelling, the open
    request is the one of the lower-case operation, yet [_write] keeps the
    [Id] of the record of an insert and the other fields of the record of a
    delete, and [retrieve] takes the response of a query for rows and
    fails. *)
Theorem operation_case_matters (this : JobFields.t) (operation : string) :
  JobFields.operation this = Some operation ->
  (JS.toLowerCase operation = "insert" -> operation <> "insert" ->
   Job.openBody this
   = Job.openBody (JobFields.set_operation (Some "insert") this)
   /\ forall record_,
        Batch.shape (Some "insert") record_ !! "Id" = None
        /\ Batch.shape (Some operation) record_ !! "Id"
           = Some (default FUndefined (record_ !! "Id")))
  /\ (JS.toLowerCase operation = "delete" -> operation <> "delete" ->
      Job.openBody this
      = Job.openBody (JobFields.set_operation (Some "delete") this)
      /\ forall record_ k,
           k <> "Id" -> k <> "type" -> k <> "attributes" ->
           Batch.shape (Some "delete") record_ !! k = None
           /\ Batch.shape (Some operation) record_ !! k = record_ !! k)
  /\ (JS.toLowerCase operation = "query" -> operation <> "query" ->
      Job.openBody this
      = Job.openBody (JobFields.set_operation (Some "query") this)
      /\ forall result jobId batchId,
           Batch.decode (Some "query") (VQueryResponse result) jobId batchId
           = Normal (QueryResult (Batch.queryResults result jobId batchId))
           /\ Batch.decode (Some operation) (VQueryResponse result) jobId batchId
              = Throw (TypeError "res.map is not a function")).
Proof.
  intros Hop.
  assert (Hbody : forall canonical,
            JS.toLowerCase operation = JS.toLowerCase canonical ->
            Job.openBody this
            = Job.openBody (JobFields.set_operation (Some canonical) this)).
  { intros canonical H. unfold Job.openBody. simpl. rewrite Hop. simpl.
    rewrite H. reflexivity. }
  assert (Hlow : forall canonical other,
            JS.toLowerCase operation = canonical ->
            JS.toLowerCase other <> canonical ->
            Batch.operationIs (Some operation) other = false).
  { intros canonical other H1 H2. apply operationIs_false. intros [= ->].
    contradiction. }
  split; [|split].
  - intros Hl Hn. split; [apply Hbody; rewrite Hl; reflexivity|].
    intros record_. split; [apply shape_insert|].
    rewrite shape_other.
    + apply lookup_insert_eq.
    + congruence.
    + intros [= ->]. discriminate.
    + intros [= ->]. discriminate.
  - intros Hl Hn. split; [apply Hbody; rewrite Hl; reflexivity|].
    intros record_ k Hk Ht Ha. split.
    + rewrite (shape_delete (Some "delete") record_ (or_introl eq_refl)).
      apply lookup_singleton_ne. congruence.
    + rewrite shape_other.
      * rewrite lookup_insert_ne by congruence.
        rewrite !lookup_delete_ne by congruence. reflexivity.
      * intros [= ->]. discriminate.
      * congruence.
      * intros [= ->]. discriminate.
  - intros Hl Hn. split; [apply Hbody; rewrite Hl; reflexivity|].
    intros result jobId batchId. split; [reflexivity|].
    unfold Batch.decode.
    assert (H1 : Batch.operationIs (Some operation) "query" = false)
      by (apply operationIs_false; congruence).
    assert (H2 : Batch.operationIs (Some operation) "queryAll" = false)
      by (apply (Hlow "query"); [exact Hl|discriminate]).
    rewrite H1, H2. reflexivity.
Qed.

(** ** The theorems at work on one run each *)

Lemma polling_timeout_witness :
  let opened := VJobInfo (JobInfo.make "750" "Account" "insert" JobState.Open) in
  let queued :=
    VBatchInfo (BatchInfo.make "751" "750" BatchState.Queued "" "0" "0" "0") in
  let w :=
    run [Readable; Respond 0 (Fulfilled opened); Microtask;
         Respond 1 (Fulfilled queued)]
      (exec (Bulk.load "Account" "insert" (NotOptions (InString "Name")) InNone)
         Bulk.constructor) in
  let l := PollLoop.make 0 10000 1000 "750" "751" in
  timers w !! 0%nat = Some l
  /\ PollLoop.startTime l + PollLoop.timeout l < 20000
  /\ trace (step (Timer 0 20000) w)
     = EEmit OnBatch "error" (VError (timeoutError l)) :: trace w
  /\ timers (step (Timer 0 20000) w) = []
  /\ job (step (Timer 0 20000) w) = job w.
Proof.
  intros opened queued w l.
  assert (Hl : timers w !! 0%nat = Some l) by reflexivity.
  assert (Hd : PollLoop.startTime l + PollLoop.timeout l < 20000)
    by (simpl; lia).
  split; [exact Hl|]. split; [exact Hd|].
  destruct (polling_timeout_leaves_job_open "Account" "insert"
              (NotOptions (InString "Name")) InNone Bulk.constructor
              [Readable; Respond 0 (Fulfilled opened); Microtask;
               Respond 1 (Fulfilled queued)])
    as (_ & Htick & _).
  destruct (Htick 0%nat l 20000 Hl Hd) as (Ht & Hm & _ & Hj).
  split; [exact Ht|]. split; [|exact Hj].
  transitivity (delete 0%nat (timers w)); [exact Hm|reflexivity].
Defined.

Lemma write_shapes_record_witness :
  let record_ : Rec :=
    <["Id" := FString "001"]> (<["attributes" := FString "Account"]>
      (<["type" := FString "Account"]> (<["Name" := FString "Acme"]> ∅))) in
  let upserting := exec (Bulk.createJob "Account" "upsert" None ;; Job.createBatch)
                     Bulk.constructor in
  let inserting := exec (Bulk.createJob "Account" "insert" None ;; Job.createBatch)
                     Bulk.constructor in
  let deleting := exec (Bulk.createJob "Account" "delete" None ;; Job.createBatch)
                    Bulk.constructor in
  (exists record,
     BatchFields._uploadStream (batch (exec (Batch._write record_) upserting))
     = [CRecord record]
     /\ record !! "Id" = Some (FString "001")
     /\ record !! "Name" = Some (FString "Acme")
     /\ record !! "type" = None
     /\ record !! "attributes" = None)
  /\ (exists record,
        BatchFields._uploadStream (batch (exec (Batch._write record_) inserting))
        = [CRecord record]
        /\ record !! "Id" = None
        /\ record !! "Name" = Some (FString "Acme")
        /\ record !! "type" = None
        /\ record !! "attributes" = None)
  /\ exists record,
       BatchFields._uploadStream (batch (exec (Batch._write record_) deleting))
       = [CRecord record]
       /\ dom record = {[ "Id" ]}
       /\ record !! "Id" = Some (FString "001").
Proof.
  intros record_ upserting inserting deleting. split; [|split].
  - destruct (write_shapes_record upserting record_)
      as (record & Hw & (Ht & Ha) & _ & _ & Ho).
    exists record. split; [exact Hw|].
    destruct Ho as (Hi & Hk);
      [vm_compute; discriminate | vm_compute; discriminate
      | vm_compute; discriminate |].
    split; [exact Hi|]. split; [|split; [exact Ht|exact Ha]].
    transitivity (record_ !! "Name"); [apply Hk; discriminate|reflexivity].
  - destruct (write_shapes_record inserting record_)
      as (record & Hw & (Ht & Ha) & Hins & _).
    exists record. split; [exact Hw|].
    destruct (Hins eq_refl) as (Hi & Hk).
    split; [exact Hi|]. split; [|split; [exact Ht|exact Ha]].
    transitivity (record_ !! "Name"); [apply Hk; discriminate|reflexivity].
  - destruct (write_shapes_record deleting record_)
      as (record & Hw & _ & _ & Hdel & _).
    exists record. split; [exact Hw|].
    destruct (Hdel (or_introl eq_refl)) as (Hd & Hi).
    split; [exact Hd|exact Hi].
Defined.

Lemma retrieve_load_envelope_witness :
  let w := exec (Bulk.load "Account" "insert" (NotOptions (InString "Name")) InNone)
             Bulk.constructor in
  let rows :=
    [Row.make (Some "001") (Some "true") (Some "");
     Row.make None (Some "false") (Some "Required field missing");
     Row.make (Some "003") (Some "true") (Some "")] in
  Batch.decode (JobFields.operation (job w)) (VLoadResponse rows) "750" "751"
  = Normal (LoadResult
      [LoadEntry.make (Some "001") true [];
       LoadEntry.make None false ["Required field missing"];
       LoadEntry.make (Some "003") true []]).
Proof.
  intros w rows.
  destruct (retrieve_load_envelope w 0 "750" "751" rows)
    as (Hd & _); [vm_compute; discriminate | vm_compute; discriminate |].
  transitivity (Normal (LoadResult (Batch.loadResults rows)));
    [exact Hd|reflexivity].
Defined.

Lemma failed_batch_outcome_witness :
  let w := exec (Bulk.load "Account" "insert" (NotOptions (InString "Name")) InNone)
             Bulk.constructor in
  let l := PollLoop.make 0 10000 1000 "750" "751" in
  let res :=
    BatchInfo.make "751" "750" BatchState.Failed "InvalidBatch" "0" "0" "0" in
  exists new,
    trace (exec (resume (KPoll l) (Fulfilled (VBatchInfo res))) w)
    = new ++ EEmit OnBatch "error" (VError (new_Error "InvalidBatch")) :: trace w
    /\ Forall (fun e => e <> ECall BatchRetrieve) new.
Proof.
  intros w l res.
  destruct (failed_batch_outcome w l res eq_refl) as (_ & Hzero).
  destruct (Hzero eq_refl) as (_ & _ & H). exact H.
Defined.


Lemma job_lifecycle_witness :
  let opened := JobInfo.make "750" "Account" "insert" JobState.Open in
  let closed := JobInfo.make "750" "Account" "insert" JobState.Closed in
  let w := exec (Bulk.createJob "Account" "insert" None ;;
                 _ <- Job.open ;; ret tt) Bulk.constructor in
  let w1 := step (Respond 0 (Fulfilled (VJobInfo opened))) w in
  let w2 := run [Microtask] (exec (_ <- Job.close ;; ret tt) w1) in
  let w3 := step (Respond 1 (Fulfilled (VJobInfo closed))) w2 in
  let w4 := step Microtask w3 in
  JobFields.state (job w) = JobState.Unknown
  /\ (JobFields.id (job w1) = Some "750"
      /\ JobFields.state (job w1) = JobState.Open)
  /\ JobFields.state (job w3) = JobState.Closed
  /\ (JobFields.id (job w4) = None
      /\ JobFields.state (job w4) = JobState.Closed).
Proof.
  intros opened closed w w1 w2 w3 w4. split; [reflexivity|].
  destruct job_lifecycle as (_ & _ & Hopen & Hchange & Hclose & _).
  split; [|split].
  - destruct (Hopen w 0%nat 0%nat opened) as (Hid & _ & Hst);
      [constructor|reflexivity|].
    split; [exact Hid|exact (Hst eq_refl)].
  - destruct (Hchange w2 1%nat 2%nat closed) as (_ & _ & Hst); [reflexivity|].
    exact (Hst eq_refl).
  - destruct (Hclose w3 1%nat (VJobInfo closed) []) as (Hid & Hst);
      [constructor|reflexivity|].
    split; [exact Hid|]. transitivity (JobFields.state (job w3));
      [exact Hst|reflexivity].
Defined.

Lemma execute_twice_witness :
  let w := exec (Bulk.createJob "Account" "insert" None ;; Job.createBatch)
             Bulk.constructor in
  let w1 := exec (Batch.execute (InString "Name")) w in
  Batch.execute (InString "Name") w1 = (Throw executedError, w1)
  /\ trace w1 = [].
Proof.
  intros w w1.
  destruct (execute_twice_fails w (InString "Name") (InString "Name"))
    as (_ & _ & H).
  split; [exact H|reflexivity].
Defined.

(** The two listeners of [execute] are result listeners. *)
Ltac both_listeners :=
  apply List.Forall_cons;
    [split; [reflexivity|left; split; [reflexivity|eexists; reflexivity]]|];
  apply List.Forall_cons;
    [split; [reflexivity|right; split; [reflexivity|eexists; reflexivity]]|];
  apply List.Forall_nil.

(** The first promise is the one of [execute], pending. *)
Ltac first_awaited :=
  exists [onResponse 0; onError 0]; split; [reflexivity|];
  split; [both_listeners|];
  split; [left; reflexivity|]; split; [right; left; reflexivity|reflexivity].

Lemma execute_writes_records_witness :
  let record : Rec :=
    <["Id" := FString "001"]> (<["IsActive" := FBool true]> ∅) in
  let w := exec (Bulk.createJob "Account" "update" None ;; Job.createBatch)
             Bulk.constructor in
  let w' := exec (Batch.execute (InRecords [record])) w in
  BatchFields._uploadStream (batch w')
  = [CRecord (<["Id" := FString "001"]> (<["IsActive" := FString "true"]> ∅))]
  /\ BatchFields.ended (batch w') = true
  /\ trace w' = [].
Proof.
  intros record w w'.
  destruct (execute_writes_records w [record] eq_refl)
    as (_ & Hs & He & (Ht & _) & _).
  split; [|split; [exact He|exact Ht]].
  transitivity
    (BatchFields._uploadStream (batch w)
     ++ map (fun r => CRecord (Batch.shape (JobFields.operation (job w))
                                 (Batch.coerce <$> r))) [record]);
    [exact Hs|].
  vm_compute. reflexivity.
Defined.

Lemma not_started_guards_witness :
  let w := exec (Bulk.createJob "Account" "insert" None ;; Job.createBatch)
             Bulk.constructor in
  Batch.poll 1000 10000 w = (Throw Batch.notStarted, w)
  /\ Batch.result "752" w = (Throw Batch.notStarted, w)
  /\ settledAt 0 (exec Batch.check w) = Some (Some (Rejected Batch.notStarted))
  /\ trace (exec Batch.retrieve w) = [ECall BatchRetrieve].
Proof.
  intros w.
  destruct (not_started_guards w) as (Hp & Hr & (_ & Hc & _) & (_ & _ & Ht & _));
    [left; reflexivity|].
  split; [apply Hp|]. split; [apply Hr|]. split; [exact Hc|exact Ht].
Defined.

Lemma poll_continues_witness :
  let w := exec (Bulk.load "Account" "insert" (NotOptions (InString "Name")) InNone)
             Bulk.constructor in
  let l := PollLoop.make 0 10000 1000 "750" "751" in
  let res :=
    BatchInfo.make "751" "750" BatchState.InProgress "" "0" "0" "0" in
  let w' := exec (resume (KPoll l) (Fulfilled (VBatchInfo res))) w in
  timers w' = [l]
  /\ trace w' = [EEmit OnBatch "progress" (VBatchInfo res)].
Proof.
  intros w l res w'.
  destruct (poll_continues w l) as (_ & Hgo & _).
  assert (W : LoadWired w).
  { exists [onResponse 0; onError 0]. split; [reflexivity|].
    both_listeners. }
  assert (E : w' = upd_timers (fun ts => ts ++ [l])
                     (upd_trace (cons (EEmit OnBatch "progress" (VBatchInfo res))) w)).
  { unfold w', exec. rewrite (Hgo res W); [reflexivity|discriminate|discriminate]. }
  rewrite E. split; reflexivity.
Defined.

Lemma queued_batch_is_polled_witness :
  let opened := VJobInfo (JobInfo.make "750" "Account" "insert" JobState.Open) in
  let w :=
    run [Readable; Respond 0 (Fulfilled opened); Microtask]
      (exec (Bulk.load "Account" "insert" (NotOptions (InString "Name")) InNone)
         Bulk.constructor) in
  let batchInfo := BatchInfo.make "751" "750" BatchState.Queued "" "0" "0" "0" in
  let w' := exec (resume KQueue (Fulfilled (VBatchInfo batchInfo))) w in
  BatchFields.id (batch w') = Some "751"
  /\ "751" ∈ JobFields._batches (job w')
  /\ timers w' = [PollLoop.make 0 10000 1000 "750" "751"].
Proof.
  intros opened w batchInfo w'.
  assert (W : LoadWired w).
  { exists [onResponse 0; onError 0]. split; [reflexivity|].
    both_listeners. }
  destruct (queued_batch_is_polled w batchInfo "750" W eq_refl)
    as (_ & Hi & Hb & _ & Ht & _); [discriminate|discriminate|].
  split; [exact Hi|]. split; [exact Hb|].
  transitivity (timers w ++ [PollLoop.make (clock w) (pollTimeout w)
                               (pollInterval w) "750" "751"]);
    [exact (Ht eq_refl)|reflexivity].
Defined.

Lemma load_promise_settles_witness :
  let w := exec (Bulk.load "Account" "insert" (NotOptions (InString "Name")) InNone)
             Bulk.constructor in
  let err := new_Error "InvalidBatch" in
  let l := PollLoop.make 0 10000 1000 "750" "751" in
  settledAt 0 w = Some None
  /\ settledAt 0 (exec (emitBatch "error" (VError err)) w)
     = Some (Some (Rejected err))
  /\ settledAt 0 (exec (emitBatch "response" (VResult (LoadResult []))) w)
     = Some (Some (Fulfilled (VResult (LoadResult []))))
  /\ settledAt 0 (exec (pollTick l) (upd_clock 20000 w))
     = Some (Some (Rejected (timeoutError l))).
Proof.
  intros w err l. split; [reflexivity|].
  assert (A : Awaited 0 w) by first_awaited.
  assert (B : Awaited 0 (upd_clock 20000 w)) by first_awaited.
  destruct (load_promise_settles 0 w A) as (He & Hr & _).
  destruct (load_promise_settles 0 (upd_clock 20000 w) B) as (_ & _ & Ht & _).
  split; [apply He|]. split; [apply Hr|].
  apply Ht. simpl. lia.
Defined.

Lemma job_error_reaches_batch_witness :
  let w :=
    step Readable
      (exec (Bulk.load "Account" "insert" (NotOptions (InString "Name")) InNone)
         Bulk.constructor) in
  let err := new_Error "InvalidJob" in
  let w' := step (Respond 0 (Rejected err)) w in
  awaiting w !! 0%nat = Some (KOpen 1)
  /\ settledAt 0 w = Some None
  /\ settledAt 0 w' = Some (Some (Rejected err)).
Proof.
  intros w err w'. split; [reflexivity|]. split; [reflexivity|].
  assert (L : Loading 0 w).
  { split; [first_awaited|]. split; reflexivity. }
  destruct (job_error_reaches_batch 0 w L) as (_ & H).
  destruct (H 0%nat 1%nat err eq_refl) as (Hs & _). exact Hs.
Defined.

Lemma check_refreshes_witness :
  let w := exec (Bulk.job "750") Bulk.constructor in
  let jobInfo := JobInfo.make "750" "Account" "upsert" JobState.Closed in
  let w2 := step Microtask (exec Job.check w) in
  let w3 := step (Respond 0 (Fulfilled (VJobInfo jobInfo))) w2 in
  trace w2 = [ERequest 0 (jobRequest "750")]
  /\ JobFields.type (job w3) = Some "Account"
  /\ JobFields.operation (job w3) = Some "upsert"
  /\ JobFields.state (job w3) = JobState.Closed
  /\ settledAt 0 w3 = Some (Some (Fulfilled (VJobInfo jobInfo))).
Proof.
  intros w jobInfo w2 w3.
  destruct (check_refreshes w "750" eq_refl) as (_ & _ & (Ht & _) & Hr & _);
    [discriminate|reflexivity|].
  destruct (Hr jobInfo) as (_ & Hty & Hop & Hst & Hp & _).
  split; [exact Ht|]. split; [exact Hty|]. split; [exact Hop|].
  split; [exact Hst|exact Hp].
Defined.


Lemma unopenable_job_rejects_witness :
  let w := exec (Bulk.job "") Bulk.constructor in
  Job.open w = (Throw openError, w)
  /\ settledAt 0 (exec Job.check w) = Some (Some (Rejected openError))
  /\ microtasks (exec Job.close w) = [(KClose 0, Rejected openError)]
  /\ trace (exec Job.abort w) = [ECall JobAbort].
Proof.
  intros w.
  destruct (unopenable_job_rejects w eq_refl eq_refl)
    as (Ho & (_ & Hc & _) & (_ & _ & _ & _ & Hm) & (_ & _ & Ht & _)).
  split; [exact Ho|]. split; [exact Hc|]. split; [exact Hm|exact Ht].
Defined.

Lemma close_by_id_witness :
  let w := exec (Bulk.job "750") Bulk.constructor in
  let closed := JobInfo.make "750" "Account" "insert" JobState.Closed in
  let w1 := step Microtask (exec Job.close w) in
  let w3 := run [Respond 0 (Fulfilled (VJobInfo closed)); Microtask] w1 in
  trace w1 = [ERequest 0 (Job.changeStateRequest "750" JobState.Closed);
              ECall JobClose]
  /\ JobFields.id (job w3) = None
  /\ JobFields.state (job w3) = JobState.Closed
  /\ settledAt 0 w3 = Some (Some (Fulfilled (VJobInfo closed))).
Proof.
  intros w closed w1 w3.
  destruct (close_by_id "750" Bulk.constructor closed) as (_ & Hc & _);
    [discriminate|reflexivity|].
  destruct Hc as (_ & Ht & _ & (Hi & Hs) & _ & Hp).
  split; [exact Ht|]. split; [exact Hi|]. split; [exact Hs|exact Hp].
Defined.

Lemma open_body_witness :
  let this := Job.constructor (Some "Account") (Some "hardDelete") None None in
  Job.openBody this = jobInfoXml "hardDelete" "Account" BulkOptions.empty
  /\ Job.openBody (JobFields.set_operation (Some "HARDDELETE") this)
     = Job.openBody this.
Proof.
  intros this.
  destruct (open_body this) as ((sent & Hb & _ & Hs) & Hc & _).
  split; [|apply Hc; reflexivity].
  assert (E : sent = "hardDelete")
    by (apply Hs; do 4 right; left; reflexivity).
  rewrite E in Hb. exact Hb.
Defined.

Lemma retrieve_query_envelope_witness :
  let w := exec (Bulk.createJob "Account" "query" None ;; Job.createBatch)
             Bulk.constructor in
  Batch.decode (JobFields.operation (job w))
    (VQueryResponse (inr ["752"; "753"])) "750" "751"
  = Normal (QueryResult [QueryEntry.make "752" "751" "750";
                         QueryEntry.make "753" "751" "750"]).
Proof.
  intros w.
  destruct (retrieve_query_envelope w 0 "750" "751" (inr ["752"; "753"]))
    as (Hd & _); [left; reflexivity|].
  exact Hd.
Defined.

Lemma session_expired_iff_witness :
  BulkApi.isSessionExpired
    (HttpResponse.make 400
       "<error><exceptionCode>InvalidSessionId</exceptionCode></error>")
  = true
  /\ BulkApi.isSessionExpired
       (HttpResponse.make 401
          "<error><exceptionCode>InvalidSessionId</exceptionCode></error>")
     <> true.
Proof.
  split.
  - apply (proj2 (session_expired_iff _)). split; [reflexivity|].
    exists "<error>", "</error>". reflexivity.
  - intros H. apply (proj1 (session_expired_iff _)) in H.
    destruct H as (H & _). discriminate H.
Defined.

Lemma request_carries_session_witness :
  let conn := Connection.make "https://na1.salesforce.com" "42.0"
                (Some "00Dxx!AQ") in
  let this := Job.constructor (Some "Account") (Some "insert") None None in
  let request := snd (Bulk._request conn (Job.openRequest this)) in
  let sent := BulkApi.beforeSend conn request in
  HttpRequest.url sent = "https://na1.salesforce.com/services/async/42.0/job"
  /\ HttpRequest.headers sent !! "X-SFDC-SESSION" = Some "00Dxx!AQ"
  /\ HttpRequest.headers sent !! "Content-Type"
     = Some "application/xml; charset=utf-8".
Proof.
  intros conn this request sent.
  destruct (request_carries_session conn (Job.openRequest this))
    as (_ & Hu & _ & _ & Hs & Ho & Hh & _).
  split; [exact Hu|]. split; [exact Hs|].
  transitivity (HttpRequest.headers request !! "Content-Type");
    [apply Ho; discriminate|].
  apply Hh; [|left].
  apply NoDup_cons. split; [intros H; inversion H|apply NoDup_nil_2].
Defined.

Lemma named_layout_key_ignores_type_witness :
  SObject.layoutCacheKey "Account" (Some "Compact")
  = SObject.layoutCacheKey "Contact" (Some "Compact")
  /\ SObject.layoutsUrl "Account" (Some "Compact")
     <> SObject.layoutsUrl "Contact" (Some "Compact").
Proof.
  destruct (named_layout_key_ignores_type "Account" "Contact" "Compact")
    as (Hk & Hu & _); [discriminate|].
  split; [exact Hk|apply Hu; discriminate].
Defined.

Lemma operation_case_matters_witness :
  let this := Job.constructor (Some "Account") (Some "INSERT") None None in
  let record_ : Rec :=
    <["Id" := FString "001"]> (<["Name" := FString "Acme"]> ∅) in
  Job.openBody this
  = Job.openBody (JobFields.set_operation (Some "insert") this)
  /\ Batch.shape (Some "insert") record_ !! "Id" = None
  /\ Batch.shape (Some "INSERT") record_ !! "Id" = Some (FString "001").
Proof.
  intros this record_.
  destruct (operation_case_matters this "INSERT" eq_refl) as (Hi & _).
  destruct Hi as (Hb & Hr); [reflexivity|discriminate|].
  destruct (Hr record_) as (Hn & Hk).
  split; [exact Hb|]. split; [exact Hn|exact Hk].
Defined.

Lemma then_executes_once_witness :
  let w := exec (Bulk.createJob "Account" "insert" None ;; Job.createBatch)
             Bulk.constructor in
  let then_ := Batch.then_ None None in
  let w1 := exec then_ w in
  eval then_ w = Normal 1%nat
  /\ BatchFields._result (batch w1) = Some 0%nat
  /\ promises w1 !! 0%nat = Some (Cell.make None [KThen 1 None None])
  /\ eval then_ w1 = Normal 2%nat
  /\ Batch.execute (InString "Name") w1 = (Throw executedError, w1).
Proof.
  intros w then_ w1.
  destruct (then_executes_once None None w)
    as (p & q & He & Hr & _ & _ & Hn & _ & (Ha & _) & Hx & _).
  destruct (Hn eq_refl) as (Hp & _ & _ & Hk & _).
  assert (Eq : q = 1%nat).
  { assert (N : Normal q = Normal 1%nat :> Completion nat)
      by (rewrite <- He; reflexivity).
    injection N as N. exact N. }
  assert (Ep : p = 0%nat) by (rewrite Hp; reflexivity).
  rewrite Eq in He, Ha, Hk. rewrite Ep in Hr, Hk.
  split; [exact He|]. split; [exact Hr|]. split; [exact Hk|].
  split; [exact Ha|apply Hx].
Defined.

Lemma failed_close_witness :
  let w := upd_job (fun _ => Job.constructor None None None (Some "750"))
             Bulk.constructor in
  let err := new_Error "InvalidJobState" in
  let closing := step Microtask (exec Job.close w) in
  let refused := step (Respond 0 (Rejected err)) closing in
  let caught := step Microtask refused in
  awaiting closing !! 0%nat = Some (KChangeState 1)
  /\ microtasks refused = [(KClose 0, Rejected err)]
  /\ (JobFields.id (job caught) = Some "750"
      /\ JobFields.state (job caught) = JobState.Open)
  /\ settledAt 0 caught = Some (Some (Rejected err))
  /\ trace caught
     = [EEmit OnJob "error" (VError err);
        ERequest 0 (Job.changeStateRequest "750" JobState.Closed);
        ECall JobClose].
Proof.
  intros w err closing refused caught.
  destruct (failed_close_keeps_identity w) as (_ & _ & _ & _ & _ & _ & Hrun).
  destruct (Hrun "750" err eq_refl) as (Hclose & _);
    [discriminate|reflexivity|].
  destruct Hclose
    as (_ & (Ht1 & Ha) & (Hm & Ht2 & _) & _ & (_ & _ & Hi & Hs) & Hp).
  destruct (Hp eq_refl) as (Hset & Ht3).
  split; [exact Ha|]. split; [exact Hm|].
  split; [split; [exact Hi|exact Hs]|]. split; [exact Hset|].
  transitivity (EEmit OnJob "error" (VError err) :: trace refused);
    [exact Ht3|].
  apply (f_equal (cons (EEmit OnJob "error" (VError err)))).
  transitivity (trace closing); [exact Ht2|exact Ht1].
Defined.

Lemma retrieve_settles_load_witness :
  let opened := VJobInfo (JobInfo.make "750" "Account" "insert" JobState.Open) in
  let queued :=
    VBatchInfo (BatchInfo.make "751" "750" BatchState.Queued "" "0" "0" "0") in
  let closed := JobInfo.make "750" "Account" "insert" JobState.Closed in
  let w :=
    exec (_ <- Batch.retrieve ;; ret tt)
      (run [Readable; Respond 0 (Fulfilled opened); Microtask;
            Respond 1 (Fulfilled queued)]
         (exec (Bulk.load "Account" "insert" (NotOptions (InString "Name"))
                  InNone)
            Bulk.constructor)) in
  let rows := [Row.make (Some "001") (Some "true") (Some "")] in
  let w1 := exec (resume (KRetrieve 2 "750" "751")
                    (Fulfilled (VLoadResponse rows))) w in
  let w4 := run [Microtask; Respond 3 (Fulfilled (VJobInfo closed)); Microtask]
              w1 in
  settledAt 0 w1
  = Some (Some (Fulfilled
                  (VResult (LoadResult [LoadEntry.make (Some "001") true []]))))
  /\ JobFields.id (job w1) = Some "750"
  /\ JobFields.id (job w4) = None
  /\ JobFields.state (job w4) = JobState.Closed
  /\ trace w4
     = EEmit OnJob "close" (VJobInfo closed)
       :: ERequest 3 (Job.changeStateRequest "750" JobState.Closed)
       :: trace w1.
Proof.
  intros opened queued closed w rows w1 w4.
  assert (R : Retrieving 0 2 "750" w).
  { split; [reflexivity|]. split; [reflexivity|]. split; [reflexivity|].
    split; [discriminate|]. split; [reflexivity|]. split; [discriminate|].
    split; [reflexivity|]. repeat constructor. }
  destruct (retrieve_settles_load 0 2 "750" "751" w
              (retrieving_awaited 0 2 "750" w R))
    as (Hr & _ & _ & Hc); [discriminate|discriminate|].
  destruct (Hr rows) as (Hs & _).
  destruct (Hc R closed) as (Hrows & _).
  destruct (Hrows rows) as (_ & Ht2 & _ & (Hi4 & Hs4 & Ht4)).
  split; [exact Hs|]. split; [reflexivity|].
  split; [exact Hi4|]. split; [exact Hs4|].
  transitivity
    (EEmit OnJob "close" (VJobInfo closed) :: trace (step Microtask w1));
    [exact Ht4|].
  apply (f_equal (cons (EEmit OnJob "close" (VJobInfo closed)))). exact Ht2.
Defined.

Lemma load_end_to_end_witness :
  let opened := JobInfo.make "750" "Account" "insert" JobState.Open in
  let closed := JobInfo.make "750" "Account" "insert" JobState.Closed in
  let queued := BatchInfo.make "751" "750" BatchState.Queued "" "0" "0" "0" in
  let completed :=
    BatchInfo.make "751" "750" BatchState.Completed "" "1" "0" "1" in
  let rows := [Row.make (Some "001") (Some "true") (Some "")] in
  let w :=
    run [Readable; Respond 0 (Fulfilled (VJobInfo opened)); Microtask;
         Respond 1 (Fulfilled (VBatchInfo queued)); Timer 0 1000;
         Respond 2 (Fulfilled (VBatchInfo completed)); Microtask]
      (exec (Bulk.load "Account" "insert" (NotOptions (InString "Name")) InNone)
         Bulk.constructor) in
  let w' := step (Respond 3 (Fulfilled (VLoadResponse rows))) w in
  let w'' := run [Microtask; Respond 4 (Fulfilled (VJobInfo closed)); Microtask]
               w' in
  settledAt 0 w = Some None
  /\ settledAt 0 w'
     = Some (Some (Fulfilled
                     (VResult (LoadResult [LoadEntry.make (Some "001") true []]))))
  /\ JobFields.id (job w') = Some "750"
  /\ JobFields.id (job w'') = None
  /\ JobFields.state (job w'') = JobState.Closed
  /\ trace w''
     = EEmit OnJob "close" (VJobInfo closed)
       :: ERequest 4 (Job.changeStateRequest "750" JobState.Closed)
       :: trace w'.
Proof.
  intros opened closed queued completed rows w w' w''.
  destruct (load_end_to_end "Account" "insert" (NotOptions (InString "Name"))
              InNone Bulk.constructor opened closed queued completed rows 1000)
    as (_ & Hp & _ & Hs & _ & Hi & Ht & Hn & Hst);
    [discriminate|discriminate|discriminate|discriminate|reflexivity
    |discriminate|discriminate|reflexivity|simpl; lia|].
  split; [exact Hp|]. split; [exact Hs|]. split; [exact Hi|].
  split; [exact Hn|]. split; [exact Hst|exact Ht].
Defined.
